(** * The KN5 node writer (NodeWriter.py), embedded and verified

    The exporter walks a Blender scene and appends node records to an
    output file.  This development embeds [NodeWriter.py] function by
    function:

    - Python exceptions become the [Raise] outcome of a three-valued
      result type, the third outcome being a loop that ran out of fuel;
    - the output file and the warnings list are an explicit state that
      every writing function threads;
    - dictionaries whose iteration order or key equality matters are
      association lists in insertion order, the other ones are [gmap]s;
    - Python floats are idealised as rationals ([Q]): arithmetic is exact
      and there is no NaN, comparisons are the rational ones; the
      partitioner, whose dictionary of vertices depends on NaN, is embedded
      once more over floats with NaN (module [Floats]). *)

From Stdlib Require Import QArith Qminmax Ascii Lqa.
From stdpp Require Import gmap strings list sorting.

Local Open Scope nat_scope.

(** ** Outcomes of Python code *)

Inductive PyExc : Type :=
  | MeshHasChildren (name : string)
      (* Exception("A mesh cannot contain children ('%s')") *)
  | TooManyVertices (name : string)
      (* Exception("Only %d vertices per mesh allowed. ('%s')") *)
  | NoMaterialAssigned (name : string)
      (* Exception("Object '%s' has no material assigned") *)
  | EmptyMaterialSlot (slot : nat) (name : string)
      (* Exception("Material slot %i for object '%s' has no material assigned") *)
  | IgnoredMaterialUsed (material name : string)
      (* Exception("Material '%s' is ignored but is used by object '%s'") *)
  | KeyError (key : string)
  | IndexError
  | AttributeError
  | ZeroDivisionError.

Inductive Result (A : Type) : Type :=
  | Ok (a : A)
  | Raise (e : PyExc)
  | OutOfFuel.
Arguments Ok {A} a.
Arguments Raise {A} e.
Arguments OutOfFuel {A}.

Definition bind {A B} (r : Result A) (k : A -> Result B) : Result B :=
  match r with
  | Ok a => k a
  | Raise e => Raise e
  | OutOfFuel => OutOfFuel
  end.

Notation "'let*' x ':=' e 'in' k" := (bind e (fun x => k))
  (at level 10, x pattern, e at level 200, k at level 200).

(** [l[i]] on a Python list. *)
Definition getitem {A} (l : list A) (i : nat) : Result A :=
  match l !! i with
  | Some a => Ok a
  | None => Raise IndexError
  end.

(** A list comprehension whose element expression may raise. *)
Fixpoint comprehension {A B} (f : A -> Result B) (l : list A) : Result (list B) :=
  match l with
  | [] => Ok []
  | a :: l' => let* b := f a in let* bs := comprehension f l' in Ok (b :: bs)
  end.

(** ** Python dictionaries as insertion-ordered association lists *)

Section PyDict.
Context {K V : Type} (keq : K -> K -> bool).

Definition dict := list (K * V).

(** [d.get(k)]: the entry whose key is equal to [k]. *)
Fixpoint dict_get (d : dict) (k : K) : option V :=
  match d with
  | [] => None
  | (k', v) :: d' => if keq k' k then Some v else dict_get d' k
  end.

(** [k in d] *)
Definition dict_in (d : dict) (k : K) : bool :=
  match dict_get d k with Some _ => true | None => false end.

(** [d[k] = v]: an existing key keeps its place, a new one goes last. *)
Fixpoint dict_set (d : dict) (k : K) (v : V) : dict :=
  match d with
  | [] => [(k, v)]
  | (k', v') :: d' =>
      if keq k' k then (k', v) :: d' else (k', v') :: dict_set d' k v
  end.

(** [d.items()] *)
Definition items (d : dict) : list (K * V) := d.
End PyDict.

(** [sorted(l, key=key)]: Python's sort is stable; an element goes in front
    of the first element whose key is not smaller. *)
Fixpoint sorted_insert {A} (key : A -> nat) (x : A) (l : list A) : list A :=
  match l with
  | [] => [x]
  | y :: l' => if key x <=? key y then x :: y :: l' else y :: sorted_insert key x l'
  end.

Fixpoint sorted {A} (key : A -> nat) (l : list A) : list A :=
  match l with
  | [] => []
  | x :: l' => sorted_insert key x (sorted key l')
  end.

(** ** Vertices and mesh partitions *)

Definition Vec2 : Type := Q * Q.
Definition Vec3 : Type := Q * Q * Q.

Definition x3 (v : Vec3) : Q := v.1.1.
Definition y3 (v : Vec3) : Q := v.1.2.
Definition z3 (v : Vec3) : Q := v.2.

Record UvVertex : Type := mkUvVertex {
  co : Vec3;
  normal : Vec3;
  uv : Vec2;
  tangent : Vec3
}.

(** Python's [!=] on two floats. *)
Definition ne (a b : Q) : bool := negb (Qeq_bool a b).

(** [UvVertex.__eq__] *)
Definition UvVertex_eq (self other : UvVertex) : bool :=
  if ne (x3 (co self)) (x3 (co other)) || ne (y3 (co self)) (y3 (co other))
     || ne (z3 (co self)) (z3 (co other)) then false
  else if ne (x3 (normal self)) (x3 (normal other))
          || ne (y3 (normal self)) (y3 (normal other))
          || ne (z3 (normal self)) (z3 (normal other)) then false
  else if ne (uv self).1 (uv other).1 || ne (uv self).2 (uv other).2 then false
  else if ne (x3 (tangent self)) (x3 (tangent other))
          || ne (y3 (tangent self)) (y3 (tangent other))
          || ne (z3 (tangent self)) (z3 (tangent other)) then false
  else true.

(** Values of dynamically typed attributes (settings come from JSON). *)
Inductive Value : Type :=
  | VNone
  | VBool (b : bool)
  | VInt (z : Z)
  | VFloat (q : Q)
  | VStr (s : string).

Definition is_None (v : Value) : bool :=
  match v with VNone => true | _ => false end.

Record Mesh : Type := mkMesh {
  materialId : Value;
  vertices : list UvVertex;
  indices : list nat
}.

(** ** Index-limit splitting ([splitMeshesForVertexLimit]) *)

Definition limit : nat := 2 ^ 16.

(** [for faceIndex in face: ...] *)
Fixpoint faceLoop (face : list nat) (vertexIndexMapping : list (nat * nat))
    (newIndices : list nat) : list (nat * nat) * list nat :=
  match face with
  | [] => (vertexIndexMapping, newIndices)
  | faceIndex :: face' =>
      let vertexIndexMapping :=
        if negb (dict_in Nat.eqb vertexIndexMapping faceIndex) then
          let newIndex := length vertexIndexMapping in
          dict_set Nat.eqb vertexIndexMapping faceIndex newIndex
        else vertexIndexMapping in
      match dict_get Nat.eqb vertexIndexMapping faceIndex with
      | Some i => faceLoop face' vertexIndexMapping (newIndices ++ [i])
      | None => (vertexIndexMapping, newIndices) (* the key was just set *)
      end
  end.

(** [for i in range(startIndex, len(mesh.indices), 3): ...] over the indices
    from [startIndex] on; returns the indices left when the loop ends. *)
Fixpoint forLoop (limit : nat) (rest : list nat)
    (vertexIndexMapping : list (nat * nat)) (newIndices : list nat)
    : list (nat * nat) * list nat * list nat :=
  match rest with
  | [] => (vertexIndexMapping, newIndices, [])
  | a :: b :: c :: rest' =>
      let '(vertexIndexMapping, newIndices) :=
        faceLoop [a; b; c] vertexIndexMapping newIndices in
      if limit - 3 <=? length vertexIndexMapping
      then (vertexIndexMapping, newIndices, rest')
      else forLoop limit rest' vertexIndexMapping newIndices
  | face =>
      (* the slice [mesh.indices[i:i+3]] is short and the range is over *)
      let '(vertexIndexMapping, newIndices) :=
        faceLoop face vertexIndexMapping newIndices in
      (vertexIndexMapping, newIndices, [])
  end.

(** [while startIndex<len(mesh.indices): ...] *)
Fixpoint whileLoop (fuel : nat) (limit : nat) (mesh : Mesh) (rest : list nat)
    : Result (list Mesh) :=
  match rest with
  | [] => Ok []
  | _ =>
      match fuel with
      | 0 => OutOfFuel
      | S fuel =>
          let '(vertexIndexMapping, newIndices, rest') := forLoop limit rest [] [] in
          let* chunk_vertices := comprehension (fun '(v, index) => getitem (vertices mesh) v)
              (sorted snd (items vertexIndexMapping)) in
          let* newMeshes := whileLoop fuel limit mesh rest' in
          Ok (mkMesh (materialId mesh) chunk_vertices newIndices :: newMeshes)
      end
  end.

Definition splitMesh (limit : nat) (mesh : Mesh) : Result (list Mesh) :=
  if limit <? length (vertices mesh)
  then whileLoop (length (indices mesh)) limit mesh (indices mesh)
  else Ok [mesh].

Fixpoint splitMeshesLoop (limit : nat) (dividedMeshes newMeshes : list Mesh)
    : Result (list Mesh) :=
  match dividedMeshes with
  | [] => Ok newMeshes
  | mesh :: dividedMeshes' =>
      let* meshes := splitMesh limit mesh in
      splitMeshesLoop limit dividedMeshes' (newMeshes ++ meshes)
  end.

Definition splitMeshesForVertexLimit (dividedMeshes : list Mesh) : Result (list Mesh) :=
  splitMeshesLoop limit dividedMeshes [].

(** ** Strings *)

(** [s.startswith(p)] *)
Definition startswith (s p : string) : bool := String.prefix p s.

(** [s.split(sep)] for a separator of one character. *)
Fixpoint split (sep : Ascii.ascii) (s : string) : list string :=
  match s with
  | EmptyString => [EmptyString]
  | String c s' =>
      if Ascii.eqb c sep then EmptyString :: split sep s'
      else match split sep s' with
           | h :: t => String c h :: t
           | [] => [String c EmptyString]
           end
  end.

(** [s.replace(old, new)] for a non-empty [old]: occurrences are replaced
    from the left and do not overlap; [skip] counts the characters of an
    occurrence that are still to be dropped. *)
Fixpoint replace_from (old new : string) (skip : nat) (s : string) : string :=
  match s with
  | EmptyString => EmptyString
  | String c s' =>
      match skip with
      | S skip' => replace_from old new skip' s'
      | 0 =>
          if String.prefix old s
          then String.append new (replace_from old new (String.length old - 1) s')
          else String c (replace_from old new 0 s')
      end
  end.

Definition replace (s old new : string) : string := replace_from old new 0 s.

(** ** The scene as the exporter reads it *)

(** A 4x4 [mathutils.Matrix], row by row. *)
Definition Row : Type := Q * Q * Q * Q.
Record Matrix : Type := mkMatrix { row0 : Row; row1 : Row; row2 : Row; row3 : Row }.

(** [mathutils.Matrix()] *)
Definition Matrix_identity : Matrix :=
  mkMatrix (1, 0, 0, 0)%Q (0, 1, 0, 0)%Q (0, 0, 1, 0)%Q (0, 0, 0, 1)%Q.

Definition row_dot (r : Row) (v : Vec3) : Q :=
  let '(a, b, c, d) := r in (a * x3 v + b * y3 v + c * z3 v + d * 1)%Q.

(** [matrix * v] for a 4x4 matrix and a 3D vector: the vector is extended
    by 1 and the result has three components. *)
Definition Matrix_mul_vec (m : Matrix) (v : Vec3) : Vec3 :=
  (row_dot (row0 m) v, row_dot (row1 m) v, row_dot (row2 m) v).

(** [kn5Helper.convertVector3] *)
Definition convertVector3 (v : Vec3) : Vec3 := (x3 v, z3 v, - y3 v)%Q.

Record TextureSlot : Type := mkTextureSlot {
  scale : Vec3;
  offset : Vec3
}.

Record Material : Type := mkMaterial {
  mat_name : string;
  mat_texture_slot : option TextureSlot
}.

(** Modelled from the spec: [kn5Helper.getActiveMaterialTextureSlot] is not
    among the sources; it yields "the active material's texture transform if
    one exists", [None] otherwise. *)
Definition getActiveMaterialTextureSlot (mat : Material) : option TextureSlot :=
  mat_texture_slot mat.

Record MeshVertex : Type := mkMeshVertex {
  mv_co : Vec3;
  mv_normal : Vec3
}.

Record TessFace : Type := mkTessFace {
  face_index : nat;
  face_vertices : list nat;
  material_index : nat
}.

(** The mesh [object.to_mesh(...)] evaluates to.  [tessface_uv_active] is
    [tessface_uv_textures.active]: per face, the uv of each face vertex. *)
Record BlenderMesh : Type := mkBlenderMesh {
  mesh_vertices : list MeshVertex;
  tessfaces : list TessFace;
  materials : list (option Material);
  tessface_uv_active : option (list (list Vec2))
}.

(** [object.assettoCorsa] *)
Record AcProperties : Type := mkAcProperties {
  ac_lodIn : Value;
  ac_lodOut : Value;
  ac_layer : Value;
  ac_castShadows : Value;
  ac_visible : Value;
  ac_transparent : Value;
  ac_renderable : Value
}.

(** What the exporter reads of one object.  [parent] is the parent's
    [matrix_world], [None] for an object without parent. *)
Record ObjectData : Type := mkObjectData {
  ob_name : string;
  ob_type : string;
  parent : option Matrix;
  matrix_local : Matrix;
  matrix_world : Matrix;
  dimensions : Vec3;
  assettoCorsa : AcProperties;
  to_mesh : BlenderMesh
}.

#[warnings="-register-all"]
Inductive Object : Type :=
  | mkObject (data : ObjectData) (children : list Object).

Definition data (o : Object) : ObjectData := let '(mkObject d _) := o in d.
Definition children (o : Object) : list Object := let '(mkObject _ c) := o in c.
Definition name (o : Object) : string := ob_name (data o).

(** ** Node properties and node settings *)

Record NodeProperties : Type := mkNodeProperties {
  np_name : string;
  lodIn : Value;
  lodOut : Value;
  layer : Value;
  castShadows : Value;
  visible : Value;
  transparent : Value;
  renderable : Value
}.

(** [NodeProperties.__init__] *)
Definition NodeProperties_init (node : Object) : NodeProperties :=
  let ac := assettoCorsa (data node) in
  {| np_name := name node;
     lodIn := ac_lodIn ac;
     lodOut := ac_lodOut ac;
     layer := ac_layer ac;
     castShadows := ac_castShadows ac;
     visible := ac_visible ac;
     transparent := ac_transparent ac;
     renderable := ac_renderable ac |}.

(** The parsed settings file: the value of its ["nodes"] key, when it has
    one, maps each node key to a dictionary of overrides; the keys keep the
    order of the file. *)
Record Settings : Type := mkSettings {
  nodes : option (list (string * gmap string Value))
}.

(** A compiled regular expression is the set of strings it matches. *)
Definition Regex : Type := string -> bool.

Record NodeSettings : Type := mkNodeSettings {
  ns_settings : Settings;
  nodeSettingsKey : string;
  nodeNameMatches : list Regex
}.

(** [self.settings["nodes"][self.nodeSettingsKey]] *)
Definition nodeConfig (self : NodeSettings) : Result (gmap string Value) :=
  match nodes (ns_settings self) with
  | None => Raise (KeyError "nodes")
  | Some ns =>
      match dict_get String.eqb ns (nodeSettingsKey self) with
      | Some config => Ok config
      | None => Raise (KeyError (nodeSettingsKey self))
      end
  end.

(** The common shape of the seven getters: the value under [key] if the
    node's dictionary has the key, [None] otherwise. *)
Definition getNodeValue (self : NodeSettings) (key : string) : Result Value :=
  let* config := nodeConfig self in
  match config !! key with
  | Some v => Ok v
  | None => Ok VNone
  end.

Definition getNodeLodIn (self : NodeSettings) := getNodeValue self "lodIn".
Definition getNodeLodOut (self : NodeSettings) := getNodeValue self "lodOut".
Definition getNodeLayer (self : NodeSettings) := getNodeValue self "layer".
Definition getNodeCastShadows (self : NodeSettings) := getNodeValue self "castShadows".
Definition getNodeIsVisible (self : NodeSettings) := getNodeValue self "isVisible".
Definition getNodeIsTransparent (self : NodeSettings) := getNodeValue self "isTransparent".
Definition getNodeIsRenderable (self : NodeSettings) := getNodeValue self "isRenderable".

(** [NodeSettings.doesNodeNameMatch] *)
Definition doesNodeNameMatch (self : NodeSettings) (nodeName : string) : bool :=
  existsb (fun regex => regex nodeName) (nodeNameMatches self).

(** Assignments to the attributes of a node. *)
Definition set_lodIn (node : NodeProperties) (v : Value) : NodeProperties :=
  mkNodeProperties (np_name node) v (lodOut node) (layer node) (castShadows node)
    (visible node) (transparent node) (renderable node).
Definition set_lodOut (node : NodeProperties) (v : Value) : NodeProperties :=
  mkNodeProperties (np_name node) (lodIn node) v (layer node) (castShadows node)
    (visible node) (transparent node) (renderable node).
Definition set_layer (node : NodeProperties) (v : Value) : NodeProperties :=
  mkNodeProperties (np_name node) (lodIn node) (lodOut node) v (castShadows node)
    (visible node) (transparent node) (renderable node).
Definition set_castShadows (node : NodeProperties) (v : Value) : NodeProperties :=
  mkNodeProperties (np_name node) (lodIn node) (lodOut node) (layer node) v
    (visible node) (transparent node) (renderable node).
Definition set_visible (node : NodeProperties) (v : Value) : NodeProperties :=
  mkNodeProperties (np_name node) (lodIn node) (lodOut node) (layer node)
    (castShadows node) v (transparent node) (renderable node).
Definition set_transparent (node : NodeProperties) (v : Value) : NodeProperties :=
  mkNodeProperties (np_name node) (lodIn node) (lodOut node) (layer node)
    (castShadows node) (visible node) v (renderable node).
Definition set_renderable (node : NodeProperties) (v : Value) : NodeProperties :=
  mkNodeProperties (np_name node) (lodIn node) (lodOut node) (layer node)
    (castShadows node) (visible node) (transparent node) v.

(** [NodeSettings.applySettingsToNode]; the node is updated in place, the
    updated node is the result. *)
Definition applySettingsToNode (self : NodeSettings) (node : NodeProperties)
    : Result NodeProperties :=
  if negb (doesNodeNameMatch self (np_name node)) then Ok node
  else
    let* lodIn := getNodeLodIn self in
    let node := if negb (is_None lodIn) then set_lodIn node lodIn else node in
    let* lodOut := getNodeLodOut self in
    let node := if negb (is_None lodOut) then set_lodOut node lodOut else node in
    let* layer := getNodeLayer self in
    let node := if negb (is_None layer) then set_layer node layer else node in
    let* castShadows := getNodeCastShadows self in
    let node :=
      if negb (is_None castShadows) then set_castShadows node castShadows else node in
    let* visible := getNodeIsVisible self in
    let node := if negb (is_None visible) then set_visible node visible else node in
    let* transparent := getNodeIsTransparent self in
    let node :=
      if negb (is_None transparent) then set_transparent node transparent else node in
    let* renderable := getNodeIsRenderable self in
    let node :=
      if negb (is_None renderable) then set_renderable node renderable else node in
    Ok node.

(** [for nodeSetting in self.nodeSettings:
      nodeSetting.applySettingsToNode(nodeProperties)] *)
Fixpoint nodeSettingsLoop (nodeSettings : list NodeSettings)
    (nodeProperties : NodeProperties) : Result NodeProperties :=
  match nodeSettings with
  | [] => Ok nodeProperties
  | nodeSetting :: nodeSettings' =>
      let* nodeProperties := applySettingsToNode nodeSetting nodeProperties in
      nodeSettingsLoop nodeSettings' nodeProperties
  end.

(** ** The output file and the warnings *)

(** [kn5Helper]'s primitive writers are not among the sources: the file is
    kept as the sequence of fields written to it, each with the writer that
    was called and the value it was given. *)
Inductive Token : Type :=
  | TUInt (v : Value)
  | TUShort (v : Value)
  | TBool (v : Value)
  | TFloat (v : Value)
  | TString (s : string)
  | TVector2 (v : Vec2)
  | TVector3 (v : Vec3)
  | TMatrix (m : Matrix).

Inductive Warning : Type :=
  | UnknownLogicalObject (name : string)
      (* "Unknown logical object '{0}' might prevent other objects from loading. ..." *)
  | NoMaterialToMesh (name : string).
      (* "No material to mesh '%s' assigned" *)

Record State : Type := mkState {
  file : list Token;
  warnings : list Warning
}.

Definition emit (t : Token) (st : State) : Result State :=
  Ok (mkState (file st ++ [t]) (warnings st)).

Definition warn (w : Warning) (st : State) : Result State :=
  Ok (mkState (file st) (warnings st ++ [w])).

(** Modelled from the spec: the Binary Encoder ([kn5Helper.writeUInt] and
    the like, not among the sources) "emits fixed-width integers, booleans,
    floats, length-prefixed strings, 2/3-component vectors, 4x4 matrices to
    an output byte sink", sequentially. *)
Definition writeUInt (v : Value) := emit (TUInt v).
Definition writeUShort (v : Value) := emit (TUShort v).
Definition writeBool (v : Value) := emit (TBool v).
Definition writeFloat (v : Value) := emit (TFloat v).
Definition writeString (s : string) := emit (TString s).
Definition writeVector2 (v : Vec2) := emit (TVector2 v).
Definition writeVector3 (v : Vec3) := emit (TVector3 v).
Definition writeMatrix (m : Matrix) := emit (TMatrix m).

(** [len(l)] as a Python value. *)
Definition len {A} (l : list A) : Value := VInt (Z.of_nat (length l)).

(** [for x in l: body(x)] over the state. *)
Fixpoint for_each {A} (body : A -> State -> Result State) (l : list A) (st : State)
    : Result State :=
  match l with
  | [] => Ok st
  | a :: l' => let* st := body a st in for_each body l' st
  end.

Definition NodeClass : list (string * Z) :=
  [("Node", 1%Z); ("Mesh", 2%Z); ("SkinnedMesh", 3%Z)].

Definition AcObjects : list string :=
  ["AC_START_\d+";       "AC_PIT_\d+";          "AC_TIME_\d+_L";
   "AC_TIME_\d+_R";      "AC_HOTLAP_START_\d+"; "AC_OPEN_FINISH_R";
   "AC_OPEN_FINISH_L";   "AC_OPEN_START_L";     "AC_OPEN_START_R";
   "AC_AUDIO_.+";        "AC_CREW_\d+";         "AC_PIT_\d+"].

(** Python's [>] and [<] on floats, and [a / b]. *)
Definition gt (a b : Q) : bool := negb (Qle_bool a b).
Definition lt (a b : Q) : bool := negb (Qle_bool b a).

Definition div (a b : Q) : Result Q :=
  if Qeq_bool b 0 then Raise ZeroDivisionError else Ok (a / b)%Q.

(** [max(a, b, c)]: the first of the greatest. *)
Definition max3 (a b c : Q) : Q :=
  let m := a in
  let m := if gt b m then b else m in
  if gt c m then c else m.

(** The six running extrema of [writeBoundingSphere]. *)
Record Extrema : Type := mkExtrema {
  maxX : Q; maxY : Q; maxZ : Q;
  minX : Q; minY : Q; minZ : Q
}.

Definition Extrema_init : Extrema :=
  mkExtrema (-999999999) (-999999999) (-999999999) 999999999 999999999 999999999.

(** [for v in vertices: ...] of [writeBoundingSphere] *)
Fixpoint extremaLoop (vs : list UvVertex) (e : Extrema) : Extrema :=
  match vs with
  | [] => e
  | v :: vs' =>
      let co := co v in
      let maxX := if gt (x3 co) (maxX e) then x3 co else maxX e in
      let minX := if lt (x3 co) (minX e) then x3 co else minX e in
      let maxY := if gt (y3 co) (maxY e) then y3 co else maxY e in
      let minY := if lt (y3 co) (minY e) then y3 co else minY e in
      let maxZ := if gt (z3 co) (maxZ e) then z3 co else maxZ e in
      let minZ := if lt (z3 co) (minZ e) then z3 co else minZ e in
      extremaLoop vs' (mkExtrema maxX maxY maxZ minX minY minZ)
  end.

Definition sphereCenter (e : Extrema) : Vec3 :=
  (minX e + (maxX e - minX e) / 2,
   minY e + (maxY e - minY e) / 2,
   minZ e + (maxZ e - minZ e) / 2)%Q.

Definition sphereRadius (e : Extrema) : Q :=
  (max3 ((maxX e - minX e) / 2) ((maxY e - minY e) / 2) ((maxZ e - minZ e) / 2) * 2)%Q.

(** [NodeWriter.writeBoundingSphere] *)
Definition writeBoundingSphere (vertices : list UvVertex) (st : State) : Result State :=
  let e := extremaLoop vertices Extrema_init in
  let* st := writeVector3 (sphereCenter e) st in
  writeFloat (VFloat (sphereRadius e)) st.

(** [NodeWriter.writeNodeClass] *)
Definition writeNodeClass (nodeClass : string) (st : State) : Result State :=
  match dict_get String.eqb NodeClass nodeClass with
  | Some tag => writeUInt (VInt tag) st
  | None => Raise (KeyError nodeClass)
  end.

(** The [nodeData] dictionary of [writeBaseNode] and [writeMeshNode]. *)
Record NodeData : Type := mkNodeData {
  nd_name : string;
  nd_childCount : nat;
  nd_active : bool;
  nd_transform : Matrix
}.

(** [NodeWriter.writeBaseNodeData] *)
Definition writeBaseNodeData (nodeData : NodeData) (st : State) : Result State :=
  let* st := writeNodeClass "Node" st in
  let* st := writeString (nd_name nodeData) st in
  let* st := writeUInt (VInt (Z.of_nat (nd_childCount nodeData))) st in
  let* st := writeBool (VBool (nd_active nodeData)) st in
  writeMatrix (nd_transform nodeData) st.

(** [NodeWriter.writeMesh] *)
Definition writeMesh (object : Object) (mesh : Mesh) (nodeProperties : NodeProperties)
    (st : State) : Result State :=
  let* st := writeNodeClass "Mesh" st in
  let* st := writeString (name object) st in
  let* st := writeUInt (VInt 0) st in
  let* st := writeBool (VBool true) st in
  let* st := writeBool (castShadows nodeProperties) st in
  let* st := writeBool (visible nodeProperties) st in
  let* st := writeBool (transparent nodeProperties) st in
  if 2 ^ 16 <? length (vertices mesh) then Raise (TooManyVertices (name object))
  else
    let* st := writeUInt (len (vertices mesh)) st in
    let* st := for_each (fun v st =>
                 let* st := writeVector3 (co v) st in
                 let* st := writeVector3 (normal v) st in
                 let* st := writeVector2 (uv v) st in
                 writeVector3 (tangent v) st) (vertices mesh) st in
    let* st := writeUInt (len (indices mesh)) st in
    let* st := for_each (fun i st => writeUShort (VInt (Z.of_nat i)) st)
                 (indices mesh) st in
    let* st :=
      if is_None (materialId mesh) then
        let* st := warn (NoMaterialToMesh (name object)) st in
        writeUInt (VInt 0) st
      else writeUInt (materialId mesh) st in
    let* st := writeUInt (layer nodeProperties) st in
    let* st := writeFloat (lodIn nodeProperties) st in
    let* st := writeFloat (lodOut nodeProperties) st in
    let* st := writeBoundingSphere (vertices mesh) st in
    writeBool (renderable nodeProperties) st.

(** [NodeWriter.calculateUvs] *)
Definition calculateUvs (object : Object) (mesh : BlenderMesh) (materialId : nat)
    (co : Vec3) : Result Vec2 :=
  let size := dimensions (data object) in
  let* x := div (x3 co) (x3 size) in
  let* y := div (y3 co) (y3 size) in
  let* mat := getitem (materials mesh) materialId in
  match mat with
  | None => Raise AttributeError
  | Some mat =>
      match getActiveMaterialTextureSlot mat with
      | Some textureSlot =>
          let x := (x * x3 (scale textureSlot))%Q in
          let y := (y * y3 (scale textureSlot))%Q in
          let x := (x + x3 (offset textureSlot))%Q in
          let y := (y + y3 (offset textureSlot))%Q in
          Ok (x, y)
      | None => Ok (x, y)
      end
  end.

(** ** The node writer *)

Section NodeWriter.

(** Library code the exporter calls: [mathutils] for the decomposition of
    a transform ([kn5Helper.convertMatrix]) and its inverse, [re] for
    regular expressions, and the order in which CPython iterates over the
    set built from a list of integers. *)
Variable convertMatrix : Matrix -> Matrix.
Variable inverted : Matrix -> Matrix.
Variable re_compile : string -> bool -> Regex.
Variable re_escape : string -> string.
Variable set_iter : list nat -> list nat.

(** [NodeSettings.escapeMatchKey] *)
Definition escapeMatchKey (key : string) : string :=
  let wildcardReplacement := "__WILDCARD__"%string in
  let key := replace key "*" wildcardReplacement in
  let key := re_escape key in
  let key := replace key wildcardReplacement ".*" in
  key.

(** [NodeSettings.convertToMatchesList] *)
Definition convertToMatchesList (key : string) : list Regex :=
  map (fun subkey =>
         re_compile (String.append "^" (String.append (escapeMatchKey subkey) "$")) true)
      (split "|"%char key).

(** [NodeSettings.__init__] *)
Definition NodeSettings_init (settings : Settings) (nodeSettingsKey : string)
    : NodeSettings :=
  mkNodeSettings settings nodeSettingsKey (convertToMatchesList nodeSettingsKey).

(** [NodeWriter.initNodeSettings]: one rule per key of [settings["nodes"]],
    in the order of the keys. *)
Definition initNodeSettings (settings : Settings) : list NodeSettings :=
  match nodes settings with
  | Some ns => map (fun '(nodeKey, _) => NodeSettings_init settings nodeKey) ns
  | None => []
  end.

(** [NodeWriter.initAcObjects] *)
Definition initAcObjects : list Regex :=
  map (fun o => re_compile (String.append "^" (String.append o "$")) false) AcObjects.

(** The attributes of the writer that the methods read: the objects of
    the file ([context.blend_data.objects]), the settings and the
    [materialPositions] dictionary of the materials writer. *)
Record NodeWriter : Type := mkNodeWriter {
  objects : list Object;
  settings : Settings;
  materialPositions : gmap string Value
}.

Definition nodeSettings (self : NodeWriter) : list NodeSettings :=
  initNodeSettings (settings self).

Definition acObjects (self : NodeWriter) : list Regex := initAcObjects.

Variable self : NodeWriter.

(** [NodeWriter.isAcObject] *)
Definition isAcObject (name : string) : bool :=
  existsb (fun regex => regex name) (acObjects self).

(** [NodeWriter.anyChildIsMesh] *)
Fixpoint anyChildIsMesh (object : Object) : bool :=
  let '(mkObject _ children) := object in
  (fix loop (children : list Object) : bool :=
     match children with
     | [] => false
     | child :: children' =>
         if String.eqb (ob_type (data child)) "MESH" || anyChildIsMesh child
         then true
         else loop children'
     end) children.

(** The vertex a face contributes at position [vertexIndexForFace]. *)
Definition faceVertex (object : Object) (meshCopy : BlenderMesh) (materialIndex : nat)
    (face : TessFace) (vertexIndexForFace vIndex : nat) : Result UvVertex :=
  let uvLayer := tessface_uv_active meshCopy in
  let matrix := matrix_world (data object) in
  let* v := getitem (mesh_vertices meshCopy) vIndex in
  let localPosition := Matrix_mul_vec matrix (mv_co v) in
  let convertedPosition := convertVector3 localPosition in
  let convertedNormal := convertVector3 (mv_normal v) in
  let* uv :=
    match uvLayer with
    | Some layer_data =>
        let* face_uv := getitem layer_data (face_index face) in
        let* uv := getitem face_uv vertexIndexForFace in
        Ok (uv.1, - uv.2)%Q
    | None => calculateUvs object meshCopy materialIndex localPosition
    end in
  let tangent : Vec3 := (1, 0, 0)%Q in
  Ok (mkUvVertex convertedPosition convertedNormal uv tangent).

(** [for vIndex in face.vertices: ...] *)
Fixpoint vertexLoop (object : Object) (meshCopy : BlenderMesh) (materialIndex : nat)
    (face : TessFace) (vIndices : list nat) (vertexIndexForFace : nat)
    (vertices : list (UvVertex * nat)) (faceIndices : list nat)
    : Result (list (UvVertex * nat) * list nat) :=
  match vIndices with
  | [] => Ok (vertices, faceIndices)
  | vIndex :: vIndices' =>
      let* vertex :=
        faceVertex object meshCopy materialIndex face vertexIndexForFace vIndex in
      let vertices :=
        if negb (dict_in UvVertex_eq vertices vertex) then
          let newIndex := length vertices in
          dict_set UvVertex_eq vertices vertex newIndex
        else vertices in
      match dict_get UvVertex_eq vertices vertex with
      | Some i =>
          vertexLoop object meshCopy materialIndex face vIndices'
            (vertexIndexForFace + 1) vertices (faceIndices ++ [i])
      | None => Raise (KeyError "vertex")
      end
  end.

(** The body of [for face in meshCopy.tessfaces: ...] for a face of the
    material. *)
Definition faceBody (object : Object) (meshCopy : BlenderMesh) (materialIndex : nat)
    (face : TessFace) (vertices : list (UvVertex * nat)) (indices : list nat)
    : Result (list (UvVertex * nat) * list nat) :=
  let* (vertices, faceIndices) :=
    vertexLoop object meshCopy materialIndex face (face_vertices face) 0 vertices [] in
  let* i1 := getitem faceIndices 1 in
  let* i2 := getitem faceIndices 2 in
  let* i0 := getitem faceIndices 0 in
  let indices := indices ++ [i1; i2; i0] in
  if length faceIndices =? 4 then
    let* i2 := getitem faceIndices 2 in
    let* i3 := getitem faceIndices 3 in
    let* i0 := getitem faceIndices 0 in
    Ok (vertices, indices ++ [i2; i3; i0])
  else Ok (vertices, indices).

(** [for face in meshCopy.tessfaces: ...] *)
Fixpoint tessfaceLoop (object : Object) (meshCopy : BlenderMesh) (materialIndex : nat)
    (faces : list TessFace) (vertices : list (UvVertex * nat)) (indices : list nat)
    : Result (list (UvVertex * nat) * list nat) :=
  match faces with
  | [] => Ok (vertices, indices)
  | face :: faces' =>
      if negb (materialIndex =? material_index face)
      then tessfaceLoop object meshCopy materialIndex faces' vertices indices
      else
        let* (vertices, indices) :=
          faceBody object meshCopy materialIndex face vertices indices in
        tessfaceLoop object meshCopy materialIndex faces' vertices indices
  end.

(** The body of [for materialIndex in usedMaterials: ...]: the partition
    of one material. *)
Definition materialBody (object : Object) (meshCopy : BlenderMesh) (materialIndex : nat)
    : Result Mesh :=
  let* slot := getitem (materials meshCopy) materialIndex in
  match slot with
  | None => Raise (EmptyMaterialSlot materialIndex (name object))
  | Some material =>
      let materialName := mat_name material in
      if startswith materialName "__"
      then Raise (IgnoredMaterialUsed materialName (name object))
      else
        let* (vertices, indices) :=
          tessfaceLoop object meshCopy materialIndex (tessfaces meshCopy) [] [] in
        let vertices := map fst (sorted snd (items vertices)) in
        let* materialId :=
          match materialPositions self !! materialName with
          | Some id => Ok id
          | None => Raise (KeyError materialName)
          end in
        Ok (mkMesh materialId vertices indices)
  end.

(** [NodeWriter.splitObjectByMaterials].  The mesh copy is removed from
    the file on every path ([finally]); it is not part of the state. *)
Definition splitObjectByMaterials (object : Object) : Result (list Mesh) :=
  let meshCopy := to_mesh (data object) in
  if length (materials meshCopy) =? 0
  then Raise (NoMaterialAssigned (name object))
  else
    let usedMaterials := set_iter (map material_index (tessfaces meshCopy)) in
    comprehension (materialBody object meshCopy) usedMaterials.

(** [NodeWriter.writeBaseNode]; [object] is [None] for the root node. *)
Definition writeBaseNode (object : option Object) (nodeName : string) (st : State)
    : Result State :=
  let* (matrix, childCount, st) :=
    match object with
    | None =>
        Ok (Matrix_identity,
            length (filter (fun o => parent (data o) = None
                                     /\ startswith (name o) "__" = false)
                      (objects self)),
            st)
    | Some object =>
        let* st :=
          if negb (isAcObject (name object)) && negb (anyChildIsMesh object)
          then warn (UnknownLogicalObject (name object)) st
          else Ok st in
        Ok (convertMatrix (matrix_local (data object)),
            length (filter (fun o => startswith (name o) "__" = false) (children object)),
            st)
    end in
  writeBaseNodeData (mkNodeData nodeName childCount true matrix) st.

(** [NodeWriter.writeMeshNode] *)
Definition writeMeshNode (object : Object) (st : State) : Result State :=
  let* dividedMeshes := splitObjectByMaterials object in
  let* dividedMeshes := splitMeshesForVertexLimit dividedMeshes in
  let* st :=
    if bool_decide (parent (data object) <> None) || (1 <? length dividedMeshes) then
      let transformMatrix :=
        match parent (data object) with
        | Some parent_matrix_world => convertMatrix (inverted parent_matrix_world)
        | None => Matrix_identity
        end in
      writeBaseNodeData
        (mkNodeData (name object) (length dividedMeshes) true transformMatrix) st
    else Ok st in
  let nodeProperties := NodeProperties_init object in
  let* nodeProperties := nodeSettingsLoop (nodeSettings self) nodeProperties in
  for_each (fun mesh => writeMesh object mesh nodeProperties) dividedMeshes st.

(** [NodeWriter.writeObject] *)
Fixpoint writeObject (object : Object) (st : State) : Result State :=
  let '(mkObject _ children) := object in
  if negb (startswith (name object) "__") then
    let* st :=
      if String.eqb (ob_type (data object)) "MESH" then
        if negb (length children =? 0)
        then Raise (MeshHasChildren (name object))
        else writeMeshNode object st
      else writeBaseNode (Some object) (name object) st in
    (fix loop (children : list Object) (st : State) : Result State :=
       match children with
       | [] => Ok st
       | child :: children' =>
           let* st := writeObject child st in
           loop children' st
       end) children st
  else Ok st.

(** [NodeWriter.write] *)
Definition write (st : State) : Result State :=
  let* st := writeBaseNode None "BlenderFile" st in
  for_each (fun o st => if bool_decide (parent (data o) = None)
                        then writeObject o st else Ok st)
    (sorted (fun k => length (children k)) (objects self)) st.

End NodeWriter.

(** ** Notions used to state the properties *)

Section FirstSeen.
Context {A : Type} (eqb : A -> A -> bool).

(** Is [x] equal to an element of [l]? *)
Definition seen (l : list A) (x : A) : bool := existsb (fun y => eqb y x) l.

(** The distinct elements of [l] in the order of their first occurrence,
    after those already in [acc]. *)
Fixpoint firstSeenFrom (acc l : list A) : list A :=
  match l with
  | [] => acc
  | x :: l' => firstSeenFrom (if seen acc x then acc else acc ++ [x]) l'
  end.

Definition firstSeen (l : list A) : list A := firstSeenFrom [] l.

(** The position of the first element of [l] equal to [x]; the length of
    [l] when there is none. *)
Fixpoint indexOf (l : list A) (x : A) : nat :=
  match l with
  | [] => 0
  | y :: l' => if eqb y x then 0 else S (indexOf l' x)
  end.
End FirstSeen.

(** The chunk that the indices [seg] of [mesh] make on their own: its
    vertices are the ones [seg] refers to, in the order in which [seg]
    first refers to them, and its indices are positions in that order. *)
Definition isChunkOf (mesh : Mesh) (seg : list nat) (chunk : Mesh) : Prop :=
  materialId chunk = materialId mesh
  /\ map Some (vertices chunk) = map (fun i => vertices mesh !! i) (firstSeen Nat.eqb seg)
  /\ indices chunk = map (indexOf Nat.eqb (firstSeen Nat.eqb seg)) seg.

(** How the splitter cuts an index list into the segments of its chunks:
    a segment is closed by the first triangle with which the number of
    distinct indices reaches [limit - 3], and only the last segment may end
    for want of indices. *)
Definition closesChunk (limit : nat) (seg : list nat) : Prop :=
  limit - 3 <= length (firstSeen Nat.eqb seg).

Definition openBefore (limit : nat) (seg : list nat) : Prop :=
  forall k, 3 * k < length seg ->
    length (firstSeen Nat.eqb (take (3 * k) seg)) < limit - 3.

Inductive cutting (limit : nat) : list (list nat) -> Prop :=
  | cutting_nil : cutting limit []
  | cutting_cons (seg : list nat) (segs : list (list nat)) :
      seg <> [] ->
      openBefore limit seg ->
      (segs <> [] -> length seg mod 3 = 0 /\ closesChunk limit seg) ->
      cutting limit segs ->
      cutting limit (seg :: segs).

(** The vertices that the indices of a mesh refer to, one per index. *)
Definition triangleVertices (mesh : Mesh) : list (option UvVertex) :=
  map (fun i => vertices mesh !! i) (indices mesh).

(** The index list of a face given the indices of its vertices: (1,2,0) and
    for a quad also (2,3,0). *)
Definition winding (faceIndices : list nat) : list nat :=
  match faceIndices with
  | a :: b :: c :: more =>
      [b; c; a] ++ match more with [d] => [c; d; a] | _ => [] end
  | _ => []
  end.

(** The vertices that a face contributes, one per face vertex, in the
    order of the face; [occurrencesFrom k] is for the face vertices from
    position [k] on. *)
Fixpoint occurrencesFrom (object : Object) (meshCopy : BlenderMesh) (materialIndex : nat)
    (face : TessFace) (k : nat) (vIndices : list nat) : Result (list UvVertex) :=
  match vIndices with
  | [] => Ok []
  | vIndex :: vIndices' =>
      let* vertex := faceVertex object meshCopy materialIndex face k vIndex in
      let* more := occurrencesFrom object meshCopy materialIndex face (k + 1) vIndices' in
      Ok (vertex :: more)
  end.

Definition faceOccurrences (object : Object) (meshCopy : BlenderMesh) (materialIndex : nat)
    (face : TessFace) : Result (list UvVertex) :=
  occurrencesFrom object meshCopy materialIndex face 0 (face_vertices face).

(** The faces of a material, in the order of the mesh. *)
Definition facesOf (meshCopy : BlenderMesh) (materialIndex : nat) : list TessFace :=
  List.filter (fun face => materialIndex =? material_index face) (tessfaces meshCopy).

(** Numeric equality of all components of two vertices. *)
Definition UvVertex_equiv (v w : UvVertex) : Prop :=
  (x3 (co v) == x3 (co w) /\ y3 (co v) == y3 (co w) /\ z3 (co v) == z3 (co w)
   /\ x3 (normal v) == x3 (normal w) /\ y3 (normal v) == y3 (normal w)
   /\ z3 (normal v) == z3 (normal w)
   /\ (uv v).1 == (uv w).1 /\ (uv v).2 == (uv w).2
   /\ x3 (tangent v) == x3 (tangent w) /\ y3 (tangent v) == y3 (tangent w)
   /\ z3 (tangent v) == z3 (tangent w))%Q.

(** The number of objects below an object, at any depth. *)
Fixpoint descendantCount (object : Object) : nat :=
  let '(mkObject _ children) := object in
  (fix loop (children : list Object) : nat :=
     match children with
     | [] => 0
     | child :: children' => S (descendantCount child) + loop children'
     end) children.

(** The attributes that a node setting can override, with the key of each
    in the settings file. *)
Inductive Field : Type :=
  | FLodIn | FLodOut | FLayer | FCastShadows | FVisible | FTransparent | FRenderable.

Global Instance Field_eq_dec : EqDecision Field.
Proof. solve_decision. Defined.

Definition field_key (f : Field) : string :=
  match f with
  | FLodIn => "lodIn"
  | FLodOut => "lodOut"
  | FLayer => "layer"
  | FCastShadows => "castShadows"
  | FVisible => "isVisible"
  | FTransparent => "isTransparent"
  | FRenderable => "isRenderable"
  end.

Definition get_field (f : Field) (node : NodeProperties) : Value :=
  match f with
  | FLodIn => lodIn node
  | FLodOut => lodOut node
  | FLayer => layer node
  | FCastShadows => castShadows node
  | FVisible => visible node
  | FTransparent => transparent node
  | FRenderable => renderable node
  end.

(** The value that the configuration of a rule supplies for a field:
    [VNone] when it has no such key (or the key is null). *)
Definition supplied (rule : NodeSettings) (f : Field) : Value :=
  match nodes (ns_settings rule) with
  | Some ns =>
      match dict_get String.eqb ns (nodeSettingsKey rule) with
      | Some config => default VNone (config !! field_key f)
      | None => VNone
      end
  | None => VNone
  end.

(** Does the rule match the node name and define the field? *)
Definition defines (nodeName : string) (f : Field) (rule : NodeSettings) : bool :=
  doesNodeNameMatch rule nodeName && negb (is_None (supplied rule f)).

(** The least and the greatest coordinate of a non-empty vertex list along
    an axis. *)
Definition axisMin (axis : Vec3 -> Q) (vs : list UvVertex) : Q :=
  match vs with
  | [] => 0
  | v :: vs' => fold_left (fun m w => Qmin m (axis (co w))) vs' (axis (co v))
  end.

Definition axisMax (axis : Vec3 -> Q) (vs : list UvVertex) : Q :=
  match vs with
  | [] => 0
  | v :: vs' => fold_left (fun m w => Qmax m (axis (co w))) vs' (axis (co v))
  end.

Definition midpoint (a b : Q) : Q := ((a + b) / 2)%Q.
Definition halfExtent (a b : Q) : Q := ((b - a) / 2)%Q.

(** The record of a mesh node in the file, field by field. *)
Definition MeshNode_record (object : Object) (mesh : Mesh) (nodeProperties : NodeProperties)
    : list Token :=
  [TUInt (VInt 2); TString (name object); TUInt (VInt 0); TBool (VBool true);
   TBool (castShadows nodeProperties); TBool (visible nodeProperties);
   TBool (transparent nodeProperties); TUInt (len (vertices mesh))]
  ++ flat_map (fun v => [TVector3 (co v); TVector3 (normal v); TVector2 (uv v);
                         TVector3 (tangent v)]) (vertices mesh)
  ++ [TUInt (len (indices mesh))]
  ++ map (fun i => TUShort (VInt (Z.of_nat i))) (indices mesh)
  ++ [TUInt (if is_None (materialId mesh) then VInt 0 else materialId mesh);
      TUInt (layer nodeProperties); TFloat (lodIn nodeProperties);
      TFloat (lodOut nodeProperties);
      TVector3 (sphereCenter (extremaLoop (vertices mesh) Extrema_init));
      TFloat (VFloat (sphereRadius (extremaLoop (vertices mesh) Extrema_init)));
      TBool (renderable nodeProperties)].

(** Component-wise numeric equality of vectors. *)
Definition Vec3_eq (v w : Vec3) : Prop :=
  (x3 v == x3 w /\ y3 v == y3 w /\ z3 v == z3 w)%Q.

(** ** Closed scenes for the examples *)

Module Examples.

(** Stand-ins for the library code in closed examples: transforms are
    left as they are, a pattern matches the one name it spells out
    between [^] and [$], and a set of slot numbers is iterated in
    ascending order. *)
Definition convertMatrix (m : Matrix) : Matrix := m.
Definition inverted (m : Matrix) : Matrix := m.
Definition re_compile (pattern : string) (ignorecase : bool) : Regex :=
  fun s => String.eqb pattern (String.append "^" (String.append s "$")).
Definition re_escape (s : string) : string := s.
Definition set_iter (l : list nat) : list nat := sorted id (remove_dups l).

Definition translation (x y z : Q) : Matrix :=
  mkMatrix (1, 0, 0, x)%Q (0, 1, 0, y)%Q (0, 0, 1, z)%Q (0, 0, 0, 1)%Q.

Definition ac : AcProperties :=
  mkAcProperties (VFloat 0) (VFloat 0) (VInt 0) (VBool true) (VBool true)
    (VBool false) (VBool true).

Definition no_mesh : BlenderMesh := mkBlenderMesh [] [] [] None.

Definition empty (name : string) (parent : option Matrix) (children : list Object)
    : Object :=
  mkObject (mkObjectData name "EMPTY" parent Matrix_identity Matrix_identity
              (0, 0, 0)%Q ac no_mesh) children.

(** A square of side 2 in the plane z = 0, made of one quad and one
    triangle over the same corners, without uv layer, moved by 3 along
    x. *)
Definition paint : Material := mkMaterial "Paint" None.

Definition square_mesh : BlenderMesh :=
  mkBlenderMesh
    [mkMeshVertex (0, 0, 0)%Q (0, 0, 1)%Q; mkMeshVertex (2, 0, 0)%Q (0, 0, 1)%Q;
     mkMeshVertex (2, 2, 0)%Q (0, 0, 1)%Q; mkMeshVertex (0, 2, 0)%Q (0, 0, 1)%Q]
    [mkTessFace 0 [0; 1; 2; 3] 0; mkTessFace 1 [0; 2; 3] 0]
    [Some paint]
    None.

Definition square : Object :=
  mkObject (mkObjectData "Square" "MESH" None (translation 3 0 0) (translation 3 0 0)
              (2, 2, 0)%Q ac square_mesh) [].

Definition with_paint : NodeWriter :=
  mkNodeWriter [square] (mkSettings None) {[ "Paint"%string := VInt 0 ]}.

(** The same file when the materials writer has no position for
    ["Paint"]. *)
Definition without_paint : NodeWriter :=
  mkNodeWriter [square] (mkSettings None) ∅.

(** A hidden mesh with a child. *)
Definition hidden : Object :=
  mkObject (mkObjectData "__collider" "MESH" None Matrix_identity Matrix_identity
              (2, 2, 0)%Q ac square_mesh)
    [empty "hook" (Some Matrix_identity) []].

(** Two top-level objects: [A] has one child and two grandchildren, [B]
    has two children. *)
Definition A1a : Object := empty "A1a" (Some Matrix_identity) [].
Definition A1b : Object := empty "A1b" (Some Matrix_identity) [].
Definition A1 : Object := empty "A1" (Some Matrix_identity) [A1a; A1b].
Definition A : Object := empty "A" None [A1].
Definition B1 : Object := empty "B1" (Some Matrix_identity) [].
Definition B2 : Object := empty "B2" (Some Matrix_identity) [].
Definition B : Object := empty "B" None [B1; B2].

Definition family : NodeWriter :=
  mkNodeWriter [B; A; A1; A1a; A1b; B1; B2] (mkSettings None) ∅.

(** The names written to a file, in order. *)
Definition names (file : list Token) : list string :=
  flat_map (fun t => match t with TString s => [s] | _ => [] end) file.

Definition start : State := mkState [] [].

(** One vertex far out on the x axis. *)
Definition far_vertex : UvVertex :=
  mkUvVertex (2000000000, 0, 0)%Q (0, 0, 1)%Q (0, 0)%Q (1, 0, 0)%Q.

(** The corners of the unit cube centred at the origin. *)
Definition corner (x y z : Q) : UvVertex :=
  mkUvVertex (x, y, z) (0, 0, 1)%Q (0, 0)%Q (1, 0, 0)%Q.

Definition unit_cube : list UvVertex :=
  [corner (-1#2) (-1#2) (-1#2); corner (1#2) (-1#2) (-1#2);
   corner (-1#2) (1#2) (-1#2);  corner (1#2) (1#2) (-1#2);
   corner (-1#2) (-1#2) (1#2);  corner (1#2) (-1#2) (1#2);
   corner (-1#2) (1#2) (1#2);   corner (1#2) (1#2) (1#2)].

(** A mesh of one vertex more than the limit, whose six indices refer to
four of its vertices, and a mesh within the limit. *)
Definition big_mesh : Mesh :=
  mkMesh (VInt 7) (repeat far_vertex (S (2 ^ 16))) [0; 1; 2; 2; 1; 2 ^ 16].

Definition small_mesh : Mesh := mkMesh (VInt 8) [far_vertex] [0; 0; 0].

Definition big_mesh_chunk : Mesh :=
  mkMesh (VInt 7) [far_vertex; far_vertex; far_vertex; far_vertex] [0; 1; 2; 2; 1; 3].

(** The partition of the square: four vertices, the quad and the
triangle. *)
Definition square_vertex (x z u v : Q) : UvVertex :=
  mkUvVertex (x, 0, z)%Q (0, 1, 0)%Q (u, v) (1, 0, 0)%Q.

Definition square_partition : Mesh :=
  mkMesh (VInt 0)
    [square_vertex 3 0 (3 # 2) (0 # 2); square_vertex 5 0 (5 # 2) (0 # 2);
     square_vertex 5 (-2) (5 # 2) (2 # 2); square_vertex 3 (-2) (3 # 2) (2 # 2)]
    [1; 2; 0; 2; 3; 0; 2; 3; 0].

Definition square_quad : TessFace := mkTessFace 0 [0; 1; 2; 3] 0.

(** Two rules for the left front wheel: the first gives a level-of-detail
distance and a layer, the second another distance. *)
Definition wheel_settings : Settings :=
  mkSettings (Some
    [("Wheel_LF"%string,
      {[ "lodIn"%string := VFloat 5; "layer"%string := VInt 1 ]} : gmap string Value);
     ("Wheel_LF|Wheel_RF"%string,
      {[ "lodIn"%string := VFloat 10; "isVisible"%string := VNone ]} : gmap string Value)]).

Definition wheel : Object :=
  mkObject (mkObjectData "Wheel_LF" "MESH" None Matrix_identity Matrix_identity
              (2, 2, 0)%Q ac square_mesh) [].

Definition with_wheel : NodeWriter :=
  mkNodeWriter [wheel] wheel_settings {[ "Paint"%string := VInt 0 ]}.

End Examples.

(** ** Notions used to state further properties *)

(** The objects below an object, in the order of the traversal. *)
Fixpoint descendants (object : Object) : list Object :=
  let '(mkObject _ children) := object in
  (fix loop (children : list Object) : list Object :=
     match children with
     | [] => []
     | child :: children' => (child :: descendants child) ++ loop children'
     end) children.

(** An object and the objects below it. *)
Definition subobjects (object : Object) : list Object := object :: descendants object.

Definition isMesh (object : Object) : bool := String.eqb (ob_type (data object)) "MESH".

Definition isHidden (object : Object) : bool := startswith (name object) "__".

Definition hasParent (object : Object) : bool :=
  match parent (data object) with Some _ => true | None => false end.

(** The objects that the traversal reaches from an object: the object and,
    below it, the objects reached from its children, unless its name has
    the reserved prefix. *)
Fixpoint written (object : Object) : list Object :=
  let '(mkObject _ children) := object in
  if isHidden object then []
  else
    object
    :: (fix loop (children : list Object) : list Object :=
          match children with
          | [] => []
          | child :: children' => written child ++ loop children'
          end) children.

(** The record of a node without geometry in the file, field by field. *)
Definition BaseNode_record (nodeData : NodeData) : list Token :=
  [TUInt (VInt 1); TString (nd_name nodeData);
   TUInt (VInt (Z.of_nat (nd_childCount nodeData)));
   TBool (VBool (nd_active nodeData)); TMatrix (nd_transform nodeData)].

(** A sequence of fields is a forest of [n] node trees when it consists of
    [n] trees one after the other, a tree being the record of a mesh or
    the record of a node followed by as many trees as its child count
    says. *)
Inductive forest : nat -> list Token -> Prop :=
  | forest_nil : forest 0 []
  | forest_node (nodeData : NodeData) (below after : list Token) (n : nat) :
      forest (nd_childCount nodeData) below ->
      forest n after ->
      forest (S n) (BaseNode_record nodeData ++ below ++ after)
  | forest_mesh (object : Object) (mesh : Mesh) (nodeProperties : NodeProperties)
      (after : list Token) (n : nat) :
      forest n after ->
      forest (S n) (MeshNode_record object mesh nodeProperties ++ after).

(** The exceptions that the export of a file is written to raise: all but
    the vertex limit of [writeMesh] and an attribute error, and a
    [KeyError] only for a name that [materialPositions] does not have. *)
Definition expected (self : NodeWriter) (e : PyExc) : Prop :=
  match e with
  | TooManyVertices _ => False
  | AttributeError => False
  | KeyError key => materialPositions self !! key = None
  | _ => True
  end.

(** The exceptions of the geometry: an index out of range and a division
    by zero. *)
Definition geometric (e : PyExc) : Prop := e = IndexError \/ e = ZeroDivisionError.

(** The outcome of a computation is a result or an exception of [allowed]. *)
Definition raisesOnly {A} (allowed : PyExc -> Prop) (r : Result A) : Prop :=
  match r with
  | Ok _ => True
  | Raise e => allowed e
  | OutOfFuel => False
  end.

(** [" ".join(l)] for a separator of one character. *)
Fixpoint join (sep : Ascii.ascii) (l : list string) : string :=
  match l with
  | [] => EmptyString
  | [s] => s
  | s :: l' => String.append s (String sep (join sep l'))
  end.

(** The scalar product of two vectors. *)
Definition dot (v w : Vec3) : Q := (x3 v * x3 w + y3 v * y3 w + z3 v * z3 w)%Q.

(** ** A scene for the further properties *)

Module Scenes.

(** A mesh object with a material slot and no geometry. *)
Definition ghost : Object :=
  mkObject (mkObjectData "Ghost" "MESH" None Matrix_identity Matrix_identity
              (0, 0, 0)%Q Examples.ac (mkBlenderMesh [] [] [Some Examples.paint] None))
    [].

(** A garage that holds a car and a hidden collider, a marker with nothing
    below it, the finish line and the square. *)
Definition car : Object :=
  mkObject (mkObjectData "Car" "MESH" (Some Matrix_identity) Matrix_identity
              Matrix_identity (2, 2, 0)%Q Examples.ac Examples.square_mesh) [].

Definition collider : Object :=
  mkObject (mkObjectData "__collider" "MESH" (Some Matrix_identity) Matrix_identity
              Matrix_identity (2, 2, 0)%Q Examples.ac Examples.square_mesh) [].

Definition garage : Object := Examples.empty "Garage" None [car; collider].

Definition marker : Object := Examples.empty "Marker" None [].

Definition finish : Object := Examples.empty "AC_OPEN_FINISH_R" None [].

Definition track : NodeWriter :=
  mkNodeWriter [garage; car; collider; marker; finish; Examples.square]
    (mkSettings None) {[ "Paint"%string := VInt 0 ]}.

(** The track with the ghost on it. *)
Definition haunted : NodeWriter :=
  mkNodeWriter [garage; car; collider; marker; finish; Examples.square; ghost]
    (mkSettings None) {[ "Paint"%string := VInt 0 ]}.

End Scenes.

(** ** The partitioner over floats with NaN

    Taking floats as rationals hides one value that a float can have:
    NaN, which Python's [!=] tells apart from every float, itself
    included.  The dictionary of [splitObjectByMaterials] compares
    vertices with [UvVertex.__eq__], so what it merges depends on NaN.
    The module embeds the partitioner with its data a second time, over
    floats that are a number or NaN; arithmetic on numbers stays exact. *)

Section Numbering.
Context {A : Type} (eqb : A -> A -> bool).

(** The number each element of [l] gets in turn when the entries so far
    are [acc]: the position of the first entry equal to it, the next free
    position when there is none. *)
Fixpoint numberingFrom (acc l : list A) : list nat :=
  match l with
  | [] => []
  | x :: l' =>
      indexOf eqb acc x :: numberingFrom (if seen eqb acc x then acc else acc ++ [x]) l'
  end.
End Numbering.

Module Floats.

Inductive float : Type :=
  | Num (q : Q)
  | NaN.

(** Python's [!=] on two floats: NaN differs from everything. *)
Definition ne (a b : float) : bool :=
  match a, b with
  | Num p, Num q => negb (Qeq_bool p q)
  | _, _ => true
  end.

(** [-a], [a + b] and [a * b]: NaN if an operand is NaN. *)
Definition neg (a : float) : float :=
  match a with Num p => Num (- p) | NaN => NaN end.

Definition add (a b : float) : float :=
  match a, b with Num p, Num q => Num (p + q) | _, _ => NaN end.

Definition mul (a b : float) : float :=
  match a, b with Num p, Num q => Num (p * q) | _, _ => NaN end.

(** [a / b]: a zero divisor raises whatever [a] is, a NaN divisor gives
    NaN. *)
Definition div (a b : float) : Result float :=
  match b with
  | Num q =>
      if Qeq_bool q 0 then Raise ZeroDivisionError
      else Ok (match a with Num p => Num (p / q) | NaN => NaN end)
  | NaN => Ok NaN
  end.

Definition Vec2 : Type := float * float.
Definition Vec3 : Type := float * float * float.

Definition x3 (v : Vec3) : float := v.1.1.
Definition y3 (v : Vec3) : float := v.1.2.
Definition z3 (v : Vec3) : float := v.2.

Record UvVertex : Type := mkUvVertex {
  co : Vec3;
  normal : Vec3;
  uv : Vec2;
  tangent : Vec3
}.

(** [UvVertex.__eq__] *)
Definition UvVertex_eq (self other : UvVertex) : bool :=
  if ne (x3 (co self)) (x3 (co other)) || ne (y3 (co self)) (y3 (co other))
     || ne (z3 (co self)) (z3 (co other)) then false
  else if ne (x3 (normal self)) (x3 (normal other))
          || ne (y3 (normal self)) (y3 (normal other))
          || ne (z3 (normal self)) (z3 (normal other)) then false
  else if ne (uv self).1 (uv other).1 || ne (uv self).2 (uv other).2 then false
  else if ne (x3 (tangent self)) (x3 (tangent other))
          || ne (y3 (tangent self)) (y3 (tangent other))
          || ne (z3 (tangent self)) (z3 (tangent other)) then false
  else true.

Record Mesh : Type := mkMesh {
  materialId : Value;
  vertices : list UvVertex;
  indices : list nat
}.

(** A 4x4 [mathutils.Matrix], row by row. *)
Definition Row : Type := float * float * float * float.
Record Matrix : Type := mkMatrix { row0 : Row; row1 : Row; row2 : Row; row3 : Row }.

Definition row_dot (r : Row) (v : Vec3) : float :=
  let '(a, b, c, d) := r in
  add (add (add (mul a (x3 v)) (mul b (y3 v))) (mul c (z3 v))) (mul d (Num 1)).

(** [matrix * v] for a 4x4 matrix and a 3D vector. *)
Definition Matrix_mul_vec (m : Matrix) (v : Vec3) : Vec3 :=
  (row_dot (row0 m) v, row_dot (row1 m) v, row_dot (row2 m) v).

(** [kn5Helper.convertVector3] *)
Definition convertVector3 (v : Vec3) : Vec3 := (x3 v, z3 v, neg (y3 v)).

Record TextureSlot : Type := mkTextureSlot {
  scale : Vec3;
  offset : Vec3
}.

Record Material : Type := mkMaterial {
  mat_name : string;
  mat_texture_slot : option TextureSlot
}.

(** Modelled from the spec, as above: "the active material's texture
    transform if one exists". *)
Definition getActiveMaterialTextureSlot (mat : Material) : option TextureSlot :=
  mat_texture_slot mat.

Record MeshVertex : Type := mkMeshVertex {
  mv_co : Vec3;
  mv_normal : Vec3
}.

Record BlenderMesh : Type := mkBlenderMesh {
  mesh_vertices : list MeshVertex;
  tessfaces : list TessFace;
  materials : list (option Material);
  tessface_uv_active : option (list (list Vec2))
}.

(** What the partitioner reads of an object. *)
Record Object : Type := mkObject {
  name : string;
  matrix_world : Matrix;
  dimensions : Vec3;
  to_mesh : BlenderMesh
}.

(** [NodeWriter.calculateUvs] *)
Definition calculateUvs (object : Object) (mesh : BlenderMesh) (materialId : nat)
    (co : Vec3) : Result Vec2 :=
  let size := dimensions object in
  let* x := div (x3 co) (x3 size) in
  let* y := div (y3 co) (y3 size) in
  let* mat := getitem (materials mesh) materialId in
  match mat with
  | None => Raise AttributeError
  | Some mat =>
      match getActiveMaterialTextureSlot mat with
      | Some textureSlot =>
          let x := mul x (x3 (scale textureSlot)) in
          let y := mul y (y3 (scale textureSlot)) in
          let x := add x (x3 (offset textureSlot)) in
          let y := add y (y3 (offset textureSlot)) in
          Ok (x, y)
      | None => Ok (x, y)
      end
  end.

(** The vertex a face contributes at position [vertexIndexForFace]. *)
Definition faceVertex (object : Object) (meshCopy : BlenderMesh) (materialIndex : nat)
    (face : TessFace) (vertexIndexForFace vIndex : nat) : Result UvVertex :=
  let uvLayer := tessface_uv_active meshCopy in
  let matrix := matrix_world object in
  let* v := getitem (mesh_vertices meshCopy) vIndex in
  let localPosition := Matrix_mul_vec matrix (mv_co v) in
  let convertedPosition := convertVector3 localPosition in
  let convertedNormal := convertVector3 (mv_normal v) in
  let* uv :=
    match uvLayer with
    | Some layer_data =>
        let* face_uv := getitem layer_data (face_index face) in
        let* uv := getitem face_uv vertexIndexForFace in
        Ok (uv.1, neg uv.2)
    | None => calculateUvs object meshCopy materialIndex localPosition
    end in
  let tangent : Vec3 := (Num 1, Num 0, Num 0) in
  Ok (mkUvVertex convertedPosition convertedNormal uv tangent).

(** [for vIndex in face.vertices: ...].  A dictionary finds a key that is
    the very object it is asked for before it tries [__eq__]: the vertex
    just stored is found under its new index even when it is unequal to
    itself, and every stored key is another object than the vertex built
    for the test.  [__hash__] combines the hashes of the components, and
    floats that [!=] does not tell apart have one hash, so a stored key
    that [__eq__] holds of is always found. *)
Fixpoint vertexLoop (object : Object) (meshCopy : BlenderMesh) (materialIndex : nat)
    (face : TessFace) (vIndices : list nat) (vertexIndexForFace : nat)
    (vertices : list (UvVertex * nat)) (faceIndices : list nat)
    : Result (list (UvVertex * nat) * list nat) :=
  match vIndices with
  | [] => Ok (vertices, faceIndices)
  | vIndex :: vIndices' =>
      let* vertex :=
        faceVertex object meshCopy materialIndex face vertexIndexForFace vIndex in
      if negb (dict_in UvVertex_eq vertices vertex) then
        let newIndex := length vertices in
        let vertices := dict_set UvVertex_eq vertices vertex newIndex in
        vertexLoop object meshCopy materialIndex face vIndices'
          (vertexIndexForFace + 1) vertices (faceIndices ++ [newIndex])
      else
        match dict_get UvVertex_eq vertices vertex with
        | Some i =>
            vertexLoop object meshCopy materialIndex face vIndices'
              (vertexIndexForFace + 1) vertices (faceIndices ++ [i])
        | None => Raise (KeyError "vertex")
        end
  end.

(** The body of [for face in meshCopy.tessfaces: ...] for a face of the
    material. *)
Definition faceBody (object : Object) (meshCopy : BlenderMesh) (materialIndex : nat)
    (face : TessFace) (vertices : list (UvVertex * nat)) (indices : list nat)
    : Result (list (UvVertex * nat) * list nat) :=
  let* (vertices, faceIndices) :=
    vertexLoop object meshCopy materialIndex face (face_vertices face) 0 vertices [] in
  let* i1 := getitem faceIndices 1 in
  let* i2 := getitem faceIndices 2 in
  let* i0 := getitem faceIndices 0 in
  let indices := indices ++ [i1; i2; i0] in
  if length faceIndices =? 4 then
    let* i2 := getitem faceIndices 2 in
    let* i3 := getitem faceIndices 3 in
    let* i0 := getitem faceIndices 0 in
    Ok (vertices, indices ++ [i2; i3; i0])
  else Ok (vertices, indices).

(** [for face in meshCopy.tessfaces: ...] *)
Fixpoint tessfaceLoop (object : Object) (meshCopy : BlenderMesh) (materialIndex : nat)
    (faces : list TessFace) (vertices : list (UvVertex * nat)) (indices : list nat)
    : Result (list (UvVertex * nat) * list nat) :=
  match faces with
  | [] => Ok (vertices, indices)
  | face :: faces' =>
      if negb (materialIndex =? material_index face)
      then tessfaceLoop object meshCopy materialIndex faces' vertices indices
      else
        let* (vertices, indices) :=
          faceBody object meshCopy materialIndex face vertices indices in
        tessfaceLoop object meshCopy materialIndex faces' vertices indices
  end.

(** The body of [for materialIndex in usedMaterials: ...]. *)
Definition materialBody (materialPositions : gmap string Value) (object : Object)
    (meshCopy : BlenderMesh) (materialIndex : nat) : Result Mesh :=
  let* slot := getitem (materials meshCopy) materialIndex in
  match slot with
  | None => Raise (EmptyMaterialSlot materialIndex (name object))
  | Some material =>
      let materialName := mat_name material in
      if startswith materialName "__"
      then Raise (IgnoredMaterialUsed materialName (name object))
      else
        let* (vertices, indices) :=
          tessfaceLoop object meshCopy materialIndex (tessfaces meshCopy) [] [] in
        let vertices := map fst (sorted snd (items vertices)) in
        let* materialId :=
          match materialPositions !! materialName with
          | Some id => Ok id
          | None => Raise (KeyError materialName)
          end in
        Ok (mkMesh materialId vertices indices)
  end.

(** [NodeWriter.splitObjectByMaterials]; [set_iter] is the order in which
    the set of the material indices is iterated and [materialPositions]
    the dictionary of the materials writer. *)
Definition splitObjectByMaterials (set_iter : list nat -> list nat)
    (materialPositions : gmap string Value) (object : Object) : Result (list Mesh) :=
  let meshCopy := to_mesh object in
  if length (materials meshCopy) =? 0
  then Raise (NoMaterialAssigned (name object))
  else
    let usedMaterials := set_iter (map material_index (tessfaces meshCopy)) in
    comprehension (materialBody materialPositions object meshCopy) usedMaterials.

(** *** Notions used to state the properties *)

(** The vertices that a face contributes, one per face vertex. *)
Fixpoint occurrencesFrom (object : Object) (meshCopy : BlenderMesh) (materialIndex : nat)
    (face : TessFace) (k : nat) (vIndices : list nat) : Result (list UvVertex) :=
  match vIndices with
  | [] => Ok []
  | vIndex :: vIndices' =>
      let* vertex := faceVertex object meshCopy materialIndex face k vIndex in
      let* more := occurrencesFrom object meshCopy materialIndex face (k + 1) vIndices' in
      Ok (vertex :: more)
  end.

Definition faceOccurrences (object : Object) (meshCopy : BlenderMesh) (materialIndex : nat)
    (face : TessFace) : Result (list UvVertex) :=
  occurrencesFrom object meshCopy materialIndex face 0 (face_vertices face).

(** The faces of a material, in the order of the mesh. *)
Definition facesOf (meshCopy : BlenderMesh) (materialIndex : nat) : list TessFace :=
  List.filter (fun face => materialIndex =? material_index face) (tessfaces meshCopy).

Definition isNaN (a : float) : bool :=
  match a with NaN => true | Num _ => false end.

(** Is one of the eleven components of a vertex NaN? *)
Definition hasNaN (v : UvVertex) : bool :=
  isNaN (x3 (co v)) || isNaN (y3 (co v)) || isNaN (z3 (co v))
  || isNaN (x3 (normal v)) || isNaN (y3 (normal v)) || isNaN (z3 (normal v))
  || isNaN (uv v).1 || isNaN (uv v).2
  || isNaN (x3 (tangent v)) || isNaN (y3 (tangent v)) || isNaN (z3 (tangent v)).

(** *** Inputs for closed examples *)

Definition translation (x y z : Q) : Matrix :=
  mkMatrix (Num 1, Num 0, Num 0, Num x) (Num 0, Num 1, Num 0, Num y)
    (Num 0, Num 0, Num 1, Num z) (Num 0, Num 0, Num 0, Num 1).

Definition up : Vec3 := (Num 0, Num 0, Num 1).

Definition paint : Material := mkMaterial "Paint" None.

Definition flat_uv : list (list Vec2) :=
  [[(Num 0, Num 0); (Num 1, Num 0); (Num 1, Num 1); (Num 0, Num 1)];
   [(Num 0, Num 0); (Num 1, Num 1); (Num 0, Num 1)]].

(** The square of the examples above, with a uv layer: a quad and a
    triangle over the same corners. *)
Definition square_mesh : BlenderMesh :=
  mkBlenderMesh
    [mkMeshVertex (Num 0, Num 0, Num 0) up; mkMeshVertex (Num 2, Num 0, Num 0) up;
     mkMeshVertex (Num 2, Num 2, Num 0) up; mkMeshVertex (Num 0, Num 2, Num 0) up]
    [mkTessFace 0 [0; 1; 2; 3] 0; mkTessFace 1 [0; 2; 3] 0]
    [Some paint]
    (Some flat_uv).

Definition square : Object :=
  mkObject "Square" (translation 3 0 0) (Num 2, Num 2, Num 0) square_mesh.

(** The same square when the height of its first corner is not a number. *)
Definition broken_mesh : BlenderMesh :=
  mkBlenderMesh
    [mkMeshVertex (Num 0, Num 0, NaN) up; mkMeshVertex (Num 2, Num 0, Num 0) up;
     mkMeshVertex (Num 2, Num 2, Num 0) up; mkMeshVertex (Num 0, Num 2, Num 0) up]
    [mkTessFace 0 [0; 1; 2; 3] 0; mkTessFace 1 [0; 2; 3] 0]
    [Some paint]
    (Some flat_uv).

Definition broken : Object :=
  mkObject "Square" (translation 3 0 0) (Num 2, Num 2, Num 0) broken_mesh.

Definition positions : gmap string Value := {[ "Paint"%string := VInt 0 ]}.

(** The vertices of the two partitions. *)
Definition corner (x z u v : Q) : UvVertex :=
  mkUvVertex (Num x, Num 0, Num z) (Num 0, Num 1, Num 0) (Num u, Num v)
    (Num 1, Num 0, Num 0).

Definition lost_corner : UvVertex :=
  mkUvVertex (NaN, NaN, NaN) (Num 0, Num 1, Num 0) (Num 0, Num 0)
    (Num 1, Num 0, Num 0).

Definition square_partition : Mesh :=
  mkMesh (VInt 0)
    [corner 3 0 0 0; corner 5 0 1 0; corner 5 (-2) 1 (-1); corner 3 (-2) 0 (-1)]
    [1; 2; 0; 2; 3; 0; 2; 3; 0].

Definition broken_partition : Mesh :=
  mkMesh (VInt 0)
    [lost_corner; corner 5 0 1 0; corner 5 (-2) 1 (-1); corner 3 (-2) 0 (-1);
     lost_corner]
    [1; 2; 0; 2; 3; 0; 2; 3; 4].

End Floats.

(** ** Proof steps *)

(** Lookups in a list that starts with an element. *)
Ltac lookup_cons :=
  repeat match goal with
  | |- context [(?x :: ?l) !! S ?q] => change ((x :: l) !! S q) with (l !! q)
  | H : context [(?x :: ?l) !! S ?q] |- _ => change ((x :: l) !! S q) with (l !! q) in H
  | |- context [(?x :: ?l) !! 0] => change ((x :: l) !! 0) with (Some x)
  | H : context [(?x :: ?l) !! 0] |- _ => change ((x :: l) !! 0) with (Some x) in H
  end.

(** * Properties *)

(** ** Results, comprehensions and sorting *)

Lemma bind_Ok {A B} (r : Result A) (k : A -> Result B) (b : B) :
  bind r k = Ok b -> exists a, r = Ok a /\ k a = Ok b.
Proof. destruct r as [a| |]; simpl; [eauto | discriminate..]. Qed.

Lemma getitem_Ok {A} (l : list A) (i : nat) (a : A) :
  getitem l i = Ok a <-> l !! i = Some a.
Proof.
  unfold getitem. destruct (l !! i); split; intros H; inversion H; reflexivity.
Qed.

Lemma comprehension_length {A B} (f : A -> Result B) (l : list A) (bs : list B) :
  comprehension f l = Ok bs -> length bs = length l.
Proof.
  revert bs. induction l as [|a l IH]; simpl; intros bs H.
  - inversion H. reflexivity.
  - apply bind_Ok in H as (b & _ & H). apply bind_Ok in H as (bs' & Hbs & H).
    inversion H. simpl. f_equal. apply IH, Hbs.
Qed.

Lemma comprehension_Forall2 {A B} (f : A -> Result B) (l : list A) (bs : list B) :
  comprehension f l = Ok bs <-> Forall2 (fun a b => f a = Ok b) l bs.
Proof.
  revert bs. induction l as [|a l IH]; simpl; intros bs; split; intros H.
  - inversion H. constructor.
  - inversion H. reflexivity.
  - apply bind_Ok in H as (b & Hb & H). apply bind_Ok in H as (bs' & Hbs & H).
    inversion H. constructor; [exact Hb | apply IH, Hbs].
  - inversion H as [|? b ? bs' Hb Hbs]; subst. rewrite Hb. simpl.
    apply IH in Hbs. rewrite Hbs. reflexivity.
Qed.

Lemma comprehension_getitem {A} (vs : list A) (keys : list (nat * nat)) :
  Forall (fun i => i < length vs) (map fst keys) ->
  exists cv, comprehension (fun '(v, _) => getitem vs v) keys = Ok cv
             /\ map Some cv = map (fun i => vs !! i) (map fst keys).
Proof.
  induction keys as [|[v i] keys IH]; simpl; intros H.
  - exists []. split; reflexivity.
  - inversion H as [|? ? Hv Hkeys]; subst.
    destruct (lookup_lt_is_Some_2 vs v Hv) as [a Ha].
    destruct (IH Hkeys) as (cv & Hcv & Heq).
    exists (a :: cv). unfold getitem at 1. rewrite Ha. simpl. rewrite Hcv. simpl.
    split; [reflexivity|]. f_equal. exact Heq.
Qed.

(** A list whose keys already count up is left as it is. *)
Lemma sorted_counting {A} (key : A -> nat) (l : list A) (s : nat) :
  map key l = seq s (length l) -> sorted key l = l.
Proof.
  revert s. induction l as [|x l IH]; simpl; intros s H; [reflexivity|].
  injection H as Hx Hl. rewrite (IH (S s) Hl).
  destruct l as [|y l']; [reflexivity|]. simpl in *.
  injection Hl as Hy _. replace (key x <=? key y) with true; [reflexivity|].
  symmetry. apply Nat.leb_le. lia.
Qed.

(** ** Dictionaries *)

Section DictFacts.
Context {K V : Type} (keq : K -> K -> bool).

Lemma dict_get_app_Some (d e : list (K * V)) (k : K) (v : V) :
  dict_get keq d k = Some v -> dict_get keq (d ++ e) k = Some v.
Proof.
  induction d as [|[k' v'] d IH]; simpl; [discriminate|].
  destruct (keq k' k); [trivial | exact IH].
Qed.

Lemma dict_get_app_None (d e : list (K * V)) (k : K) :
  dict_get keq d k = None -> dict_get keq (d ++ e) k = dict_get keq e k.
Proof.
  induction d as [|[k' v'] d IH]; simpl; [reflexivity|].
  destruct (keq k' k); [discriminate | exact IH].
Qed.

Lemma dict_set_absent (d : list (K * V)) (k : K) (v : V) :
  dict_get keq d k = None -> dict_set keq d k v = d ++ [(k, v)].
Proof.
  induction d as [|[k' v'] d IH]; simpl; [reflexivity|].
  destruct (keq k' k); [discriminate|]. intros H. rewrite (IH H). reflexivity.
Qed.

Lemma dict_get_seen (d : list (K * V)) (k : K) :
  seen keq (map fst d) k = match dict_get keq d k with Some _ => true | None => false end.
Proof.
  induction d as [|[k' v'] d IH]; simpl; [reflexivity|].
  destruct (keq k' k); simpl; [reflexivity | exact IH].
Qed.

(** In a dictionary whose values count up from [s], the value of a key
    is the position of the key. *)
Lemma dict_get_counting (d : list (K * nat)) (k : K) (i s : nat) :
  (map snd d) = seq s (length d) -> dict_get keq d k = Some i ->
  i = s + indexOf keq (map fst d) k /\ indexOf keq (map fst d) k < length d.
Proof.
  revert s. induction d as [|[k' v'] d IH]; simpl; intros s Hd H; [discriminate|].
  injection Hd as Hv Hd. destruct (keq k' k).
  - inversion H. subst. lia.
  - destruct (IH (S s) Hd H). lia.
Qed.
End DictFacts.

Lemma seen_app {A} (eqb : A -> A -> bool) (l1 l2 : list A) (x : A) :
  seen eqb (l1 ++ l2) x = seen eqb l1 x || seen eqb l2 x.
Proof. unfold seen. apply existsb_app. Qed.

Lemma indexOf_app {A} (eqb : A -> A -> bool) (l1 l2 : list A) (x : A) :
  seen eqb l1 x = true -> indexOf eqb (l1 ++ l2) x = indexOf eqb l1 x.
Proof.
  induction l1 as [|y l1 IH]; simpl; [discriminate|].
  destruct (eqb y x); simpl; [reflexivity|]. intros H. rewrite (IH H). reflexivity.
Qed.

Lemma indexOf_seen {A} (eqb : A -> A -> bool) (l : list A) (x : A) :
  seen eqb l x = true ->
  exists y, l !! indexOf eqb l x = Some y /\ eqb y x = true.
Proof.
  induction l as [|y l IH]; simpl; [discriminate|].
  destruct (eqb y x) eqn:E; simpl; [eauto|]. exact IH.
Qed.

Lemma indexOf_unseen {A} (eqb : A -> A -> bool) (l : list A) (x : A) :
  seen eqb l x = false -> indexOf eqb l x = length l.
Proof.
  induction l as [|y l IH]; simpl; [reflexivity|].
  destruct (eqb y x); simpl; [discriminate|]. intros H. rewrite (IH H). reflexivity.
Qed.

(** [firstSeenFrom] only ever extends its accumulator. *)
Lemma firstSeenFrom_extends {A} (eqb : A -> A -> bool) (l acc : list A) :
  exists ext, firstSeenFrom eqb acc l = acc ++ ext /\ length ext <= length l.
Proof.
  revert acc. induction l as [|x l IH]; simpl; intros acc.
  - exists []. rewrite app_nil_r. split; [reflexivity | simpl; lia].
  - destruct (seen eqb acc x).
    + destruct (IH acc) as (ext & -> & Hlen). exists ext. split; [reflexivity | lia].
    + destruct (IH (acc ++ [x])) as (ext & -> & Hlen). exists (x :: ext).
      rewrite <- app_assoc. split; [reflexivity | simpl; lia].
Qed.

Lemma firstSeenFrom_app {A} (eqb : A -> A -> bool) (l1 l2 acc : list A) :
  firstSeenFrom eqb acc (l1 ++ l2) = firstSeenFrom eqb (firstSeenFrom eqb acc l1) l2.
Proof.
  revert acc. induction l1 as [|x l1 IH]; simpl; intros acc; [reflexivity|]. apply IH.
Qed.

(** ** The index-limit splitter *)

Lemma list_ind3 {A} (P : list A -> Prop) :
  P [] -> (forall a, P [a]) -> (forall a b, P [a; b]) ->
  (forall a b c l, P l -> P (a :: b :: c :: l)) ->
  forall l, P l.
Proof.
  intros H0 H1 H2 H3. fix IH 1.
  intros [|a [|b [|c l]]]; [exact H0 | apply H1 | apply H2 | apply H3, IH].
Qed.

Lemma indexOf_app_unseen {A} (eqb : A -> A -> bool) (l1 l2 : list A) (x : A) :
  seen eqb l1 x = false -> indexOf eqb (l1 ++ l2) x = length l1 + indexOf eqb l2 x.
Proof.
  induction l1 as [|y l1 IH]; simpl; [reflexivity|].
  destruct (eqb y x); simpl; [discriminate|]. intros H. rewrite (IH H). reflexivity.
Qed.

Lemma firstSeenFrom_Forall {A} (eqb : A -> A -> bool) (P : A -> Prop) (l acc : list A) :
  Forall P acc -> Forall P l -> Forall P (firstSeenFrom eqb acc l).
Proof.
  revert acc. induction l as [|x l IH]; simpl; intros acc Hacc Hl; [exact Hacc|].
  inversion Hl; subst. apply IH; [|assumption].
  destruct (seen eqb acc x); [assumption|]. apply Forall_app. split; [assumption|].
  constructor; [assumption | constructor].
Qed.

(** One step of the inner loop: an index that has a local number keeps it,
    a new one gets the next number. *)
Lemma faceLoop_cons (x : nat) (face : list nat) (m : list (nat * nat)) (n : list nat) :
  faceLoop (x :: face) m n =
  match dict_get Nat.eqb m x with
  | Some i => faceLoop face m (n ++ [i])
  | None => faceLoop face (m ++ [(x, length m)]) (n ++ [length m])
  end.
Proof.
  simpl. unfold dict_in. destruct (dict_get Nat.eqb m x) eqn:E; simpl.
  - rewrite E. reflexivity.
  - rewrite (dict_set_absent _ _ _ _ E), (dict_get_app_None _ _ _ _ E). simpl.
    rewrite Nat.eqb_refl. reflexivity.
Qed.

Lemma faceLoop_app (l1 l2 : list nat) (m : list (nat * nat)) (n : list nat) :
  faceLoop (l1 ++ l2) m n =
  faceLoop l2 (faceLoop l1 m n).1 (faceLoop l1 m n).2.
Proof.
  revert m n. induction l1 as [|x l1 IH]; intros m n; [reflexivity|].
  rewrite <- app_comm_cons, !faceLoop_cons.
  destruct (dict_get Nat.eqb m x); apply IH.
Qed.

(** The inner loop numbers the indices in the order in which it first
    sees them. *)
Lemma faceLoop_spec (face : list nat) (m : list (nat * nat)) (n : list nat) :
  map snd m = seq 0 (length m) ->
  exists m',
    faceLoop face m n = (m', n ++ map (indexOf Nat.eqb (map fst m')) face)
    /\ map snd m' = seq 0 (length m')
    /\ map fst m' = firstSeenFrom Nat.eqb (map fst m) face.
Proof.
  revert m n. induction face as [|x face IH]; intros m n Hm.
  - exists m. simpl. rewrite app_nil_r. auto.
  - rewrite faceLoop_cons. simpl firstSeenFrom. rewrite dict_get_seen.
    destruct (dict_get Nat.eqb m x) as [i|] eqn:E.
    + destruct (IH m (n ++ [i]) Hm) as (m' & Hf & Hs & Hk). exists m'.
      split; [|auto]. rewrite Hf, <- app_assoc. simpl. do 3 f_equal.
      destruct (dict_get_counting _ _ _ _ _ Hm E) as [-> _]. simpl.
      destruct (firstSeenFrom_extends Nat.eqb face (map fst m)) as (ext & Hext & _).
      rewrite Hk, Hext. symmetry. apply indexOf_app.
      rewrite dict_get_seen, E. reflexivity.
    + assert (Hm' : map snd (m ++ [(x, length m)])
                    = seq 0 (length (m ++ [(x, length m)]))).
      { rewrite map_app, length_app, seq_app, Hm. reflexivity. }
      destruct (IH _ (n ++ [length m]) Hm') as (m' & Hf & Hs & Hk). exists m'.
      rewrite map_app in Hk. simpl in Hk.
      split; [|auto]. rewrite Hf, <- app_assoc. simpl. do 3 f_equal.
      destruct (firstSeenFrom_extends Nat.eqb face (map fst m ++ [x]))
        as (ext & Hext & _).
      rewrite Hk, Hext, <- app_assoc. rewrite indexOf_app_unseen.
      * simpl. rewrite Nat.eqb_refl, length_map. lia.
      * rewrite dict_get_seen, E. reflexivity.
Qed.

Lemma faceLoop_firstSeen (seg : list nat) :
  exists m',
    faceLoop seg [] [] = (m', map (indexOf Nat.eqb (firstSeen Nat.eqb seg)) seg)
    /\ map snd m' = seq 0 (length m')
    /\ map fst m' = firstSeen Nat.eqb seg.
Proof.
  destruct (faceLoop_spec seg [] [] eq_refl) as (m' & Hf & Hs & Hk).
  exists m'. rewrite Hf, Hk. auto.
Qed.

Lemma faceLoop_length (face : list nat) (m : list (nat * nat)) (n : list nat) :
  length (faceLoop face m n).1 <= length m + length face.
Proof.
  revert m n. induction face as [|x face IH]; intros m n; [simpl; lia|].
  rewrite faceLoop_cons. destruct (dict_get Nat.eqb m x) as [i|].
  - specialize (IH m (n ++ [i])). simpl. lia.
  - specialize (IH (m ++ [(x, length m)]) (n ++ [length m])).
    rewrite length_app in IH. simpl in *. lia.
Qed.

Lemma forLoop_triangle (lim a b c : nat) (rest : list nat) (m : list (nat * nat))
    (n : list nat) :
  forLoop lim (a :: b :: c :: rest) m n =
  if lim - 3 <=? length (faceLoop [a; b; c] m n).1
  then ((faceLoop [a; b; c] m n).1, (faceLoop [a; b; c] m n).2, rest)
  else forLoop lim rest (faceLoop [a; b; c] m n).1 (faceLoop [a; b; c] m n).2.
Proof.
  change (forLoop lim (a :: b :: c :: rest) m n) with
    (let '(m1, n1) := faceLoop [a; b; c] m n in
     if lim - 3 <=? length m1 then (m1, n1, rest) else forLoop lim rest m1 n1).
  destruct (faceLoop [a; b; c] m n). reflexivity.
Qed.

Lemma forLoop_short (lim : nat) (face : list nat) (m : list (nat * nat)) (n : list nat) :
  length face < 3 -> forLoop lim face m n = (faceLoop face m n, []).
Proof.
  destruct face as [|a [|b [|c face]]]; simpl length; intros H; try lia.
  - reflexivity.
  - change (forLoop lim [a] m n) with
      (let '(m1, n1) := faceLoop [a] m n in (m1, n1, @nil nat)).
    destruct (faceLoop [a] m n). reflexivity.
  - change (forLoop lim [a; b] m n) with
      (let '(m1, n1) := faceLoop [a; b] m n in (m1, n1, @nil nat)).
    destruct (faceLoop [a; b] m n). reflexivity.
Qed.

(** What one run of the [for] loop takes from the index list. *)
Lemma forLoop_spec (lim : nat) (rest : list nat) :
  forall (m : list (nat * nat)) (n : list nat) m' n' rest',
  forLoop lim rest m n = (m', n', rest') ->
  exists seg,
    rest = seg ++ rest'
    /\ faceLoop seg m n = (m', n')
    /\ (rest <> [] -> seg <> [])
    /\ (rest' <> [] -> length seg mod 3 = 0 /\ lim - 3 <= length m')
    /\ (length m < lim - 3 ->
        forall k, 3 * k < length seg ->
          length (faceLoop (take (3 * k) seg) m n).1 < lim - 3).
Proof.
  induction rest as [|a|a b|a b c rest IH] using list_ind3; intros m n m' n' rest' H.
  - inversion H; subst. exists []. repeat split; try congruence; simpl; intros; lia.
  - rewrite forLoop_short in H by (simpl; lia). injection H as Hf Hr. subst rest'.
    exists [a]. rewrite app_nil_r.
    split; [reflexivity|]. split; [exact Hf|]. split; [congruence|]. split; [congruence|].
    intros Hm k Hk. simpl in Hk. replace k with 0 by lia. exact Hm.
  - rewrite forLoop_short in H by (simpl; lia). injection H as Hf Hr. subst rest'.
    exists [a; b]. rewrite app_nil_r.
    split; [reflexivity|]. split; [exact Hf|]. split; [congruence|]. split; [congruence|].
    intros Hm k Hk. simpl in Hk. replace k with 0 by lia. exact Hm.
  - rewrite forLoop_triangle in H.
    destruct (lim - 3 <=? length (faceLoop [a; b; c] m n).1) eqn:E.
    + injection H as Hm' Hn' Hr. subst rest'. exists [a; b; c].
      split; [reflexivity|]. split; [rewrite <- Hm', <- Hn'; apply surjective_pairing|].
      split; [congruence|]. split.
      * intros _. split; [reflexivity|]. rewrite <- Hm'. apply Nat.leb_le, E.
      * intros Hm k Hk. simpl in Hk. replace k with 0 by lia. exact Hm.
    + apply IH in H as (seg & Hrest & Hf & _ & Hclose & Hopen).
      apply Nat.leb_gt in E.
      exists (a :: b :: c :: seg). repeat split.
      * rewrite Hrest. reflexivity.
      * change (a :: b :: c :: seg) with ([a; b; c] ++ seg).
        rewrite faceLoop_app. exact Hf.
      * congruence.
      * destruct (Hclose H) as [Hmod _]. simpl length.
        replace (S (S (S (length seg)))) with (length seg + 1 * 3) by lia.
        rewrite Nat.Div0.mod_add. exact Hmod.
      * apply Hclose, H.
      * intros Hm [|k] Hk; [exact Hm|].
        replace (3 * S k) with (S (S (S (3 * k)))) by lia.
        change (take (S (S (S (3 * k)))) (a :: b :: c :: seg))
          with ([a; b; c] ++ take (3 * k) seg).
        rewrite faceLoop_app. apply Hopen; [exact E|]. simpl in Hk. lia.
Qed.

Lemma whileLoop_unfold (fuel lim : nat) (mesh : Mesh) (rest : list nat) :
  rest <> [] ->
  whileLoop (S fuel) lim mesh rest =
  let '(vertexIndexMapping, newIndices, rest') := forLoop lim rest [] [] in
  let* chunk_vertices :=
    comprehension (fun '(v, index) => getitem (vertices mesh) v)
      (sorted snd (items vertexIndexMapping)) in
  let* newMeshes := whileLoop fuel lim mesh rest' in
  Ok (mkMesh (materialId mesh) chunk_vertices newIndices :: newMeshes).
Proof. destruct rest; [congruence | reflexivity]. Qed.

Lemma comprehension_getitem_Ok {A} (vs cv : list A) (keys : list (nat * nat)) :
  comprehension (fun '(v, _) => getitem vs v) keys = Ok cv ->
  map Some cv = map (fun i => vs !! i) (map fst keys).
Proof.
  revert cv. induction keys as [|[v i] keys IH]; simpl; intros cv H.
  - inversion H. reflexivity.
  - apply bind_Ok in H as (a & Ha & H). apply bind_Ok in H as (cv' & Hcv & H).
    inversion H. apply getitem_Ok in Ha. simpl. rewrite Ha, (IH _ Hcv). reflexivity.
Qed.

Lemma comprehension_getitem_ends {A} (vs : list A) (keys : list (nat * nat)) :
  comprehension (fun '(v, _) => getitem vs v) keys <> OutOfFuel.
Proof.
  induction keys as [|[v i] keys IH]; simpl; [discriminate|].
  unfold getitem at 1. destruct (vs !! v); simpl; [|discriminate].
  destruct (comprehension _ keys); simpl; congruence.
Qed.

(** The chunks of a mesh are the chunks of the segments into which the
    loop cuts its indices. *)
Lemma whileLoop_chunks (lim : nat) (mesh : Mesh) (fuel : nat) :
  3 < lim ->
  forall (rest : list nat) (chunks : list Mesh),
  whileLoop fuel lim mesh rest = Ok chunks ->
  exists segs,
    concat segs = rest /\ Forall2 (isChunkOf mesh) segs chunks /\ cutting lim segs.
Proof.
  intros Hlim. induction fuel as [|fuel IH]; intros rest chunks H.
  - destruct rest; [|discriminate]. inversion H. exists []. repeat constructor.
  - destruct rest as [|r0 rest0] eqn:Erest.
    { inversion H. exists []. repeat constructor. }
    rewrite <- Erest in *. assert (Hne : rest <> []) by (subst; discriminate).
    rewrite (whileLoop_unfold _ _ _ _ Hne) in H.
    destruct (forLoop lim rest [] []) as [[m' n'] rest'] eqn:Efor.
    apply forLoop_spec in Efor as (seg & Hrest & Hface & Hseg & Hclose & Hopen).
    destruct (faceLoop_firstSeen seg) as (m1 & Hface' & Hcount & Hkeys).
    rewrite Hface in Hface'. injection Hface' as <- ->.
    unfold items in H. rewrite (sorted_counting snd m' 0) in H
      by (rewrite Hcount; reflexivity).
    apply bind_Ok in H as (cv & Hcv & H). apply bind_Ok in H as (more & Hmore & H).
    injection H as <-. apply IH in Hmore as (segs & Hconcat & Hchunks & Hcut).
    apply comprehension_getitem_Ok in Hcv. rewrite Hkeys in Hcv.
    exists (seg :: segs). split; [|split].
    + simpl. rewrite Hconcat. symmetry. exact Hrest.
    + constructor; [|exact Hchunks]. repeat split; assumption.
    + constructor; [auto | | | exact Hcut].
      * intros k Hk. specialize (Hopen ltac:(simpl; lia) k Hk).
        destruct (faceLoop_firstSeen (take (3 * k) seg)) as (mk & Hfk & _ & Hkk).
        rewrite Hfk in Hopen. simpl in Hopen.
        rewrite <- Hkk, length_map. exact Hopen.
      * intros Hsegs. assert (Hrest' : rest' <> []).
        { intros ->. destruct segs; [congruence|].
          inversion Hcut; subst. simpl in Hconcat.
          apply app_eq_nil in Hconcat as [? _]. contradiction. }
        destruct (Hclose Hrest') as [Hmod Hlen]. split; [exact Hmod|].
        unfold closesChunk. rewrite <- Hkeys, length_map. exact Hlen.
Qed.

(** With the indices that are left as fuel the loop comes to its end. *)
Lemma whileLoop_fuel (lim : nat) (mesh : Mesh) (fuel : nat) :
  forall rest : list nat,
  length rest <= fuel -> whileLoop fuel lim mesh rest <> OutOfFuel.
Proof.
  induction fuel as [|fuel IH]; intros rest Hlen.
  - destruct rest; [discriminate | simpl in Hlen; lia].
  - destruct rest as [|r0 rest0] eqn:Erest; [discriminate|].
    rewrite <- Erest in *. assert (Hne : rest <> []) by (subst; discriminate).
    rewrite (whileLoop_unfold _ _ _ _ Hne).
    destruct (forLoop lim rest [] []) as [[m' n'] rest'] eqn:Efor.
    apply forLoop_spec in Efor as (seg & Hrest & _ & Hseg & _).
    assert (length rest' <= fuel).
    { specialize (Hseg Hne). rewrite Hrest, length_app in Hlen.
      destruct seg; [congruence | simpl in Hlen; lia]. }
    pose proof (comprehension_getitem_ends (vertices mesh) (sorted snd (items m'))) as Hc.
    destruct (comprehension _ _); simpl; [|discriminate|congruence].
    specialize (IH rest' H). destruct (whileLoop fuel lim mesh rest'); simpl; congruence.
Qed.

(** With indices that all refer to a vertex of the mesh the loop raises no
    exception. *)
Lemma whileLoop_valid (lim : nat) (mesh : Mesh) (fuel : nat) :
  forall rest : list nat,
  Forall (fun i => i < length (vertices mesh)) rest ->
  forall e, whileLoop fuel lim mesh rest <> Raise e.
Proof.
  induction fuel as [|fuel IH]; intros rest Hvalid e.
  - destruct rest; discriminate.
  - destruct rest as [|r0 rest0] eqn:Erest; [discriminate|].
    rewrite <- Erest in *. assert (Hne : rest <> []) by (subst; discriminate).
    rewrite (whileLoop_unfold _ _ _ _ Hne).
    destruct (forLoop lim rest [] []) as [[m' n'] rest'] eqn:Efor.
    apply forLoop_spec in Efor as (seg & Hrest & Hface & _).
    destruct (faceLoop_firstSeen seg) as (m1 & Hface' & Hcount & Hkeys).
    rewrite Hface in Hface'. injection Hface' as <- ->.
    unfold items. rewrite (sorted_counting snd m' 0) by (rewrite Hcount; reflexivity).
    rewrite Hrest in Hvalid. apply Forall_app in Hvalid as [Hseg Hrest'].
    destruct (comprehension_getitem (vertices mesh) m') as (cv & -> & _).
    { rewrite Hkeys. apply firstSeenFrom_Forall; [constructor | exact Hseg]. }
    simpl. specialize (IH rest' Hrest' e).
    destruct (whileLoop fuel lim mesh rest'); simpl; congruence.
Qed.

(** A chunk has fewer vertices than the limit. *)
Lemma cutting_bound (lim : nat) (seg : list nat) :
  openBefore lim seg -> seg <> [] -> length (firstSeen Nat.eqb seg) < lim.
Proof.
  intros Hopen Hne. pose (k := (length seg - 1) / 3).
  assert (Hlen : 0 < length seg) by (destruct seg; [congruence | simpl; lia]).
  assert (Hk : 3 * k <= length seg - 1) by (apply Nat.Div0.mul_div_le).
  assert (Hk' : length seg - 1 < 3 * k + 3).
  { pose proof (Nat.div_mod_eq (length seg - 1) 3) as Hd.
    pose proof (Nat.mod_upper_bound (length seg - 1) 3 ltac:(lia)) as Hu.
    fold k in Hd. lia. }
  specialize (Hopen k ltac:(lia)).
  rewrite <- (take_drop (3 * k) seg) at 1. unfold firstSeen in *.
  rewrite firstSeenFrom_app.
  destruct (firstSeenFrom_extends Nat.eqb (drop (3 * k) seg)
              (firstSeenFrom Nat.eqb [] (take (3 * k) seg))) as (ext & -> & Hext).
  rewrite length_app, length_drop in *. lia.
Qed.

Lemma isChunkOf_length (mesh : Mesh) (seg : list nat) (chunk : Mesh) :
  isChunkOf mesh seg chunk ->
  length (vertices chunk) = length (firstSeen Nat.eqb seg).
Proof.
  intros (_ & H & _). apply (f_equal length) in H. rewrite !length_map in H. exact H.
Qed.

Lemma firstSeenFrom_seen {A} (eqb : A -> A -> bool) (l acc : list A) (x : A) :
  (forall a, eqb a a = true) ->
  In x l -> seen eqb (firstSeenFrom eqb acc l) x = true.
Proof.
  intros Hrefl. revert acc. induction l as [|y l IH]; intros acc; [intros []|].
  intros [->|Hin]; simpl.
  - destruct (firstSeenFrom_extends eqb l (if seen eqb acc x then acc else acc ++ [x]))
      as (ext & -> & _).
    rewrite seen_app. apply orb_true_iff. left.
    destruct (seen eqb acc x) eqn:E; [exact E|].
    rewrite seen_app. simpl. rewrite Hrefl. rewrite orb_true_r. reflexivity.
  - apply IH, Hin.
Qed.

(** The triangles of a chunk are those of its segment. *)
Lemma isChunkOf_triangles (mesh : Mesh) (seg : list nat) (chunk : Mesh) :
  isChunkOf mesh seg chunk ->
  triangleVertices chunk = map (fun i => vertices mesh !! i) seg.
Proof.
  intros (_ & Hv & Hi). unfold triangleVertices. rewrite Hi, map_map.
  apply map_ext_in. intros i Hin.
  pose proof (firstSeenFrom_seen Nat.eqb seg [] i Nat.eqb_refl Hin) as Hseen.
  fold (firstSeen Nat.eqb seg) in Hseen.
  apply indexOf_seen in Hseen as (y & Hy & Heq). apply Nat.eqb_eq in Heq. subst y.
  set (j := indexOf Nat.eqb (firstSeen Nat.eqb seg) i) in *.
  assert (H1 : map Some (vertices chunk) !! j = Some (vertices mesh !! i)).
  { rewrite Hv. change (map ?f ?l) with (f <$> l). rewrite list_lookup_fmap, Hy.
    reflexivity. }
  change (map Some (vertices chunk)) with (Some <$> vertices chunk) in H1.
  rewrite list_lookup_fmap in H1. destruct (vertices chunk !! j); simpl in H1.
  - injection H1 as ->. reflexivity.
  - discriminate.
Qed.

Lemma chunks_triangles (mesh : Mesh) (segs : list (list nat)) (chunks : list Mesh) :
  Forall2 (isChunkOf mesh) segs chunks ->
  concat (map triangleVertices chunks) = map (fun i => vertices mesh !! i) (concat segs).
Proof.
  induction 1 as [|seg chunk segs chunks H _ IH]; [reflexivity|].
  simpl. rewrite map_app, IH, (isChunkOf_triangles _ _ _ H). reflexivity.
Qed.

Lemma cutting_nonempty (lim : nat) (segs : list (list nat)) :
  cutting lim segs -> Forall (fun seg => seg <> [] /\ openBefore lim seg) segs.
Proof. induction 1; constructor; auto. Qed.

(** What the splitter makes of one mesh. *)
Lemma splitMesh_small (lim : nat) (mesh : Mesh) :
  length (vertices mesh) <= lim -> splitMesh lim mesh = Ok [mesh].
Proof.
  intros H. unfold splitMesh. apply Nat.ltb_ge in H. rewrite H. reflexivity.
Qed.

Lemma splitMesh_large (lim : nat) (mesh : Mesh) (part : list Mesh) :
  3 < lim -> lim < length (vertices mesh) ->
  splitMesh lim mesh = Ok part ->
  exists segs,
    concat segs = indices mesh /\ cutting lim segs /\ Forall2 (isChunkOf mesh) segs part.
Proof.
  intros Hlim H Hsplit. unfold splitMesh in Hsplit. apply Nat.ltb_lt in H.
  rewrite H in Hsplit.
  apply whileLoop_chunks in Hsplit as (segs & ? & ? & ?); [|exact Hlim]. eauto.
Qed.

Lemma splitMesh_returns (lim : nat) (mesh : Mesh) :
  Forall (fun i => i < length (vertices mesh)) (indices mesh) ->
  exists part, splitMesh lim mesh = Ok part.
Proof.
  intros Hvalid. unfold splitMesh. destruct (lim <? length (vertices mesh)); [|eauto].
  pose proof (whileLoop_fuel lim mesh _ (indices mesh) (Nat.le_refl _)) as Hfuel.
  pose proof (whileLoop_valid lim mesh (length (indices mesh)) _ Hvalid) as Hexc.
  destruct (whileLoop _ lim mesh (indices mesh)) as [part|e|]; [eauto| |congruence].
  destruct (Hexc e eq_refl).
Qed.

Lemma splitMesh_bound (lim : nat) (mesh : Mesh) (part : list Mesh) :
  3 < lim -> splitMesh lim mesh = Ok part ->
  Forall (fun chunk => length (vertices chunk) <= lim) part.
Proof.
  intros Hlim H. destruct (Nat.le_gt_cases (length (vertices mesh)) lim) as [Hle|Hgt].
  - rewrite (splitMesh_small _ _ Hle) in H. injection H as <-. repeat constructor. exact Hle.
  - apply (splitMesh_large _ _ _ Hlim Hgt) in H as (segs & _ & Hcut & Hchunks).
    apply cutting_nonempty in Hcut. revert Hcut.
    induction Hchunks as [|seg chunk segs chunks H _ IH]; intros Hcut; constructor.
    + inversion Hcut as [|? ? [Hne Hopen] _]; subst.
      rewrite (isChunkOf_length _ _ _ H).
      pose proof (cutting_bound _ _ Hopen Hne). lia.
    + apply IH. inversion Hcut; assumption.
Qed.

Lemma splitMeshesLoop_parts (lim : nat) (dividedMeshes : list Mesh) :
  forall newMeshes result,
  splitMeshesLoop lim dividedMeshes newMeshes = Ok result <->
  exists parts,
    Forall2 (fun mesh part => splitMesh lim mesh = Ok part) dividedMeshes parts
    /\ result = newMeshes ++ concat parts.
Proof.
  induction dividedMeshes as [|mesh ms IH]; intros acc result; simpl.
  - split.
    + intros H. injection H as <-. exists []. rewrite app_nil_r. split; constructor.
    + intros (parts & Hparts & ->). inversion Hparts. simpl. rewrite app_nil_r.
      reflexivity.
  - split.
    + intros H. apply bind_Ok in H as (part & Hpart & H).
      apply IH in H as (parts & Hparts & ->). exists (part :: parts).
      split; [constructor; assumption|]. simpl. rewrite app_assoc. reflexivity.
    + intros (parts & Hparts & ->). inversion Hparts as [|? part ? parts' Hpart Hrest];
        subst. rewrite Hpart. simpl. apply IH. exists parts'.
      split; [assumption|]. rewrite app_assoc. reflexivity.
Qed.

Lemma limit_gt_3 : 3 < limit.
Proof. apply Nat.ltb_lt. vm_compute. reflexivity. Qed.

(** ** Writing a mesh *)

Lemma bind_returns {A B} (r : Result A) (k : A -> Result B) :
  (exists a, r = Ok a) -> (forall a, exists b, k a = Ok b) -> exists b, bind r k = Ok b.
Proof. intros [a ->] Hk. simpl. apply Hk. Qed.

Lemma emit_returns (t : Token) (st : State) : exists st', emit t st = Ok st'.
Proof. unfold emit. eauto. Qed.

Lemma for_each_returns {A} (body : A -> State -> Result State) (l : list A) :
  (forall a st, exists st', body a st = Ok st') ->
  forall st, exists st', for_each body l st = Ok st'.
Proof.
  intros Hbody. induction l as [|a l IH]; intros st; simpl; [eauto|].
  apply bind_returns; [apply Hbody | exact IH].
Qed.

Lemma writeNodeClass_Mesh (st : State) :
  writeNodeClass "Mesh" st = emit (TUInt (VInt 2)) st.
Proof. reflexivity. Qed.

Lemma writeNodeClass_Node (st : State) :
  writeNodeClass "Node" st = emit (TUInt (VInt 1)) st.
Proof. reflexivity. Qed.

Lemma writeBoundingSphere_returns (vs : list UvVertex) (st : State) :
  exists st', writeBoundingSphere vs st = Ok st'.
Proof.
  unfold writeBoundingSphere. apply bind_returns; [apply emit_returns|].
  intros st'. apply emit_returns.
Qed.

(** A mesh within the vertex limit is written without exception. *)
Lemma writeMesh_returns (object : Object) (mesh : Mesh) (nodeProperties : NodeProperties)
    (st : State) :
  length (vertices mesh) <= 2 ^ 16 ->
  exists st', writeMesh object mesh nodeProperties st = Ok st'.
Proof.
  intros H. unfold writeMesh. rewrite writeNodeClass_Mesh.
  do 7 (apply bind_returns; [apply emit_returns | intros ?]).
  apply Nat.ltb_ge in H. rewrite H.
  apply bind_returns; [apply emit_returns | intros ?].
  apply bind_returns; [|intros ?].
  { apply for_each_returns. intros v st0.
    do 3 (apply bind_returns; [apply emit_returns | intros ?]). apply emit_returns. }
  apply bind_returns; [apply emit_returns | intros ?].
  apply bind_returns; [|intros ?].
  { apply for_each_returns. intros i st0. apply emit_returns. }
  apply bind_returns; [|intros ?].
  { destruct (is_None (materialId mesh)); [|apply emit_returns].
    apply bind_returns; [unfold warn; eauto | intros ?]. apply emit_returns. }
  do 3 (apply bind_returns; [apply emit_returns | intros ?]).
  apply bind_returns; [apply writeBoundingSphere_returns | intros ?].
  apply emit_returns.
Qed.

(** ** C1 and C4: what [splitMeshesForVertexLimit] returns *)

(** C1.  Every mesh that [splitMeshesForVertexLimit] returns has at most
    65536 vertices, and [writeMesh] writes such a mesh without raising: its
    "Only 65536 vertices per mesh allowed" branch is not taken. *)
Theorem splitMeshesForVertexLimit_bound (dividedMeshes newMeshes : list Mesh) :
  splitMeshesForVertexLimit dividedMeshes = Ok newMeshes ->
  Forall (fun mesh =>
            length (vertices mesh) <= 2 ^ 16
            /\ forall object nodeProperties st,
                 exists st', writeMesh object mesh nodeProperties st = Ok st')
    newMeshes.
Proof.
  intros H. apply splitMeshesLoop_parts in H as (parts & Hparts & ->).
  rewrite app_nil_l. apply Forall_concat.
  induction Hparts as [|mesh part ms parts Hpart _ IH]; constructor; [|exact IH].
  apply (splitMesh_bound _ _ _ limit_gt_3) in Hpart.
  eapply Forall_impl; [exact Hpart|]. intros chunk Hchunk. split; [exact Hchunk|].
  intros. apply writeMesh_returns, Hchunk.
Qed.

(** C4.  A mesh with at most 65536 vertices is returned as it is.  The
    index list of a larger mesh is cut into segments, three indices at a
    time; a segment ends with the triangle that brings the number of its
    distinct indices to 65533 or with the index list; each segment makes
    one chunk with the material of the mesh, the vertices the segment
    refers to in first-seen order and the indices renumbered accordingly;
    a chunk has at most 65536 vertices, and the triangles of the chunks,
    one chunk after the other, are the triangles of the mesh. *)
Theorem splitMeshesForVertexLimit_chunks (dividedMeshes : list Mesh) :
  Forall (fun mesh => Forall (fun i => i < length (vertices mesh)) (indices mesh))
    dividedMeshes ->
  exists parts : list (list Mesh),
    splitMeshesForVertexLimit dividedMeshes = Ok (concat parts)
    /\ Forall2 (fun mesh part =>
         (length (vertices mesh) <= 2 ^ 16 -> part = [mesh])
         /\ (2 ^ 16 < length (vertices mesh) ->
             exists segs : list (list nat),
               concat segs = indices mesh
               /\ cutting (2 ^ 16) segs
               /\ Forall2 (isChunkOf mesh) segs part
               /\ Forall (fun chunk => materialId chunk = materialId mesh
                                       /\ length (vertices chunk) <= 2 ^ 16) part
               /\ concat (map triangleVertices part) = triangleVertices mesh))
         dividedMeshes parts.
Proof.
  intros Hvalid.
  assert (Hparts : exists parts,
    Forall2 (fun mesh part => splitMesh limit mesh = Ok part) dividedMeshes parts).
  { induction Hvalid as [|mesh ms Hmesh _ [parts IH]]; [exists []; constructor|].
    destruct (splitMesh_returns limit mesh Hmesh) as [part Hpart].
    exists (part :: parts). constructor; assumption. }
  destruct Hparts as [parts Hparts]. exists parts. split.
  { apply splitMeshesLoop_parts. exists parts. split; [exact Hparts | reflexivity]. }
  eapply Forall2_impl; [exact Hparts|]. intros mesh part Hpart. cbv beta in Hpart. split.
  - intros Hle. rewrite (splitMesh_small limit mesh Hle) in Hpart. injection Hpart as <-.
    reflexivity.
  - intros Hgt.
    pose proof (splitMesh_bound _ _ _ limit_gt_3 Hpart) as Hbound.
    apply (splitMesh_large _ _ _ limit_gt_3 Hgt) in Hpart as (segs & Hc & Hcut & Hch).
    exists segs. repeat split; try assumption.
    + clear - Hch Hbound. induction Hch as [|seg chunk segs chunks H _ IH];
        [constructor|].
      inversion Hbound; subst. constructor; [|apply IH; assumption].
      split; [apply H | assumption].
    + rewrite (chunks_triangles _ _ _ Hch), Hc. reflexivity.
Qed.

(** ** Equality of vertices *)

Lemma ne_false (a b : Q) : ne a b = false <-> (a == b)%Q.
Proof.
  unfold ne. rewrite negb_false_iff. apply Qeq_bool_iff.
Qed.

Lemma UvVertex_eq_equiv (v w : UvVertex) :
  UvVertex_eq v w = true <-> UvVertex_equiv v w.
Proof.
  unfold UvVertex_eq, UvVertex_equiv. split.
  - intros H.
    repeat match type of H with
    | context [ne ?a ?b] =>
        let E := fresh "E" in
        destruct (ne a b) eqn:E; simpl in H; [discriminate|]; apply ne_false in E
    end.
    repeat split; assumption.
  - intros H. repeat match goal with H : _ /\ _ |- _ => destruct H end.
    repeat match goal with H : (_ == _)%Q |- _ => apply ne_false in H; rewrite H; clear H end.
    reflexivity.
Qed.

Lemma UvVertex_eq_refl (v : UvVertex) : UvVertex_eq v v = true.
Proof. apply UvVertex_eq_equiv. unfold UvVertex_equiv. repeat split; reflexivity. Qed.

Lemma UvVertex_eq_sym (v w : UvVertex) : UvVertex_eq v w = true -> UvVertex_eq w v = true.
Proof.
  rewrite !UvVertex_eq_equiv. unfold UvVertex_equiv. intros H.
  repeat match goal with H : _ /\ _ |- _ => destruct H end.
  repeat split; symmetry; assumption.
Qed.

Lemma UvVertex_eq_trans (u v w : UvVertex) :
  UvVertex_eq u v = true -> UvVertex_eq v w = true -> UvVertex_eq u w = true.
Proof.
  rewrite !UvVertex_eq_equiv. unfold UvVertex_equiv. intros H1 H2.
  repeat match goal with H : _ /\ _ |- _ => destruct H end.
  repeat split; etransitivity; eassumption.
Qed.

(** ** First-seen order for an equivalence *)

Section FirstSeenFacts.
Context {A : Type} (eqb : A -> A -> bool).
Hypothesis eqb_refl : forall a, eqb a a = true.
Hypothesis eqb_sym : forall a b, eqb a b = true -> eqb b a = true.
Hypothesis eqb_trans : forall a b c, eqb a b = true -> eqb b c = true -> eqb a c = true.

Lemma eqb_compat (y v w : A) : eqb v w = true -> eqb y v = eqb y w.
Proof.
  intros H. destruct (eqb y v) eqn:E1, (eqb y w) eqn:E2; try reflexivity.
  - rewrite (eqb_trans _ _ _ E1 H) in E2. discriminate.
  - rewrite (eqb_trans _ _ _ E2 (eqb_sym _ _ H)) in E1. discriminate.
Qed.

Lemma indexOf_compat (l : list A) (v w : A) :
  eqb v w = true -> indexOf eqb l v = indexOf eqb l w.
Proof.
  intros H. induction l as [|y l IH]; simpl; [reflexivity|].
  rewrite (eqb_compat y v w H), IH. reflexivity.
Qed.

Lemma seen_compat (l : list A) (v w : A) :
  eqb v w = true -> seen eqb l v = seen eqb l w.
Proof.
  intros H. induction l as [|y l IH]; simpl; [reflexivity|].
  rewrite (eqb_compat y v w H), IH. reflexivity.
Qed.

Lemma seen_In (l : list A) (x : A) : In x l -> seen eqb l x = true.
Proof.
  induction l as [|y l IH]; [intros []|]. intros [->|H]; simpl.
  - rewrite eqb_refl. reflexivity.
  - rewrite (IH H). apply orb_true_r.
Qed.

(** No two elements of a first-seen list are equal. *)
Lemma firstSeenFrom_distinct (l acc : list A) :
  (forall i j x y, acc !! i = Some x -> acc !! j = Some y -> eqb x y = true -> i = j) ->
  forall i j x y,
    firstSeenFrom eqb acc l !! i = Some x -> firstSeenFrom eqb acc l !! j = Some y ->
    eqb x y = true -> i = j.
Proof.
  revert acc. induction l as [|z l IH]; simpl; intros acc Hacc; [exact Hacc|].
  apply IH. destruct (seen eqb acc z) eqn:Ez; [exact Hacc|].
  assert (Hnew : forall i x, acc !! i = Some x -> eqb x z = false).
  { intros i x Hx. apply list_elem_of_lookup_2, list_elem_of_In in Hx.
    unfold seen in Ez. rewrite <- not_true_iff_false in Ez.
    destruct (eqb x z) eqn:E; [|reflexivity]. exfalso. apply Ez.
    apply existsb_exists. eauto. }
  intros i j x y Hi Hj Hxy.
  destruct (decide (i < length acc)) as [Hil|Hil], (decide (j < length acc)) as [Hjl|Hjl].
  - rewrite lookup_app_l in Hi, Hj by assumption. eapply Hacc; eassumption.
  - rewrite lookup_app_l in Hi by assumption.
    rewrite lookup_app_r in Hj by lia.
    destruct (j - length acc) eqn:Ej; simpl in Hj; [|discriminate].
    injection Hj as <-. rewrite (Hnew _ _ Hi) in Hxy. discriminate.
  - rewrite lookup_app_l in Hj by assumption.
    rewrite lookup_app_r in Hi by lia.
    destruct (i - length acc) eqn:Ei; simpl in Hi; [|discriminate].
    injection Hi as <-. apply eqb_sym in Hxy. rewrite (Hnew _ _ Hj) in Hxy. discriminate.
  - rewrite lookup_app_r in Hi, Hj by lia.
    destruct (i - length acc) eqn:Ei; simpl in Hi; [|discriminate].
    destruct (j - length acc) eqn:Ej; simpl in Hj; [|discriminate]. lia.
Qed.

Lemma firstSeen_distinct (l : list A) (i j : nat) (x y : A) :
  firstSeen eqb l !! i = Some x -> firstSeen eqb l !! j = Some y ->
  eqb x y = true -> i = j.
Proof.
  apply firstSeenFrom_distinct. intros ? ? ? ? H. discriminate.
Qed.

(** An element of the list has an equal element in the first-seen list,
    at its index. *)
Lemma firstSeen_index (l : list A) (x : A) :
  In x l ->
  exists y, firstSeen eqb l !! indexOf eqb (firstSeen eqb l) x = Some y
            /\ eqb y x = true.
Proof.
  intros H. apply indexOf_seen. apply firstSeenFrom_seen; assumption.
Qed.
End FirstSeenFacts.

(** ** The partitioner *)

(** One step of the vertex loop: a vertex equal to one of the dictionary
    has the index of that one, a new vertex gets the next index. *)
Lemma vertexLoop_cons (object : Object) (meshCopy : BlenderMesh) (materialIndex : nat)
    (face : TessFace) (vIndex : nat) (vIndices : list nat) (k : nat)
    (d : list (UvVertex * nat)) (fi : list nat) :
  vertexLoop object meshCopy materialIndex face (vIndex :: vIndices) k d fi =
  let* vertex := faceVertex object meshCopy materialIndex face k vIndex in
  match dict_get UvVertex_eq d vertex with
  | Some i =>
      vertexLoop object meshCopy materialIndex face vIndices (k + 1) d (fi ++ [i])
  | None =>
      vertexLoop object meshCopy materialIndex face vIndices (k + 1)
        (d ++ [(vertex, length d)]) (fi ++ [length d])
  end.
Proof.
  simpl. destruct (faceVertex object meshCopy materialIndex face k vIndex) as [vertex| |];
    simpl; try reflexivity.
  unfold dict_in. destruct (dict_get UvVertex_eq d vertex) eqn:E; simpl.
  - rewrite E. reflexivity.
  - rewrite (dict_set_absent _ _ _ _ E), (dict_get_app_None _ _ _ _ E). simpl.
    rewrite UvVertex_eq_refl. reflexivity.
Qed.

Lemma map_indexOf_app {A} (eqb : A -> A -> bool) (l ext occ : list A) :
  Forall (fun x => seen eqb l x = true) occ ->
  map (indexOf eqb (l ++ ext)) occ = map (indexOf eqb l) occ.
Proof.
  intros H. apply map_ext_in. intros x Hx. apply indexOf_app.
  rewrite List.Forall_forall in H. apply H, Hx.
Qed.

Lemma firstSeenFrom_all_seen {A} (eqb : A -> A -> bool) (l acc : list A) :
  (forall a, eqb a a = true) ->
  Forall (fun x => seen eqb (firstSeenFrom eqb acc l) x = true) l.
Proof.
  intros Hrefl. apply List.Forall_forall. intros x Hx.
  apply firstSeenFrom_seen; assumption.
Qed.

(** The vertex loop keeps the vertices in first-seen order and gives each
    face vertex the position of the vertex it is equal to. *)
Lemma vertexLoop_spec (object : Object) (meshCopy : BlenderMesh) (materialIndex : nat)
    (face : TessFace) (vIndices : list nat) :
  forall (k : nat) (d : list (UvVertex * nat)) (fi : list nat) d' fi',
  map snd d = seq 0 (length d) ->
  vertexLoop object meshCopy materialIndex face vIndices k d fi = Ok (d', fi') ->
  exists occ,
    occurrencesFrom object meshCopy materialIndex face k vIndices = Ok occ
    /\ map snd d' = seq 0 (length d')
    /\ map fst d' = firstSeenFrom UvVertex_eq (map fst d) occ
    /\ fi' = fi ++ map (indexOf UvVertex_eq (map fst d')) occ.
Proof.
  induction vIndices as [|vIndex vIndices IH]; intros k d fi d' fi' Hd H.
  - injection H as <- <-. exists []. simpl. rewrite app_nil_r. auto.
  - rewrite vertexLoop_cons in H. apply bind_Ok in H as (vertex & Hv & H).
    simpl occurrencesFrom. rewrite Hv. simpl bind.
    destruct (dict_get UvVertex_eq d vertex) as [i|] eqn:E.
    + apply IH in H as (occ & -> & Hd' & Hk & ->); [|exact Hd].
      exists (vertex :: occ). simpl. rewrite dict_get_seen, E.
      split; [reflexivity|]. split; [exact Hd'|]. split; [exact Hk|].
      rewrite <- app_assoc. simpl. do 2 f_equal.
      destruct (dict_get_counting _ _ _ _ _ Hd E) as [-> _]. simpl.
      destruct (firstSeenFrom_extends UvVertex_eq occ (map fst d)) as (ext & Hext & _).
      rewrite Hk, Hext. symmetry. apply indexOf_app.
      rewrite dict_get_seen, E. reflexivity.
    + apply IH in H as (occ & -> & Hd' & Hk & ->).
      2:{ rewrite map_app, length_app, seq_app, Hd. reflexivity. }
      rewrite map_app in Hk. simpl in Hk.
      exists (vertex :: occ). simpl. rewrite dict_get_seen, E.
      split; [reflexivity|]. split; [exact Hd'|]. split; [exact Hk|].
      rewrite <- app_assoc. simpl. do 2 f_equal.
      destruct (firstSeenFrom_extends UvVertex_eq occ (map fst d ++ [vertex]))
        as (ext & Hext & _).
      rewrite Hk, Hext, <- app_assoc. rewrite indexOf_app_unseen.
      * simpl. rewrite UvVertex_eq_refl, length_map. lia.
      * rewrite dict_get_seen, E. reflexivity.
Qed.

Lemma occurrencesFrom_length (object : Object) (meshCopy : BlenderMesh)
    (materialIndex : nat) (face : TessFace) (vIndices : list nat) :
  forall k occ,
  occurrencesFrom object meshCopy materialIndex face k vIndices = Ok occ ->
  length occ = length vIndices.
Proof.
  induction vIndices as [|vIndex vIndices IH]; simpl; intros k occ H.
  - injection H as <-. reflexivity.
  - apply bind_Ok in H as (v & _ & H). apply bind_Ok in H as (more & Hmore & H).
    injection H as <-. simpl. f_equal. eapply IH, Hmore.
Qed.

(** The index list of a face as the face body computes it. *)
Lemma faceBody_indices (object : Object) (meshCopy : BlenderMesh) (materialIndex : nat)
    (face : TessFace) (d : list (UvVertex * nat)) (ind : list nat) d' ind' :
  faceBody object meshCopy materialIndex face d ind = Ok (d', ind') ->
  exists faceIndices,
    vertexLoop object meshCopy materialIndex face (face_vertices face) 0 d []
      = Ok (d', faceIndices)
    /\ 3 <= length faceIndices
    /\ ind' = ind ++ winding faceIndices.
Proof.
  unfold faceBody. intros H. apply bind_Ok in H as ([d1 fi] & Hloop & H).
  exists fi.
  apply bind_Ok in H as (i1 & H1 & H). apply bind_Ok in H as (i2 & H2 & H).
  apply bind_Ok in H as (i0 & H0 & H). apply getitem_Ok in H0, H1, H2.
  destruct fi as [|a [|b [|c more]]]; try discriminate.
  simpl in H0, H1, H2. injection H0 as ->. injection H1 as ->. injection H2 as ->.
  destruct more as [|e [|e' more]].
  - simpl in H. injection H as <- <-. split; [exact Hloop|]. split; [simpl; lia|].
    reflexivity.
  - simpl in H. injection H as <- <-. split; [exact Hloop|]. split; [simpl; lia|].
    simpl. rewrite <- app_assoc. reflexivity.
  - simpl in H. injection H as <- <-. split; [exact Hloop|]. split; [simpl; lia|].
    reflexivity.
Qed.

Lemma faceBody_spec (object : Object) (meshCopy : BlenderMesh) (materialIndex : nat)
    (face : TessFace) (d : list (UvVertex * nat)) (ind : list nat) d' ind' :
  map snd d = seq 0 (length d) ->
  faceBody object meshCopy materialIndex face d ind = Ok (d', ind') ->
  exists occ,
    faceOccurrences object meshCopy materialIndex face = Ok occ
    /\ map snd d' = seq 0 (length d')
    /\ map fst d' = firstSeenFrom UvVertex_eq (map fst d) occ
    /\ ind' = ind ++ winding (map (indexOf UvVertex_eq (map fst d')) occ).
Proof.
  intros Hd H. apply faceBody_indices in H as (fi & Hloop & _ & ->).
  apply vertexLoop_spec in Hloop as (occ & Hocc & Hd' & Hk & ->); [|exact Hd].
  exists occ. repeat split; assumption.
Qed.

Lemma winding_map (f : nat -> nat) (g : nat -> nat) (l : list nat) :
  (forall x, In x l -> f x = g x) -> winding (map f l) = winding (map g l).
Proof.
  intros H. rewrite (map_ext_in f g l H). reflexivity.
Qed.

(** The face loop of a material: the vertices of its faces in first-seen
    order, and for each face the positions of its vertices, wound. *)
Lemma tessfaceLoop_spec (object : Object) (meshCopy : BlenderMesh) (materialIndex : nat)
    (faces : list TessFace) :
  forall (d : list (UvVertex * nat)) (ind : list nat) d' ind',
  map snd d = seq 0 (length d) ->
  tessfaceLoop object meshCopy materialIndex faces d ind = Ok (d', ind') ->
  exists occs,
    Forall2 (fun face occ => faceOccurrences object meshCopy materialIndex face = Ok occ)
      (List.filter (fun face => materialIndex =? material_index face) faces) occs
    /\ map snd d' = seq 0 (length d')
    /\ map fst d' = firstSeenFrom UvVertex_eq (map fst d) (concat occs)
    /\ ind' = ind ++ flat_map (fun occ =>
                winding (map (indexOf UvVertex_eq (map fst d')) occ)) occs.
Proof.
  induction faces as [|face faces IH]; intros d ind d' ind' Hd H.
  - injection H as <- <-. exists []. simpl. rewrite app_nil_r. repeat split; auto.
  - simpl in H. simpl List.filter.
    destruct (materialIndex =? material_index face); simpl in H.
    + apply bind_Ok in H as ([d1 ind1] & Hface & H).
      apply (faceBody_spec _ _ _ _ _ _ _ _ Hd) in Hface as (occ & Hocc & Hd1 & Hk1 & ->).
      apply (IH _ _ _ _ Hd1) in H as (occs & Hoccs & Hd' & Hk & ->).
      exists (occ :: occs). split; [constructor; assumption|]. split; [exact Hd'|].
      split.
      * simpl. rewrite firstSeenFrom_app, <- Hk1. exact Hk.
      * rewrite <- app_assoc. simpl. do 2 f_equal.
        destruct (firstSeenFrom_extends UvVertex_eq (concat occs) (map fst d1))
          as (ext & Hext & _).
        rewrite Hk, Hext. f_equal. symmetry. apply map_indexOf_app.
        rewrite Hk1. apply firstSeenFrom_all_seen, UvVertex_eq_refl.
    + apply (IH _ _ _ _ Hd) in H. exact H.
Qed.

Lemma winding_incl (l : list nat) (i : nat) : In i (winding l) -> In i l.
Proof.
  destruct l as [|a [|b [|c more]]]; simpl; try tauto.
  destruct more as [|e [|e' more]]; simpl; intuition.
Qed.

(** The partition of a material, in terms of the vertices of its faces. *)
Lemma materialBody_spec (self : NodeWriter) (object : Object) (meshCopy : BlenderMesh)
    (materialIndex : nat) (mesh : Mesh) :
  materialBody self object meshCopy materialIndex = Ok mesh ->
  exists occs,
    Forall2 (fun face occ => faceOccurrences object meshCopy materialIndex face = Ok occ)
      (facesOf meshCopy materialIndex) occs
    /\ vertices mesh = firstSeen UvVertex_eq (concat occs)
    /\ indices mesh =
       flat_map (fun occ => winding (map (indexOf UvVertex_eq (vertices mesh)) occ)) occs.
Proof.
  unfold materialBody. intros H. apply bind_Ok in H as (slot & _ & H).
  destruct slot as [material|]; [|discriminate].
  destruct (startswith (mat_name material) "__"); [discriminate|].
  apply bind_Ok in H as ([d ind] & Hloop & H). apply bind_Ok in H as (id & _ & H).
  injection H as <-. simpl.
  apply tessfaceLoop_spec in Hloop as (occs & Hoccs & Hd & Hk & ->); [|reflexivity].
  unfold items. rewrite (sorted_counting snd d 0) by (rewrite Hd; reflexivity).
  exists occs. split; [exact Hoccs|]. split; [exact Hk|]. rewrite Hk. reflexivity.
Qed.

(** ** C6: winding of triangles and quads *)

Lemma vertexLoop_lookup (object : Object) (meshCopy : BlenderMesh) (materialIndex : nat)
    (face : TessFace) (vIndices : list nat) :
  forall (k : nat) (d : list (UvVertex * nat)) (fi : list nat) d' fi',
  vertexLoop object meshCopy materialIndex face vIndices k d fi = Ok (d', fi') ->
  exists occ new ext,
    occurrencesFrom object meshCopy materialIndex face k vIndices = Ok occ
    /\ fi' = fi ++ new /\ d' = d ++ ext
    /\ Forall2 (fun vertex i => dict_get UvVertex_eq d' vertex = Some i) occ new.
Proof.
  induction vIndices as [|vIndex vIndices IH]; intros k d fi d' fi' H.
  - injection H as <- <-. exists [], [], []. rewrite !app_nil_r.
    repeat split; constructor.
  - rewrite vertexLoop_cons in H. apply bind_Ok in H as (vertex & Hv & H).
    simpl occurrencesFrom. rewrite Hv. simpl bind.
    destruct (dict_get UvVertex_eq d vertex) as [i|] eqn:E.
    + apply IH in H as (occ & new & ext & -> & -> & -> & Hall).
      exists (vertex :: occ), (i :: new), ext. rewrite <- app_assoc.
      repeat split. constructor; [|exact Hall]. apply dict_get_app_Some, E.
    + apply IH in H as (occ & new & ext & -> & -> & -> & Hall).
      exists (vertex :: occ), (length d :: new), ((vertex, length d) :: ext).
      rewrite <- !app_assoc in *. simpl app in *. repeat split.
      constructor; [|exact Hall].
      rewrite (dict_get_app_None _ _ _ _ E). simpl. rewrite UvVertex_eq_refl.
      reflexivity.
Qed.

(** C6.  A face of three vertices whose indices are [a], [b], [c] in the
    order of the face adds [b; c; a] to the index list, and a face of four
    vertices with indices [a], [b], [c], [e] adds [b; c; a] and then
    [c; e; a]; the index of a face vertex is the one the vertex dictionary
    has for the vertex built from it. *)
Theorem faceBody_winding (object : Object) (meshCopy : BlenderMesh) (materialIndex : nat)
    (face : TessFace) (vertices : list (UvVertex * nat)) (indices : list nat)
    (vertices' : list (UvVertex * nat)) (indices' : list nat) :
  faceBody object meshCopy materialIndex face vertices indices = Ok (vertices', indices') ->
  exists (occ : list UvVertex) (faceIndices : list nat),
    faceOccurrences object meshCopy materialIndex face = Ok occ
    /\ Forall2 (fun vertex i => dict_get UvVertex_eq vertices' vertex = Some i)
         occ faceIndices
    /\ (length (face_vertices face) = 3 ->
        exists a b c, faceIndices = [a; b; c] /\ indices' = indices ++ [b; c; a])
    /\ (length (face_vertices face) = 4 ->
        exists a b c e,
          faceIndices = [a; b; c; e] /\ indices' = indices ++ [b; c; a; c; e; a]).
Proof.
  intros H. apply faceBody_indices in H as (fi & Hloop & _ & ->).
  apply vertexLoop_lookup in Hloop as (occ & new & ext & Hocc & -> & -> & Hall).
  exists occ, new. split; [exact Hocc|]. split; [exact Hall|].
  pose proof (occurrencesFrom_length _ _ _ _ _ _ _ Hocc) as Hlen.
  pose proof (Forall2_length _ _ _ Hall) as Hlen'. simpl app.
  split; intros H3; rewrite H3 in Hlen; rewrite Hlen in Hlen'.
  - destruct new as [|a [|b [|c [|e more]]]]; try discriminate. eauto.
  - destruct new as [|a [|b [|c [|e [|e' more]]]]]; try discriminate.
    exists a, b, c, e. split; reflexivity.
Qed.

(** ** C3: the fallback uv *)

Lemma div_Ok (a b q : Q) : div a b = Ok q -> q = (a / b)%Q /\ ~ (b == 0)%Q.
Proof.
  unfold div. destruct (Qeq_bool b 0) eqn:E; [discriminate|]. intros H.
  injection H as <-. split; [reflexivity|]. intros Hb.
  apply Qeq_bool_iff in Hb. congruence.
Qed.

(** C3, amended.  Without uv layer the uv of a face vertex is computed from
    the position of the vertex after the world matrix of the object has
    been applied to it (and before the axes are converted): its x and y
    divided by the x and y dimensions of the object, then, if the material
    has a texture slot, multiplied by the scale of the slot and moved by
    its offset. *)
Theorem faceVertex_fallback_uv (object : Object) (meshCopy : BlenderMesh)
    (materialIndex : nat) (face : TessFace) (vertexIndexForFace vIndex : nat)
    (vertex : UvVertex) :
  tessface_uv_active meshCopy = None ->
  faceVertex object meshCopy materialIndex face vertexIndexForFace vIndex = Ok vertex ->
  exists (v : MeshVertex) (material : Material),
    mesh_vertices meshCopy !! vIndex = Some v
    /\ materials meshCopy !! materialIndex = Some (Some material)
    /\ ~ (x3 (dimensions (data object)) == 0)%Q
    /\ ~ (y3 (dimensions (data object)) == 0)%Q
    /\ let position := Matrix_mul_vec (matrix_world (data object)) (mv_co v) in
       let size := dimensions (data object) in
       uv vertex =
       match getActiveMaterialTextureSlot material with
       | Some textureSlot =>
           (x3 position / x3 size * x3 (scale textureSlot) + x3 (offset textureSlot),
            y3 position / y3 size * y3 (scale textureSlot) + y3 (offset textureSlot))%Q
       | None => (x3 position / x3 size, y3 position / y3 size)%Q
       end.
Proof.
  unfold faceVertex. intros -> H. apply bind_Ok in H as (v & Hv & H).
  apply getitem_Ok in Hv. apply bind_Ok in H as (uv0 & Huv & H). injection H as <-.
  unfold calculateUvs in Huv.
  apply bind_Ok in Huv as (x & Hx & Huv). apply bind_Ok in Huv as (y & Hy & Huv).
  apply bind_Ok in Huv as (slot & Hslot & Huv). apply getitem_Ok in Hslot.
  apply div_Ok in Hx as [-> Hx], Hy as [-> Hy].
  destruct slot as [material|]; [|discriminate].
  exists v, material. repeat split; try assumption. simpl.
  destruct (getActiveMaterialTextureSlot material); injection Huv as <-; reflexivity.
Qed.
(** ** C5: deduplication of vertices, with NaN *)

Section NumberingFacts.
Context {A : Type} (eqb : A -> A -> bool).
Hypothesis eqb_sym : forall a b, eqb a b = true -> eqb b a = true.
Hypothesis eqb_trans : forall a b c, eqb a b = true -> eqb b c = true -> eqb a c = true.

Lemma numberingFrom_length (l acc : list A) :
  length (numberingFrom eqb acc l) = length l.
Proof.
  revert acc. induction l as [|x l IH]; intros acc; [reflexivity|].
  cbn [numberingFrom length]. rewrite IH. reflexivity.
Qed.

Lemma numberingFrom_app (l1 l2 acc : list A) :
  numberingFrom eqb acc (l1 ++ l2)
  = numberingFrom eqb acc l1 ++ numberingFrom eqb (firstSeenFrom eqb acc l1) l2.
Proof.
  revert acc. induction l1 as [|x l1 IH]; intros acc; [reflexivity|].
  cbn [app numberingFrom firstSeenFrom]. rewrite IH. reflexivity.
Qed.

(** At its number an element finds itself or an entry equal to it. *)
Lemma numbering_entry (l : list A) :
  forall acc p v i,
  l !! p = Some v -> numberingFrom eqb acc l !! p = Some i ->
  exists u, firstSeenFrom eqb acc l !! i = Some u /\ (u = v \/ eqb u v = true).
Proof.
  induction l as [|x l IH]; intros acc p v i Hv Hi; [discriminate|].
  cbn [numberingFrom firstSeenFrom] in *. destruct p as [|p]; lookup_cons.
  - injection Hv as ->. injection Hi as <-.
    destruct (firstSeenFrom_extends eqb l (if seen eqb acc v then acc else acc ++ [v]))
      as (ext & -> & _).
    destruct (seen eqb acc v) eqn:E.
    + destruct (indexOf_seen eqb acc v E) as (u & Hu & Huv). exists u.
      split; [apply lookup_app_l_Some, Hu | right; exact Huv].
    + exists v. rewrite (indexOf_unseen eqb acc v E). split; [|left; reflexivity].
      apply lookup_app_l_Some. rewrite lookup_app_r by lia.
      rewrite Nat.sub_diag. reflexivity.
  - exact (IH _ _ _ _ Hv Hi).
Qed.

(** An element equal to an entry gets the position of that entry. *)
Lemma numbering_seen (l : list A) :
  forall acc q x,
  seen eqb acc x = true -> l !! q = Some x ->
  numberingFrom eqb acc l !! q = Some (indexOf eqb acc x).
Proof.
  induction l as [|y l IH]; intros acc q x Hseen Hx; [discriminate|].
  cbn [numberingFrom]. destruct q as [|q]; lookup_cons.
  - injection Hx as ->. reflexivity.
  - destruct (seen eqb acc y).
    + exact (IH _ _ _ Hseen Hx).
    + rewrite (IH (acc ++ [y]) q x); [|rewrite seen_app, Hseen; reflexivity | exact Hx].
      rewrite (indexOf_app eqb _ _ _ Hseen). reflexivity.
Qed.

(** An element whose number is the position of an entry is equal to that
    entry. *)
Lemma numbering_old (l : list A) :
  forall acc q w i u,
  acc !! i = Some u -> l !! q = Some w -> numberingFrom eqb acc l !! q = Some i ->
  eqb u w = true.
Proof.
  induction l as [|y l IH]; intros acc q w i u Hu Hw Hi; [discriminate|].
  cbn [numberingFrom] in Hi. destruct q as [|q]; lookup_cons.
  - injection Hw as ->. injection Hi as <-.
    destruct (seen eqb acc w) eqn:E.
    + destruct (indexOf_seen eqb acc w E) as (y & Hy & Hyw). congruence.
    + rewrite (indexOf_unseen eqb acc w E) in Hu. apply lookup_lt_Some in Hu. lia.
  - refine (IH _ _ _ _ _ _ Hw Hi).
    destruct (seen eqb acc y); [exact Hu | apply lookup_app_l_Some, Hu].
Qed.

(** After an element, the elements equal to it are seen, at its number. *)
Lemma numbering_step (acc : list A) (x w : A) :
  eqb x w = true ->
  seen eqb (if seen eqb acc x then acc else acc ++ [x]) w = true
  /\ indexOf eqb (if seen eqb acc x then acc else acc ++ [x]) w = indexOf eqb acc x.
Proof.
  intros Hxw. destruct (seen eqb acc x) eqn:E.
  - rewrite <- (seen_compat eqb eqb_sym eqb_trans acc x w Hxw), E.
    rewrite (indexOf_compat eqb eqb_sym eqb_trans acc x w Hxw). split; reflexivity.
  - assert (Ew : seen eqb acc w = false)
      by (rewrite <- (seen_compat eqb eqb_sym eqb_trans acc x w Hxw); exact E).
    rewrite seen_app, (indexOf_app_unseen eqb _ _ _ Ew), (indexOf_unseen eqb _ _ E).
    cbn [seen existsb indexOf]. rewrite Hxw, orb_true_r. split; [reflexivity | lia].
Qed.

(** Two elements have one number exactly when they are one occurrence or
    equal. *)
Lemma numbering_same (l : list A) :
  forall acc p q v w i j,
  l !! p = Some v -> l !! q = Some w ->
  numberingFrom eqb acc l !! p = Some i -> numberingFrom eqb acc l !! q = Some j ->
  i = j <-> p = q \/ eqb v w = true.
Proof.
  induction l as [|x l IH]; intros acc p q v w i j Hv Hw Hi Hj; [discriminate|].
  cbn [numberingFrom] in Hi, Hj. destruct p as [|p], q as [|q]; lookup_cons.
  - injection Hi as <-. injection Hj as <-. split; auto.
  - injection Hv as ->. injection Hi as <-. split.
    + intros Hij. right. subst j.
      destruct (seen eqb acc v) eqn:E.
      * destruct (indexOf_seen eqb acc v E) as (u & Hu & Huv).
        pose proof (numbering_old _ _ _ _ _ _ Hu Hw Hj) as Huw.
        exact (eqb_trans _ _ _ (eqb_sym _ _ Huv) Huw).
      * refine (numbering_old _ _ _ _ _ _ _ Hw Hj).
        rewrite (indexOf_unseen eqb acc v E), lookup_app_r by lia.
        rewrite Nat.sub_diag. reflexivity.
    + intros [Hpq|Hvw]; [discriminate|].
      destruct (numbering_step acc v w Hvw) as [Hseen Hindex].
      rewrite (numbering_seen _ _ _ _ Hseen Hw), Hindex in Hj. congruence.
  - injection Hw as ->. injection Hj as <-. split.
    + intros Hij. right. subst i. apply eqb_sym.
      destruct (seen eqb acc w) eqn:E.
      * destruct (indexOf_seen eqb acc w E) as (u & Hu & Huw).
        pose proof (numbering_old _ _ _ _ _ _ Hu Hv Hi) as Huv.
        exact (eqb_trans _ _ _ (eqb_sym _ _ Huw) Huv).
      * refine (numbering_old _ _ _ _ _ _ _ Hv Hi).
        rewrite (indexOf_unseen eqb acc w E), lookup_app_r by lia.
        rewrite Nat.sub_diag. reflexivity.
    + intros [Hpq|Hvw]; [discriminate|]. apply eqb_sym in Hvw.
      destruct (numbering_step acc w v Hvw) as [Hseen Hindex].
      rewrite (numbering_seen _ _ _ _ Hseen Hv), Hindex in Hi. congruence.
  - rewrite (IH _ _ _ _ _ _ _ Hv Hw Hi Hj). split; intros [H|H]; auto; left; lia.
Qed.
End NumberingFacts.

(** *** Equality of vertices with NaN *)

Lemma Floats_ne_false (a b : Floats.float) :
  Floats.ne a b = false <-> exists p q, a = Floats.Num p /\ b = Floats.Num q /\ (p == q)%Q.
Proof.
  destruct a as [p|], b as [q|]; cbn [Floats.ne].
  - rewrite negb_false_iff, Qeq_bool_iff. split.
    + intros H. exists p, q. auto.
    + intros (p' & q' & Hp & Hq & H). injection Hp as ->. injection Hq as ->. exact H.
  - split; [discriminate | intros (? & ? & _ & ? & _); discriminate].
  - split; [discriminate | intros (? & ? & ? & _); discriminate].
  - split; [discriminate | intros (? & ? & ? & _); discriminate].
Qed.

Lemma Floats_ne_sym (a b : Floats.float) :
  Floats.ne a b = false -> Floats.ne b a = false.
Proof.
  rewrite !Floats_ne_false. intros (p & q & -> & -> & H). exists q, p.
  repeat split. symmetry. exact H.
Qed.

Lemma Floats_ne_trans (a b c : Floats.float) :
  Floats.ne a b = false -> Floats.ne b c = false -> Floats.ne a c = false.
Proof.
  rewrite !Floats_ne_false. intros (p & q & -> & -> & H) (q' & r & Hq & -> & H').
  injection Hq as <-. exists p, r. repeat split. etransitivity; eassumption.
Qed.

Lemma Floats_ne_self (a : Floats.float) : Floats.ne a a = Floats.isNaN a.
Proof.
  destruct a as [p|]; [|reflexivity]. cbn [Floats.ne Floats.isNaN].
  apply negb_false_iff, Qeq_bool_iff. reflexivity.
Qed.

(** [__eq__] holds when none of the eleven comparisons finds a
    difference. *)
Lemma Floats_UvVertex_eq_true (v w : Floats.UvVertex) :
  Floats.UvVertex_eq v w = true <->
  Floats.ne (Floats.x3 (Floats.co v)) (Floats.x3 (Floats.co w)) = false
  /\ Floats.ne (Floats.y3 (Floats.co v)) (Floats.y3 (Floats.co w)) = false
  /\ Floats.ne (Floats.z3 (Floats.co v)) (Floats.z3 (Floats.co w)) = false
  /\ Floats.ne (Floats.x3 (Floats.normal v)) (Floats.x3 (Floats.normal w)) = false
  /\ Floats.ne (Floats.y3 (Floats.normal v)) (Floats.y3 (Floats.normal w)) = false
  /\ Floats.ne (Floats.z3 (Floats.normal v)) (Floats.z3 (Floats.normal w)) = false
  /\ Floats.ne (Floats.uv v).1 (Floats.uv w).1 = false
  /\ Floats.ne (Floats.uv v).2 (Floats.uv w).2 = false
  /\ Floats.ne (Floats.x3 (Floats.tangent v)) (Floats.x3 (Floats.tangent w)) = false
  /\ Floats.ne (Floats.y3 (Floats.tangent v)) (Floats.y3 (Floats.tangent w)) = false
  /\ Floats.ne (Floats.z3 (Floats.tangent v)) (Floats.z3 (Floats.tangent w)) = false.
Proof.
  unfold Floats.UvVertex_eq. split.
  - intros H.
    repeat match type of H with
    | context [Floats.ne ?a ?b] =>
        let E := fresh "E" in
        destruct (Floats.ne a b) eqn:E; cbn [orb] in H; [discriminate|]
    end.
    repeat split; reflexivity.
  - intros H. repeat match goal with H : _ /\ _ |- _ => destruct H end.
    repeat match goal with H : Floats.ne _ _ = false |- _ => rewrite H; clear H end.
    reflexivity.
Qed.

Lemma Floats_UvVertex_eq_sym (v w : Floats.UvVertex) :
  Floats.UvVertex_eq v w = true -> Floats.UvVertex_eq w v = true.
Proof.
  rewrite !Floats_UvVertex_eq_true. intros H.
  repeat match goal with H : _ /\ _ |- _ => destruct H end.
  repeat split; apply Floats_ne_sym; assumption.
Qed.

Lemma Floats_UvVertex_eq_trans (u v w : Floats.UvVertex) :
  Floats.UvVertex_eq u v = true -> Floats.UvVertex_eq v w = true ->
  Floats.UvVertex_eq u w = true.
Proof.
  rewrite !Floats_UvVertex_eq_true. intros H1 H2.
  repeat match goal with H : _ /\ _ |- _ => destruct H end.
  repeat split; eapply Floats_ne_trans; eassumption.
Qed.

(** A vertex is equal to itself exactly when none of its components is
    NaN. *)
Lemma Floats_UvVertex_eq_self (v : Floats.UvVertex) :
  Floats.UvVertex_eq v v = negb (Floats.hasNaN v).
Proof.
  unfold Floats.UvVertex_eq, Floats.hasNaN. rewrite !Floats_ne_self.
  repeat match goal with
  | |- context [if ?a || ?b || ?c then false else _] =>
      destruct (a || b || c); cbn [orb negb]; [reflexivity|]
  | |- context [if ?a || ?b then false else _] =>
      destruct (a || b); cbn [orb negb]; [reflexivity|]
  end.
  reflexivity.
Qed.

(** *** The partitioner *)

(** One step of the vertex loop: a vertex equal to a key has the index of
    that key, any other vertex gets the next index and an entry of its
    own. *)
Lemma Floats_vertexLoop_cons (object : Floats.Object) (meshCopy : Floats.BlenderMesh)
    (materialIndex : nat) (face : TessFace) (vIndex : nat) (vIndices : list nat)
    (k : nat) (d : list (Floats.UvVertex * nat)) (fi : list nat) :
  Floats.vertexLoop object meshCopy materialIndex face (vIndex :: vIndices) k d fi =
  let* vertex := Floats.faceVertex object meshCopy materialIndex face k vIndex in
  match dict_get Floats.UvVertex_eq d vertex with
  | Some i =>
      Floats.vertexLoop object meshCopy materialIndex face vIndices (k + 1) d (fi ++ [i])
  | None =>
      Floats.vertexLoop object meshCopy materialIndex face vIndices (k + 1)
        (d ++ [(vertex, length d)]) (fi ++ [length d])
  end.
Proof.
  cbn [Floats.vertexLoop].
  destruct (Floats.faceVertex object meshCopy materialIndex face k vIndex)
    as [vertex| |]; cbn [bind]; try reflexivity.
  unfold dict_in. destruct (dict_get Floats.UvVertex_eq d vertex) eqn:E; cbn [negb].
  - reflexivity.
  - rewrite (dict_set_absent _ _ _ _ E). reflexivity.
Qed.

(** The vertex loop keeps the keys in first-seen order and numbers the
    face vertices in turn. *)
Lemma Floats_vertexLoop_numbering (object : Floats.Object)
    (meshCopy : Floats.BlenderMesh) (materialIndex : nat) (face : TessFace)
    (vIndices : list nat) :
  forall (k : nat) (d : list (Floats.UvVertex * nat)) (fi : list nat) d' fi',
  map snd d = seq 0 (length d) ->
  Floats.vertexLoop object meshCopy materialIndex face vIndices k d fi = Ok (d', fi') ->
  exists occ,
    Floats.occurrencesFrom object meshCopy materialIndex face k vIndices = Ok occ
    /\ map snd d' = seq 0 (length d')
    /\ map fst d' = firstSeenFrom Floats.UvVertex_eq (map fst d) occ
    /\ fi' = fi ++ numberingFrom Floats.UvVertex_eq (map fst d) occ.
Proof.
  induction vIndices as [|vIndex vIndices IH]; intros k d fi d' fi' Hd H.
  - injection H as <- <-. exists []. cbn. rewrite app_nil_r. auto.
  - rewrite Floats_vertexLoop_cons in H. apply bind_Ok in H as (vertex & Hv & H).
    cbn [Floats.occurrencesFrom]. rewrite Hv. cbn [bind].
    destruct (dict_get Floats.UvVertex_eq d vertex) as [i|] eqn:E.
    + apply IH in H as (occ & -> & Hd' & Hk & ->); [|exact Hd].
      exists (vertex :: occ). cbn [bind firstSeenFrom numberingFrom].
      rewrite dict_get_seen, E.
      split; [reflexivity|]. split; [exact Hd'|]. split; [exact Hk|].
      rewrite <- app_assoc. cbn [app]. do 2 f_equal.
      destruct (dict_get_counting _ _ _ _ _ Hd E) as [-> _]. reflexivity.
    + apply IH in H as (occ & -> & Hd' & Hk & ->).
      2:{ rewrite map_app, length_app, seq_app, Hd. reflexivity. }
      rewrite map_app in Hk. cbn [map fst] in Hk.
      exists (vertex :: occ). cbn [bind firstSeenFrom numberingFrom].
      assert (Eseen : seen Floats.UvVertex_eq (map fst d) vertex = false)
        by (rewrite dict_get_seen, E; reflexivity).
      rewrite Eseen.
      split; [reflexivity|]. split; [exact Hd'|]. split; [exact Hk|].
      rewrite <- app_assoc. cbn [app]. do 2 f_equal.
      * rewrite (indexOf_unseen _ _ _ Eseen), length_map. reflexivity.
      * rewrite map_app. reflexivity.
Qed.

(** The index list of a face as the face body computes it. *)
Lemma Floats_faceBody_indices (object : Floats.Object) (meshCopy : Floats.BlenderMesh)
    (materialIndex : nat) (face : TessFace) (d : list (Floats.UvVertex * nat))
    (ind : list nat) d' ind' :
  Floats.faceBody object meshCopy materialIndex face d ind = Ok (d', ind') ->
  exists faceIndices,
    Floats.vertexLoop object meshCopy materialIndex face (face_vertices face) 0 d []
      = Ok (d', faceIndices)
    /\ ind' = ind ++ winding faceIndices.
Proof.
  unfold Floats.faceBody. intros H. apply bind_Ok in H as ([d1 fi] & Hloop & H).
  exists fi.
  apply bind_Ok in H as (i1 & H1 & H). apply bind_Ok in H as (i2 & H2 & H).
  apply bind_Ok in H as (i0 & H0 & H). apply getitem_Ok in H0, H1, H2.
  destruct fi as [|a [|b [|c more]]]; try discriminate.
  lookup_cons. injection H0 as ->. injection H1 as ->. injection H2 as ->.
  destruct more as [|e [|e' more]].
  - cbn in H. injection H as <- <-. split; [exact Hloop | reflexivity].
  - cbn in H. injection H as <- <-. split; [exact Hloop|].
    cbn [winding]. rewrite <- app_assoc. reflexivity.
  - cbn in H. injection H as <- <-. split; [exact Hloop | reflexivity].
Qed.

(** The face loop of a material: the keys are the vertices of its faces in
    first-seen order, and each face is wound over the numbers of its
    vertices. *)
Lemma Floats_tessfaceLoop_numbering (object : Floats.Object)
    (meshCopy : Floats.BlenderMesh) (materialIndex : nat) (faces : list TessFace) :
  forall (d : list (Floats.UvVertex * nat)) (ind : list nat) d' ind',
  map snd d = seq 0 (length d) ->
  Floats.tessfaceLoop object meshCopy materialIndex faces d ind = Ok (d', ind') ->
  exists occs numbers,
    Forall2 (fun face occ =>
               Floats.faceOccurrences object meshCopy materialIndex face = Ok occ)
      (List.filter (fun face => materialIndex =? material_index face) faces) occs
    /\ Forall2 (fun occ number => length number = length occ) occs numbers
    /\ concat numbers = numberingFrom Floats.UvVertex_eq (map fst d) (concat occs)
    /\ map snd d' = seq 0 (length d')
    /\ map fst d' = firstSeenFrom Floats.UvVertex_eq (map fst d) (concat occs)
    /\ ind' = ind ++ flat_map winding numbers.
Proof.
  induction faces as [|face faces IH]; intros d ind d' ind' Hd H.
  - injection H as <- <-. exists [], []. cbn. rewrite app_nil_r.
    repeat split; auto; constructor.
  - cbn [Floats.tessfaceLoop] in H. cbn [List.filter].
    destruct (materialIndex =? material_index face); cbn [negb] in H.
    + apply bind_Ok in H as ([d1 ind1] & Hface & H).
      apply Floats_faceBody_indices in Hface as (fi & Hloop & ->).
      apply (Floats_vertexLoop_numbering _ _ _ _ _ _ _ _ _ _ Hd) in Hloop
        as (occ & Hocc & Hd1 & Hk1 & ->).
      apply (IH _ _ _ _ Hd1) in H as (occs & numbers & Hoccs & Hlen & Hnum & Hd' & Hk & ->).
      exists (occ :: occs), (numberingFrom Floats.UvVertex_eq (map fst d) occ :: numbers).
      split; [constructor; assumption|].
      split; [constructor; [apply numberingFrom_length | exact Hlen]|].
      cbn [concat flat_map]. rewrite numberingFrom_app, firstSeenFrom_app, <- Hk1.
      split; [rewrite Hnum; reflexivity|]. split; [exact Hd'|]. split; [exact Hk|].
      rewrite app_nil_l, <- app_assoc. reflexivity.
    + apply (IH _ _ _ _ Hd) in H. exact H.
Qed.

(** The partition of a material, in terms of the vertices of its faces. *)
Lemma Floats_materialBody_numbering (materialPositions : gmap string Value)
    (object : Floats.Object) (meshCopy : Floats.BlenderMesh) (materialIndex : nat)
    (mesh : Floats.Mesh) :
  Floats.materialBody materialPositions object meshCopy materialIndex = Ok mesh ->
  exists occs numbers,
    Forall2 (fun face occ =>
               Floats.faceOccurrences object meshCopy materialIndex face = Ok occ)
      (Floats.facesOf meshCopy materialIndex) occs
    /\ Forall2 (fun occ number => length number = length occ) occs numbers
    /\ concat numbers = numberingFrom Floats.UvVertex_eq [] (concat occs)
    /\ Floats.vertices mesh = firstSeen Floats.UvVertex_eq (concat occs)
    /\ Floats.indices mesh = flat_map winding numbers.
Proof.
  unfold Floats.materialBody. intros H. apply bind_Ok in H as (slot & _ & H).
  destruct slot as [material|]; [|discriminate].
  destruct (startswith (Floats.mat_name material) "__"); [discriminate|].
  apply bind_Ok in H as ([d ind] & Hloop & H). apply bind_Ok in H as (id & _ & H).
  injection H as <-. cbn [Floats.vertices Floats.indices].
  apply Floats_tessfaceLoop_numbering in Hloop
    as (occs & numbers & Hoccs & Hlen & Hnum & Hd & Hk & ->); [|reflexivity].
  unfold items. rewrite (sorted_counting snd d 0) by (rewrite Hd; reflexivity).
  exists occs, numbers. repeat split; assumption.
Qed.

(** C5, amended.  In each partition that [splitObjectByMaterials] returns,
    the face vertices of the material are numbered in turn and the faces
    are wound over these numbers.  Two face vertices have one number
    exactly when they are one occurrence or equal under [__eq__]; so two
    occurrences with identical components share one entry exactly when no
    component is NaN, and a vertex with a NaN component gets an entry of
    its own each time it occurs.  At its number an occurrence finds itself
    or an entry equal to it; the vertex list holds, in first-seen order,
    the occurrences that are equal to none before them; no two entries are
    equal; and every index is a position of the vertex list. *)
Theorem splitObjectByMaterials_dedup (set_iter : list nat -> list nat)
    (materialPositions : gmap string Value) (object : Floats.Object)
    (meshes : list Floats.Mesh) :
  Floats.splitObjectByMaterials set_iter materialPositions object = Ok meshes ->
  Forall2 (fun materialIndex mesh =>
    exists (occs : list (list Floats.UvVertex)) (numbers : list (list nat)),
      Forall2 (fun face occ =>
                 Floats.faceOccurrences object (Floats.to_mesh object) materialIndex face
                 = Ok occ)
        (Floats.facesOf (Floats.to_mesh object) materialIndex) occs
      /\ Forall2 (fun occ number => length number = length occ) occs numbers
      /\ Floats.indices mesh = flat_map winding numbers
      /\ Floats.vertices mesh = firstSeen Floats.UvVertex_eq (concat occs)
      /\ (forall p q v w i j,
            concat occs !! p = Some v -> concat occs !! q = Some w ->
            concat numbers !! p = Some i -> concat numbers !! q = Some j ->
            (i = j <-> p = q \/ Floats.UvVertex_eq v w = true)
            /\ (v = w -> (i = j <-> p = q \/ Floats.hasNaN v = false))
            /\ exists u, Floats.vertices mesh !! i = Some u
                         /\ (u = v \/ Floats.UvVertex_eq u v = true))
      /\ (forall i j u u',
            Floats.vertices mesh !! i = Some u -> Floats.vertices mesh !! j = Some u' ->
            Floats.UvVertex_eq u u' = true -> i = j)
      /\ Forall (fun i => i < length (Floats.vertices mesh)) (Floats.indices mesh))
    (set_iter (map material_index (Floats.tessfaces (Floats.to_mesh object)))) meshes.
Proof.
  unfold Floats.splitObjectByMaterials. intros H.
  destruct (length (Floats.materials (Floats.to_mesh object)) =? 0); [discriminate|].
  apply comprehension_Forall2 in H. eapply Forall2_impl; [exact H|].
  intros materialIndex mesh Hmesh. cbv beta in Hmesh.
  apply Floats_materialBody_numbering in Hmesh
    as (occs & numbers & Hoccs & Hlen & Hnum & Hv & Hi).
  exists occs, numbers. split; [exact Hoccs|]. split; [exact Hlen|].
  split; [exact Hi|]. split; [exact Hv|].
  assert (Hentry : forall p v i,
            concat occs !! p = Some v -> concat numbers !! p = Some i ->
            exists u, Floats.vertices mesh !! i = Some u
                      /\ (u = v \/ Floats.UvVertex_eq u v = true)).
  { intros p v i Hp Hn. rewrite Hnum in Hn. rewrite Hv.
    exact (numbering_entry _ _ _ _ _ _ Hp Hn). }
  split; [|split].
  - intros p q v w i j Hp Hq Hpi Hqj.
    assert (Hsame : i = j <-> p = q \/ Floats.UvVertex_eq v w = true).
    { rewrite Hnum in Hpi, Hqj.
      exact (numbering_same _ Floats_UvVertex_eq_sym Floats_UvVertex_eq_trans
               _ _ _ _ _ _ _ _ Hp Hq Hpi Hqj). }
    split; [exact Hsame|]. split; [|exact (Hentry p v i Hp Hpi)].
    intros <-. rewrite Hsame, Floats_UvVertex_eq_self, negb_true_iff. reflexivity.
  - rewrite Hv. apply firstSeen_distinct. apply Floats_UvVertex_eq_sym.
  - rewrite Hi. apply List.Forall_forall. intros i Hin.
    apply in_flat_map in Hin as (number & Hnumber & Hin). apply winding_incl in Hin.
    assert (Hcat : In i (concat numbers)) by (apply in_concat; eauto).
    apply list_elem_of_In, list_elem_of_lookup in Hcat as [p Hpi].
    assert (Hp : p < length (concat occs)).
    { apply lookup_lt_Some in Hpi.
      rewrite Hnum, numberingFrom_length in Hpi. exact Hpi. }
    apply lookup_lt_is_Some in Hp as [v Hp].
    destruct (Hentry p v i Hp Hpi) as (u & Hu & _).
    eapply lookup_lt_Some, Hu.
Qed.

(** ** C9: node settings *)

Lemma getNodeValue_supplied (rule : NodeSettings) (config : gmap string Value) (f : Field) :
  nodeConfig rule = Ok config ->
  getNodeValue rule (field_key f) = Ok (supplied rule f).
Proof.
  unfold getNodeValue, supplied, nodeConfig.
  destruct (nodes (ns_settings rule)) as [ns|]; [|discriminate].
  destruct (dict_get String.eqb ns (nodeSettingsKey rule)) as [c|]; [|discriminate].
  intros H. injection H as <-. simpl.
  destruct (c !! field_key f); reflexivity.
Qed.

Lemma get_field_set_lodIn (f : Field) (b : bool) (node : NodeProperties) (v : Value) :
  get_field f (if b then set_lodIn node v else node) =
  if b && bool_decide (f = FLodIn) then v else get_field f node.
Proof. destruct b, f; reflexivity. Qed.

Lemma np_name_set_lodIn (b : bool) (node : NodeProperties) (v : Value) :
  np_name (if b then set_lodIn node v else node) = np_name node.
Proof. destruct b; reflexivity. Qed.

Lemma get_field_set_lodOut (f : Field) (b : bool) (node : NodeProperties) (v : Value) :
  get_field f (if b then set_lodOut node v else node) =
  if b && bool_decide (f = FLodOut) then v else get_field f node.
Proof. destruct b, f; reflexivity. Qed.

Lemma np_name_set_lodOut (b : bool) (node : NodeProperties) (v : Value) :
  np_name (if b then set_lodOut node v else node) = np_name node.
Proof. destruct b; reflexivity. Qed.

Lemma get_field_set_layer (f : Field) (b : bool) (node : NodeProperties) (v : Value) :
  get_field f (if b then set_layer node v else node) =
  if b && bool_decide (f = FLayer) then v else get_field f node.
Proof. destruct b, f; reflexivity. Qed.

Lemma np_name_set_layer (b : bool) (node : NodeProperties) (v : Value) :
  np_name (if b then set_layer node v else node) = np_name node.
Proof. destruct b; reflexivity. Qed.

Lemma get_field_set_castShadows (f : Field) (b : bool) (node : NodeProperties) (v : Value) :
  get_field f (if b then set_castShadows node v else node) =
  if b && bool_decide (f = FCastShadows) then v else get_field f node.
Proof. destruct b, f; reflexivity. Qed.

Lemma np_name_set_castShadows (b : bool) (node : NodeProperties) (v : Value) :
  np_name (if b then set_castShadows node v else node) = np_name node.
Proof. destruct b; reflexivity. Qed.

Lemma get_field_set_visible (f : Field) (b : bool) (node : NodeProperties) (v : Value) :
  get_field f (if b then set_visible node v else node) =
  if b && bool_decide (f = FVisible) then v else get_field f node.
Proof. destruct b, f; reflexivity. Qed.

Lemma np_name_set_visible (b : bool) (node : NodeProperties) (v : Value) :
  np_name (if b then set_visible node v else node) = np_name node.
Proof. destruct b; reflexivity. Qed.

Lemma get_field_set_transparent (f : Field) (b : bool) (node : NodeProperties) (v : Value) :
  get_field f (if b then set_transparent node v else node) =
  if b && bool_decide (f = FTransparent) then v else get_field f node.
Proof. destruct b, f; reflexivity. Qed.

Lemma np_name_set_transparent (b : bool) (node : NodeProperties) (v : Value) :
  np_name (if b then set_transparent node v else node) = np_name node.
Proof. destruct b; reflexivity. Qed.

Lemma get_field_set_renderable (f : Field) (b : bool) (node : NodeProperties) (v : Value) :
  get_field f (if b then set_renderable node v else node) =
  if b && bool_decide (f = FRenderable) then v else get_field f node.
Proof. destruct b, f; reflexivity. Qed.

Lemma np_name_set_renderable (b : bool) (node : NodeProperties) (v : Value) :
  np_name (if b then set_renderable node v else node) = np_name node.
Proof. destruct b; reflexivity. Qed.

(** What one rule does to a node. *)
Lemma applySettingsToNode_spec (rule : NodeSettings) (config : gmap string Value)
    (node : NodeProperties) :
  nodeConfig rule = Ok config ->
  exists node',
    applySettingsToNode rule node = Ok node'
    /\ np_name node' = np_name node
    /\ forall f, get_field f node' =
                 if defines (np_name node) f rule then supplied rule f
                 else get_field f node.
Proof.
  intros Hconfig. unfold applySettingsToNode, defines.
  destruct (doesNodeNameMatch rule (np_name node)); cbn [negb andb].
  2:{ exists node. repeat split. }
  unfold getNodeLodIn, getNodeLodOut, getNodeLayer, getNodeCastShadows,
    getNodeIsVisible, getNodeIsTransparent, getNodeIsRenderable.
  pose proof (fun f => getNodeValue_supplied rule config f Hconfig) as Hget.
  rewrite (Hget FLodIn : getNodeValue rule "lodIn" = _),
    (Hget FLodOut : getNodeValue rule "lodOut" = _),
    (Hget FLayer : getNodeValue rule "layer" = _),
    (Hget FCastShadows : getNodeValue rule "castShadows" = _),
    (Hget FVisible : getNodeValue rule "isVisible" = _),
    (Hget FTransparent : getNodeValue rule "isTransparent" = _),
    (Hget FRenderable : getNodeValue rule "isRenderable" = _).
  cbn [bind]. eexists. split; [reflexivity|]. split.
  - rewrite np_name_set_renderable, np_name_set_transparent, np_name_set_visible,
      np_name_set_castShadows, np_name_set_layer, np_name_set_lodOut,
      np_name_set_lodIn. reflexivity.
  - intros f.
    rewrite get_field_set_renderable, get_field_set_transparent, get_field_set_visible,
      get_field_set_castShadows, get_field_set_layer, get_field_set_lodOut,
      get_field_set_lodIn.
    destruct f; cbn [bool_decide decide_rel Field_eq_dec];
      rewrite ?andb_false_r, ?andb_true_r; reflexivity.
Qed.

Lemma find_snoc {A} (p : A -> bool) (l : list A) (x : A) :
  find p (l ++ [x]) =
  match find p l with
  | Some y => Some y
  | None => if p x then Some x else None
  end.
Proof.
  induction l as [|y l IH]; simpl; [reflexivity|].
  destruct (p y); [reflexivity | exact IH].
Qed.

(** The rules in order: for each field the last rule that defines it. *)
Lemma nodeSettingsLoop_spec (rules : list NodeSettings) :
  Forall (fun rule => exists config, nodeConfig rule = Ok config) rules ->
  forall node : NodeProperties,
  exists node',
    nodeSettingsLoop rules node = Ok node'
    /\ np_name node' = np_name node
    /\ forall f, get_field f node' =
                 match find (defines (np_name node) f) (rev rules) with
                 | Some rule => supplied rule f
                 | None => get_field f node
                 end.
Proof.
  induction 1 as [|rule rules [config Hconfig] _ IH]; intros node.
  - exists node. repeat split.
  - destruct (applySettingsToNode_spec rule config node Hconfig)
      as (node1 & Happly & Hname1 & Hfields1).
    destruct (IH node1) as (node' & Hloop & Hname & Hfields).
    exists node'. simpl. rewrite Happly. simpl.
    split; [exact Hloop|]. split; [congruence|].
    intros f. rewrite Hfields, Hname1, find_snoc.
    destruct (find (defines (np_name node) f) (rev rules)); [reflexivity|].
    rewrite Hfields1. destruct (defines (np_name node) f rule); reflexivity.
Qed.

(** Every rule of the writer finds its dictionary in the settings. *)
Lemma nodeSettings_config (re_compile : string -> bool -> Regex)
    (re_escape : string -> string) (self : NodeWriter) :
  Forall (fun rule => exists config, nodeConfig rule = Ok config)
    (nodeSettings re_compile re_escape self).
Proof.
  unfold nodeSettings, initNodeSettings.
  destruct (nodes (settings self)) as [ns|] eqn:Ens; [|constructor].
  apply List.Forall_forall. intros rule Hin.
  apply in_map_iff in Hin as ([key c] & <- & Hin).
  unfold nodeConfig, NodeSettings_init. simpl. rewrite Ens.
  assert (H : exists c', dict_get String.eqb ns key = Some c').
  { clear Ens. induction ns as [|[k' c'] ns IH]; [destruct Hin|]. simpl.
    destruct (String.eqb k' key) eqn:E; [eauto|].
    destruct Hin as [Heq|Hin]; [|exact (IH Hin)].
    injection Heq as -> _. rewrite String.eqb_refl in E. discriminate. }
  destruct H as [c' ->]. eauto.
Qed.

(** C9.  A rule of the writer applied to a node gives each of the seven
    attributes the value its configuration supplies, when the rule matches
    the name of the node and supplies one, and leaves the attribute as it
    is otherwise; the name is left as it is.  After the rules have been
    applied in the order of their declaration, each attribute has the value
    of the last rule that matches and supplies one, and the value the node
    started with when there is no such rule. *)
Theorem nodeSettings_last_rule_wins (re_compile : string -> bool -> Regex)
    (re_escape : string -> string) (self : NodeWriter) (object : Object) :
  let rules := nodeSettings re_compile re_escape self in
  (forall rule node, In rule rules ->
     exists node',
       applySettingsToNode rule node = Ok node'
       /\ np_name node' = np_name node
       /\ forall f, get_field f node' =
                    if defines (np_name node) f rule then supplied rule f
                    else get_field f node)
  /\ exists nodeProperties,
       nodeSettingsLoop rules (NodeProperties_init object) = Ok nodeProperties
       /\ np_name nodeProperties = name object
       /\ forall f, get_field f nodeProperties =
                    match find (defines (name object) f) (rev rules) with
                    | Some rule => supplied rule f
                    | None => get_field f (NodeProperties_init object)
                    end.
Proof.
  intros rules. pose proof (nodeSettings_config re_compile re_escape self) as Hconfig.
  fold rules in Hconfig. split.
  - intros rule node Hin. rewrite List.Forall_forall in Hconfig.
    destruct (Hconfig rule Hin) as [config Hc].
    exact (applySettingsToNode_spec rule config node Hc).
  - exact (nodeSettingsLoop_spec rules Hconfig (NodeProperties_init object)).
Qed.

(** ** Python's [sorted] *)

Section Sorted.
Context {A : Type} (key : A -> nat).

Let le_key (a b : A) : Prop := key a <= key b.

Lemma sorted_insert_perm (x : A) (l : list A) :
  Permutation (sorted_insert key x l) (x :: l).
Proof.
  induction l as [|y l IH]; simpl; [reflexivity|].
  destruct (key x <=? key y); [reflexivity|].
  rewrite IH. apply perm_swap.
Qed.

Lemma sorted_perm (l : list A) : Permutation (sorted key l) l.
Proof.
  induction l as [|x l IH]; simpl; [reflexivity|].
  rewrite sorted_insert_perm, IH. reflexivity.
Qed.

Lemma sorted_insert_sorted (x : A) (l : list A) :
  StronglySorted le_key l -> StronglySorted le_key (sorted_insert key x l).
Proof.
  induction 1 as [|y l Hl IH Hy]; simpl; [repeat constructor|].
  destruct (key x <=? key y) eqn:E.
  - apply Nat.leb_le in E. constructor; [constructor; assumption|].
    constructor; [exact E|]. eapply Forall_impl; [exact Hy|].
    unfold le_key. intros z Hz. simpl in Hz. lia.
  - apply Nat.leb_gt in E. constructor; [exact IH|].
    rewrite sorted_insert_perm. constructor; [|exact Hy]. unfold le_key. lia.
Qed.

Lemma sorted_sorted (l : list A) : StronglySorted le_key (sorted key l).
Proof.
  induction l as [|x l IH]; simpl; [constructor|]. apply sorted_insert_sorted, IH.
Qed.

(** Elements with the same key keep their order. *)
Lemma sorted_insert_stable (n : nat) (x : A) (l : list A) :
  List.filter (fun a => key a =? n) (sorted_insert key x l) =
  List.filter (fun a => key a =? n) (x :: l).
Proof.
  induction l as [|y l IH]; [reflexivity|]. simpl sorted_insert.
  destruct (key x <=? key y) eqn:E; [reflexivity|]. apply Nat.leb_gt in E.
  simpl in *. rewrite IH.
  destruct (key x =? n) eqn:Ex, (key y =? n) eqn:Ey; try reflexivity.
  apply Nat.eqb_eq in Ex, Ey. lia.
Qed.

Lemma sorted_stable (n : nat) (l : list A) :
  List.filter (fun a => key a =? n) (sorted key l) =
  List.filter (fun a => key a =? n) l.
Proof.
  induction l as [|x l IH]; [reflexivity|]. simpl sorted.
  rewrite sorted_insert_stable. simpl. rewrite IH. reflexivity.
Qed.

Lemma sorted_insert_least (x : A) (l : list A) :
  Forall (le_key x) l -> sorted_insert key x l = x :: l.
Proof.
  intros H. destruct l as [|y l]; [reflexivity|]. simpl.
  inversion H as [|? ? Hy _]; subst. unfold le_key in Hy.
  apply Nat.leb_le in Hy. rewrite Hy. reflexivity.
Qed.

(** Selecting after sorting is sorting after selecting. *)
Lemma sorted_insert_filter (q : A -> bool) (x : A) (l : list A) :
  StronglySorted le_key l ->
  List.filter q (sorted_insert key x l) =
  if q x then sorted_insert key x (List.filter q l) else List.filter q l.
Proof.
  induction 1 as [|y l Hl IH Hy]; simpl; [destruct (q x); reflexivity|].
  destruct (key x <=? key y) eqn:E.
  - simpl. destruct (q x); [|reflexivity]. symmetry. apply sorted_insert_least.
    apply Nat.leb_le in E.
    assert (Hall : Forall (le_key x) (y :: l)).
    { constructor; [exact E|]. eapply Forall_impl; [exact Hy|].
      unfold le_key. intros z Hz. simpl in Hz. lia. }
    rewrite List.Forall_forall in *. intros z Hz.
    apply (Hall z). change (In z (List.filter q (y :: l))) in Hz.
    apply filter_In in Hz. tauto.
  - simpl. rewrite IH. destruct (q x), (q y); try reflexivity.
    simpl. rewrite E. reflexivity.
Qed.

Lemma sorted_filter (q : A -> bool) (l : list A) :
  List.filter q (sorted key l) = sorted key (List.filter q l).
Proof.
  induction l as [|x l IH]; [reflexivity|]. simpl.
  rewrite sorted_insert_filter by apply sorted_sorted.
  destruct (q x); simpl; rewrite IH; reflexivity.
Qed.
End Sorted.

Lemma for_each_filter {A} (q : A -> bool) (body : A -> State -> Result State)
    (l : list A) (st : State) :
  for_each (fun a st => if q a then body a st else Ok st) l st =
  for_each body (List.filter q l) st.
Proof.
  revert st. induction l as [|a l IH]; intros st; [reflexivity|]. simpl.
  destruct (q a); simpl; [|apply IH].
  destruct (body a st); simpl; [apply IH | reflexivity..].
Qed.

(** ** The traversal *)

Section Traversal.
Variable convertMatrix : Matrix -> Matrix.
Variable inverted : Matrix -> Matrix.
Variable re_compile : string -> bool -> Regex.
Variable re_escape : string -> string.
Variable set_iter : list nat -> list nat.
Variable self : NodeWriter.

Local Abbreviation writeObject' :=
  (writeObject convertMatrix inverted re_compile re_escape set_iter self).

(** [writeObject] with its loop over the children as a [for_each]. *)
Lemma writeObject_unfold (object : Object) (st : State) :
  writeObject' object st =
  if negb (startswith (name object) "__") then
    let* st :=
      if String.eqb (ob_type (data object)) "MESH" then
        if negb (length (children object) =? 0)
        then Raise (MeshHasChildren (name object))
        else writeMeshNode convertMatrix inverted re_compile re_escape set_iter
               self object st
      else writeBaseNode convertMatrix re_compile self (Some object) (name object) st in
    for_each writeObject' (children object) st
  else Ok st.
Proof.
  destruct object as [d c]. cbn [writeObject children].
  destruct (negb (startswith (name (mkObject d c)) "__")); [|reflexivity].
  match goal with |- bind ?x _ = bind ?x _ => destruct x as [st'| |] end;
    [|reflexivity..].
  cbn [bind]. revert st'. induction c as [|child c IH]; intros st'; [reflexivity|].
  cbn [for_each]. destruct (writeObject _ _ _ _ _ _ child st');
    cbn [bind]; [apply IH|reflexivity..].
Qed.
(** ** C10: objects with the reserved prefix *)

(** C10.  A mesh object whose name starts with two underscores is skipped
    with everything below it: whatever children it has, [writeObject]
    returns without exception and leaves the file and the warnings as they
    were. *)
Theorem writeObject_skips_reserved (object : Object) (st : State) :
  ob_type (data object) = "MESH"%string ->
  startswith (name object) "__" = true ->
  writeObject' object st = Ok st.
Proof.
  intros _ H. rewrite writeObject_unfold, H. reflexivity.
Qed.

(** ** C2: the order of the traversal *)

(** C2, amended.  After the root node, [write] writes the objects without
    parent in ascending order of the number of their children (their direct
    children, not all objects below them), objects with the same number in
    the order of the file; below the top level, the children of an object
    that is not a mesh are written in the order of its [children]. *)
Theorem write_order (st : State) :
  exists order : list Object,
    write convertMatrix inverted re_compile re_escape set_iter self st
    = (let* st := writeBaseNode convertMatrix re_compile self None "BlenderFile" st in
       for_each writeObject' order st)
    /\ Permutation order
         (List.filter (fun o => bool_decide (parent (data o) = None)) (objects self))
    /\ StronglySorted (fun a b => length (children a) <= length (children b)) order
    /\ (forall n,
          List.filter (fun o => length (children o) =? n) order
          = List.filter (fun o => length (children o) =? n)
              (List.filter (fun o => bool_decide (parent (data o) = None))
                 (objects self)))
    /\ (forall object st,
          startswith (name object) "__" = false ->
          String.eqb (ob_type (data object)) "MESH" = false ->
          writeObject' object st
          = (let* st := writeBaseNode convertMatrix re_compile self (Some object)
                          (name object) st in
             for_each writeObject' (children object) st)).
Proof.
  exists (sorted (fun k => length (children k))
            (List.filter (fun o => bool_decide (parent (data o) = None)) (objects self))).
  split; [|split; [|split; [|split]]].
  - unfold write. rewrite <- sorted_filter.
    destruct (writeBaseNode _ _ _ None "BlenderFile" st); cbn [bind]; [|reflexivity..].
    apply (for_each_filter (fun o => bool_decide (parent (data o) = None))).
  - apply sorted_perm.
  - apply (sorted_sorted (fun k => length (children k))).
  - intros n. apply (sorted_stable (fun k => length (children k))).
  - intros object st' Hname Htype. rewrite writeObject_unfold, Hname, Htype.
    reflexivity.
Qed.

(** ** C7: the position of a material *)

(** A material without position in the dictionary of the materials writer
    makes the partition of its faces raise [KeyError]. *)
Lemma materialBody_KeyError (object : Object) (meshCopy : BlenderMesh)
    (materialIndex : nat) (material : Material) :
  materials meshCopy !! materialIndex = Some (Some material) ->
  startswith (mat_name material) "__" = false ->
  (exists r, tessfaceLoop object meshCopy materialIndex (tessfaces meshCopy) [] [] = Ok r) ->
  materialPositions self !! mat_name material = None ->
  materialBody self object meshCopy materialIndex = Raise (KeyError (mat_name material)).
Proof.
  intros Hslot Hname [[d ind] Hloop] Hpos. unfold materialBody, getitem.
  rewrite Hslot. cbn [bind]. rewrite Hname, Hloop. cbn [bind]. rewrite Hpos.
  reflexivity.
Qed.

End Traversal.

(** ** The record of a mesh *)

Lemma for_each_tokens {A} (tokens : A -> list Token)
    (body : A -> State -> Result State) (l : list A) :
  (forall a st, body a st = Ok (mkState (file st ++ tokens a) (warnings st))) ->
  forall st, for_each body l st = Ok (mkState (file st ++ flat_map tokens l) (warnings st)).
Proof.
  intros Hbody. induction l as [|a l IH]; intros st; cbn [for_each flat_map].
  - rewrite app_nil_r. destruct st. reflexivity.
  - rewrite Hbody. cbn [bind]. rewrite IH. cbn [file warnings].
    rewrite <- app_assoc. reflexivity.
Qed.

(** A mesh within the vertex limit is written as one mesh record; a
    warning goes with it when the mesh has no material id, and the id
    written is then 0. *)
Lemma writeMesh_record (object : Object) (mesh : Mesh) (nodeProperties : NodeProperties)
    (st : State) :
  length (vertices mesh) <= 2 ^ 16 ->
  writeMesh object mesh nodeProperties st
  = Ok (mkState (file st ++ MeshNode_record object mesh nodeProperties)
          (warnings st ++ if is_None (materialId mesh)
                          then [NoMaterialToMesh (name object)] else [])).
Proof.
  intros H. apply Nat.ltb_ge in H. unfold writeMesh. rewrite writeNodeClass_Mesh.
  unfold writeBoundingSphere.
  unfold writeUInt, writeUShort, writeBool, writeFloat, writeString, writeVector2,
    writeVector3, warn, emit.
  cbn [bind file warnings]. rewrite H. cbn [bind file warnings].
  rewrite (for_each_tokens
             (fun v => [TVector3 (co v); TVector3 (normal v); TVector2 (uv v);
                        TVector3 (tangent v)]))
    by (intros; cbn [bind file warnings]; rewrite <- !app_assoc; reflexivity).
  cbn [bind file warnings].
  rewrite (for_each_tokens (fun i => [TUShort (VInt (Z.of_nat i))])) by reflexivity.
  cbn [bind file warnings]. unfold MeshNode_record.
  replace (flat_map (fun i => [TUShort (VInt (Z.of_nat i))]) (indices mesh))
    with (map (fun i => TUShort (VInt (Z.of_nat i))) (indices mesh))
    by (induction (indices mesh) as [|i l IH]; [reflexivity | simpl; rewrite IH; reflexivity]).
  destruct (is_None (materialId mesh)); cbn [bind file warnings];
    repeat rewrite <- app_assoc; try rewrite app_nil_r; reflexivity.
Qed.

(** ** C8: the bounding sphere *)

Lemma gt_true (a b : Q) : gt a b = true <-> (b < a)%Q.
Proof.
  unfold gt. rewrite negb_true_iff, <- not_true_iff_false, Qle_bool_iff.
  split; [apply Qnot_le_lt | apply Qlt_not_le].
Qed.

Lemma lt_true (a b : Q) : lt a b = true <-> (a < b)%Q.
Proof. unfold lt. apply gt_true. Qed.

(** The running maximum and minimum of the loop are [Qmax] and [Qmin] up
    to numeric equality. *)
Lemma running_max (m c : Q) : ((if gt c m then c else m) == Qmax m c)%Q.
Proof.
  destruct (gt c m) eqn:E.
  - apply gt_true in E. symmetry. apply Q.max_r. apply Qlt_le_weak, E.
  - symmetry. apply Q.max_l. apply Qnot_lt_le. intros H. apply gt_true in H. congruence.
Qed.

Lemma running_min (m c : Q) : ((if lt c m then c else m) == Qmin m c)%Q.
Proof.
  destruct (lt c m) eqn:E.
  - apply lt_true in E. symmetry. apply Q.min_r. apply Qlt_le_weak, E.
  - symmetry. apply Q.min_l. apply Qnot_lt_le. intros H. apply lt_true in H. congruence.
Qed.

Section Extrema.
Variable axis : Vec3 -> Q.

Lemma fold_max_compat (vs : list UvVertex) (a b : Q) :
  (a == b)%Q ->
  (fold_left (fun m v => if gt (axis (co v)) m then axis (co v) else m) vs a
   == fold_left (fun m v => Qmax m (axis (co v))) vs b)%Q.
Proof.
  revert a b. induction vs as [|v vs IH]; intros a b Hab; [exact Hab|].
  simpl. apply IH. rewrite running_max, Hab. reflexivity.
Qed.

Lemma fold_min_compat (vs : list UvVertex) (a b : Q) :
  (a == b)%Q ->
  (fold_left (fun m v => if lt (axis (co v)) m then axis (co v) else m) vs a
   == fold_left (fun m v => Qmin m (axis (co v))) vs b)%Q.
Proof.
  revert a b. induction vs as [|v vs IH]; intros a b Hab; [exact Hab|].
  simpl. apply IH. rewrite running_min, Hab. reflexivity.
Qed.

Lemma fold_Qmax_compat (vs : list UvVertex) (a b : Q) :
  (a == b)%Q ->
  (fold_left (fun m v => Qmax m (axis (co v))) vs a
   == fold_left (fun m v => Qmax m (axis (co v))) vs b)%Q.
Proof.
  revert a b. induction vs as [|v vs IH]; intros a b Hab; [exact Hab|].
  simpl. apply IH. rewrite Hab. reflexivity.
Qed.

Lemma fold_Qmin_compat (vs : list UvVertex) (a b : Q) :
  (a == b)%Q ->
  (fold_left (fun m v => Qmin m (axis (co v))) vs a
   == fold_left (fun m v => Qmin m (axis (co v))) vs b)%Q.
Proof.
  revert a b. induction vs as [|v vs IH]; intros a b Hab; [exact Hab|].
  simpl. apply IH. rewrite Hab. reflexivity.
Qed.

Lemma fold_Qmax_init (vs : list UvVertex) (s a : Q) :
  (fold_left (fun m v => Qmax m (axis (co v))) vs (Qmax s a)
   == Qmax s (fold_left (fun m v => Qmax m (axis (co v))) vs a))%Q.
Proof.
  revert a. induction vs as [|v vs IH]; intros a; [reflexivity|].
  simpl. rewrite <- IH. apply fold_Qmax_compat. symmetry. apply Q.max_assoc.
Qed.

Lemma fold_Qmin_init (vs : list UvVertex) (s a : Q) :
  (fold_left (fun m v => Qmin m (axis (co v))) vs (Qmin s a)
   == Qmin s (fold_left (fun m v => Qmin m (axis (co v))) vs a))%Q.
Proof.
  revert a. induction vs as [|v vs IH]; intros a; [reflexivity|].
  simpl. rewrite <- IH. apply fold_Qmin_compat. symmetry. apply Q.min_assoc.
Qed.

(** From a start value that is no greater than the greatest coordinate the
    loop arrives at the greatest coordinate, and likewise for the least. *)
Lemma running_max_axisMax (vs : list UvVertex) (s : Q) :
  vs <> [] -> (s <= axisMax axis vs)%Q ->
  (fold_left (fun m v => if gt (axis (co v)) m then axis (co v) else m) vs s
   == axisMax axis vs)%Q.
Proof.
  destruct vs as [|v vs]; [congruence|]. intros _ Hs. simpl in *.
  rewrite (fold_max_compat vs _ (Qmax s (axis (co v)))) by apply running_max.
  rewrite fold_Qmax_init. apply Q.max_r, Hs.
Qed.

Lemma running_min_axisMin (vs : list UvVertex) (s : Q) :
  vs <> [] -> (axisMin axis vs <= s)%Q ->
  (fold_left (fun m v => if lt (axis (co v)) m then axis (co v) else m) vs s
   == axisMin axis vs)%Q.
Proof.
  destruct vs as [|v vs]; [congruence|]. intros _ Hs. simpl in *.
  rewrite (fold_min_compat vs _ (Qmin s (axis (co v)))) by apply running_min.
  rewrite fold_Qmin_init. apply Q.min_r, Hs.
Qed.
End Extrema.

(** Each of the six extrema of the loop is a fold of its own. *)
Lemma extremaLoop_folds (vs : list UvVertex) (e : Extrema) :
  maxX (extremaLoop vs e)
  = fold_left (fun m v => if gt (x3 (co v)) m then x3 (co v) else m) vs (maxX e)
  /\ maxY (extremaLoop vs e)
     = fold_left (fun m v => if gt (y3 (co v)) m then y3 (co v) else m) vs (maxY e)
  /\ maxZ (extremaLoop vs e)
     = fold_left (fun m v => if gt (z3 (co v)) m then z3 (co v) else m) vs (maxZ e)
  /\ minX (extremaLoop vs e)
     = fold_left (fun m v => if lt (x3 (co v)) m then x3 (co v) else m) vs (minX e)
  /\ minY (extremaLoop vs e)
     = fold_left (fun m v => if lt (y3 (co v)) m then y3 (co v) else m) vs (minY e)
  /\ minZ (extremaLoop vs e)
     = fold_left (fun m v => if lt (z3 (co v)) m then z3 (co v) else m) vs (minZ e).
Proof.
  revert e. induction vs as [|v vs IH]; intros e; [repeat split|].
  cbn [extremaLoop fold_left]. apply IH.
Qed.

Lemma max3_Qmax (a b c : Q) : (max3 a b c == Qmax (Qmax a b) c)%Q.
Proof.
  unfold max3. rewrite running_max. apply Q.max_compat; [|reflexivity].
  apply running_max.
Qed.

(** C8, amended.  For a non-empty vertex list whose greatest coordinate
    along each axis is at least -999999999 and whose least coordinate along
    each axis is at most 999999999, [writeBoundingSphere] writes as centre
    the midpoint of the least and the greatest coordinate along each axis
    and as radius twice the greatest of the three half extents; for the
    corners of the unit cube centred at the origin it writes the centre
    (0,0,0) and the radius 1. *)
Theorem writeBoundingSphere_spec :
  (forall (vertices : list UvVertex) (st : State),
     vertices <> [] ->
     (-999999999 <= axisMax x3 vertices /\ axisMin x3 vertices <= 999999999
      /\ -999999999 <= axisMax y3 vertices /\ axisMin y3 vertices <= 999999999
      /\ -999999999 <= axisMax z3 vertices /\ axisMin z3 vertices <= 999999999)%Q ->
     exists (center : Vec3) (radius : Q),
       writeBoundingSphere vertices st
       = Ok (mkState (file st ++ [TVector3 center; TFloat (VFloat radius)]) (warnings st))
       /\ Vec3_eq center
            (midpoint (axisMin x3 vertices) (axisMax x3 vertices),
             midpoint (axisMin y3 vertices) (axisMax y3 vertices),
             midpoint (axisMin z3 vertices) (axisMax z3 vertices))
       /\ (radius ==
           2 * Qmax (Qmax (halfExtent (axisMin x3 vertices) (axisMax x3 vertices))
                       (halfExtent (axisMin y3 vertices) (axisMax y3 vertices)))
                 (halfExtent (axisMin z3 vertices) (axisMax z3 vertices)))%Q)
  /\ (forall st : State,
        exists (center : Vec3) (radius : Q),
          writeBoundingSphere Examples.unit_cube st
          = Ok (mkState (file st ++ [TVector3 center; TFloat (VFloat radius)])
                  (warnings st))
          /\ Vec3_eq center (0, 0, 0)%Q /\ (radius == 1)%Q).
Proof.
  split.
  - intros vs st Hne (HMx & Hmx & HMy & Hmy & HMz & Hmz).
    exists (sphereCenter (extremaLoop vs Extrema_init)),
      (sphereRadius (extremaLoop vs Extrema_init)).
    split.
    { unfold writeBoundingSphere, writeVector3, writeFloat, emit.
      cbn [bind file warnings]. rewrite <- app_assoc. reflexivity. }
    destruct (extremaLoop_folds vs Extrema_init) as (EMx & EMy & EMz & Emx & Emy & Emz).
    pose proof (running_max_axisMax x3 vs _ Hne HMx) as AMx.
    pose proof (running_max_axisMax y3 vs _ Hne HMy) as AMy.
    pose proof (running_max_axisMax z3 vs _ Hne HMz) as AMz.
    pose proof (running_min_axisMin x3 vs _ Hne Hmx) as Amx.
    pose proof (running_min_axisMin y3 vs _ Hne Hmy) as Amy.
    pose proof (running_min_axisMin z3 vs _ Hne Hmz) as Amz.
    change (-999999999)%Q with (maxX Extrema_init) in AMx.
    change (-999999999)%Q with (maxY Extrema_init) in AMy.
    change (-999999999)%Q with (maxZ Extrema_init) in AMz.
    change 999999999%Q with (minX Extrema_init) in Amx.
    change 999999999%Q with (minY Extrema_init) in Amy.
    change 999999999%Q with (minZ Extrema_init) in Amz.
    rewrite <- EMx in AMx. rewrite <- EMy in AMy. rewrite <- EMz in AMz.
    rewrite <- Emx in Amx. rewrite <- Emy in Amy. rewrite <- Emz in Amz.
    unfold Vec3_eq, sphereCenter, sphereRadius, midpoint, halfExtent.
    cbn [x3 y3 z3 fst snd]. rewrite max3_Qmax, AMx, AMy, AMz, Amx, Amy, Amz.
    repeat split; field.
  - intros st.
    exists (sphereCenter (extremaLoop Examples.unit_cube Extrema_init)),
      (sphereRadius (extremaLoop Examples.unit_cube Extrema_init)).
    split.
    { unfold writeBoundingSphere, writeVector3, writeFloat, emit.
      cbn [bind file warnings]. rewrite <- app_assoc. reflexivity. }
    split; [repeat split|]; vm_compute; reflexivity.
Qed.

(** ** The properties at closed inputs *)

(** The splitter on a mesh over the limit and a mesh within it (C1). *)
Lemma splitMeshesForVertexLimit_bound_witness :
  Forall (fun mesh =>
            length (vertices mesh) <= 2 ^ 16
            /\ forall object nodeProperties st,
                 exists st', writeMesh object mesh nodeProperties st = Ok st')
    [Examples.big_mesh_chunk; Examples.small_mesh].
Proof.
  apply (splitMeshesForVertexLimit_bound [Examples.big_mesh; Examples.small_mesh]).
  vm_compute. reflexivity.
Defined.

(** The indices of meshes checked by computation. *)
Lemma valid_indices_check (meshes : list Mesh) :
  forallb (fun mesh => forallb (fun i => i <? length (vertices mesh)) (indices mesh))
    meshes = true ->
  Forall (fun mesh => Forall (fun i => i < length (vertices mesh)) (indices mesh)) meshes.
Proof.
  intros H. apply List.Forall_forall. intros mesh Hmesh.
  rewrite forallb_forall in H. specialize (H mesh Hmesh).
  apply List.Forall_forall. intros i Hi. rewrite forallb_forall in H.
  apply Nat.ltb_lt, H, Hi.
Qed.

(** The triangles of both meshes are those of what the splitter returns for
    them (C4). *)
Lemma splitMeshesForVertexLimit_chunks_witness :
  exists parts : list (list Mesh),
    splitMeshesForVertexLimit [Examples.big_mesh; Examples.small_mesh]
    = Ok (concat parts)
    /\ Forall2 (fun mesh part =>
                  concat (map triangleVertices part) = triangleVertices mesh)
         [Examples.big_mesh; Examples.small_mesh] parts.
Proof.
  destruct (splitMeshesForVertexLimit_chunks [Examples.big_mesh; Examples.small_mesh])
    as (parts & Hsplit & Hparts).
  - apply valid_indices_check. vm_compute. reflexivity.
  - exists parts. split; [exact Hsplit|].
    eapply Forall2_impl; [exact Hparts|]. intros mesh part [Hsmall Hlarge].
    destruct (Nat.le_gt_cases (length (vertices mesh)) (2 ^ 16)) as [Hle|Hgt].
    + rewrite (Hsmall Hle). cbn [map concat]. apply app_nil_r.
    + destruct (Hlarge Hgt) as (segs & _ & _ & _ & _ & Htriangles). exact Htriangles.
Defined.

(** The partition of the square, whose quad and triangle share corners
    (C5). *)
Lemma splitObjectByMaterials_dedup_witness :
  Floats.splitObjectByMaterials Examples.set_iter Floats.positions Floats.square
  = Ok [Floats.square_partition]
  /\ Forall (fun i => i < length (Floats.vertices Floats.square_partition))
       (Floats.indices Floats.square_partition).
Proof.
  assert (H : Floats.splitObjectByMaterials Examples.set_iter Floats.positions
                Floats.square
              = Ok [Floats.square_partition]) by (vm_compute; reflexivity).
  split; [exact H|].
  pose proof (splitObjectByMaterials_dedup _ _ _ _ H) as Hdedup.
  inversion Hdedup
    as [|materialIndex mesh ? ? (occs & numbers & _ & _ & _ & _ & _ & _ & Hvalid) _ E1 E2].
  exact Hvalid.
Defined.

(** The quad of the square (C6). *)
Lemma faceBody_winding_witness :
  exists (vertices' : list (UvVertex * nat)) (a b c e : nat),
    faceBody Examples.square Examples.square_mesh 0 Examples.square_quad [] []
    = Ok (vertices', [1; 2; 0; 2; 3; 0])
    /\ [1; 2; 0; 2; 3; 0] = [] ++ [b; c; a; c; e; a].
Proof.
  destruct (faceBody Examples.square Examples.square_mesh 0 Examples.square_quad [] [])
    as [[vertices' indices']| |] eqn:E; [|vm_compute in E; discriminate..].
  assert (Hind : indices' = [1; 2; 0; 2; 3; 0]).
  { vm_compute in E. injection E as _ <-. reflexivity. }
  subst indices'.
  destruct (faceBody_winding _ _ _ _ _ _ _ _ E) as (occ & fi & _ & _ & _ & Hquad).
  destruct (Hquad eq_refl) as (a & b & c & e & _ & Hwound).
  exists vertices', a, b, c, e. split; [reflexivity | exact Hwound].
Defined.

(** The second corner of the square, at (2,0,0) before the object is moved
    by 3 along x (C3). *)
Lemma faceVertex_fallback_uv_witness :
  exists vertex : UvVertex,
    faceVertex Examples.square Examples.square_mesh 0 Examples.square_quad 1 1 = Ok vertex
    /\ uv vertex
       = (x3 (Matrix_mul_vec (Examples.translation 3 0 0) (2, 0, 0)%Q) / 2,
          y3 (Matrix_mul_vec (Examples.translation 3 0 0) (2, 0, 0)%Q) / 2)%Q.
Proof.
  destruct (faceVertex Examples.square Examples.square_mesh 0 Examples.square_quad 1 1)
    as [vertex| |] eqn:E; [|vm_compute in E; discriminate..].
  exists vertex. split; [reflexivity|].
  destruct (faceVertex_fallback_uv Examples.square Examples.square_mesh 0
              Examples.square_quad 1 1 vertex eq_refl E)
    as (v & material & Hv & Hmaterial & _ & _ & Huv).
  injection Hv as <-. injection Hmaterial as <-. exact Huv.
Defined.

(** A hidden mesh with a child (C10). *)
Lemma writeObject_skips_reserved_witness :
  writeObject Examples.convertMatrix Examples.inverted Examples.re_compile
    Examples.re_escape Examples.set_iter Examples.with_paint Examples.hidden
    Examples.start
  = Ok Examples.start.
Proof.
  apply writeObject_skips_reserved; reflexivity.
Defined.

(** The unit cube and the general statement (C8). *)
Lemma writeBoundingSphere_spec_witness :
  exists (center : Vec3) (radius : Q),
    writeBoundingSphere Examples.unit_cube Examples.start
    = Ok (mkState [TVector3 center; TFloat (VFloat radius)] [])
    /\ Vec3_eq center
         (midpoint (axisMin x3 Examples.unit_cube) (axisMax x3 Examples.unit_cube),
          midpoint (axisMin y3 Examples.unit_cube) (axisMax y3 Examples.unit_cube),
          midpoint (axisMin z3 Examples.unit_cube) (axisMax z3 Examples.unit_cube))
    /\ (radius ==
        2 * Qmax (Qmax (halfExtent (axisMin x3 Examples.unit_cube)
                          (axisMax x3 Examples.unit_cube))
                    (halfExtent (axisMin y3 Examples.unit_cube)
                       (axisMax y3 Examples.unit_cube)))
              (halfExtent (axisMin z3 Examples.unit_cube)
                 (axisMax z3 Examples.unit_cube)))%Q.
Proof.
  apply (proj1 writeBoundingSphere_spec Examples.unit_cube Examples.start).
  - discriminate.
  - repeat split; apply Qle_bool_imp_le; vm_compute; reflexivity.
Defined.

(** C2, the claim refuted.  [B] stands before [A] in the file and has two
    objects below it, [A] has three; [write] writes [A] first, because [A]
    has one child and [B] two. *)
Lemma write_order_not_by_descendants :
  (exists st,
     write Examples.convertMatrix Examples.inverted Examples.re_compile
       Examples.re_escape Examples.set_iter Examples.family Examples.start = Ok st
     /\ Examples.names (file st)
        = ["BlenderFile"; "A"; "A1"; "A1a"; "A1b"; "B"; "B1"; "B2"]%string)
  /\ descendantCount Examples.A = 3 /\ descendantCount Examples.B = 2
  /\ length (children Examples.A) = 1 /\ length (children Examples.B) = 2.
Proof.
  split; [|repeat split].
  eexists. split; vm_compute; reflexivity.
Qed.

(** C3, the claim refuted.  The second corner of the square is at (2,0,0)
    in the space of the object, whose dimensions are (2,2,0); the uv
    written for it is (5/2, 0), not (2/2, 0/2). *)
Lemma fallback_uv_not_from_local_position :
  tessface_uv_active Examples.square_mesh = None
  /\ mesh_vertices Examples.square_mesh !! 1
     = Some (mkMeshVertex (2, 0, 0)%Q (0, 0, 1)%Q)
  /\ dimensions (data Examples.square) = (2, 2, 0)%Q
  /\ exists vertex,
       faceVertex Examples.square Examples.square_mesh 0 Examples.square_quad 1 1
       = Ok vertex
       /\ ((uv vertex).1 == 5 / 2)%Q
       /\ ~ ((uv vertex).1 == 2 / 2)%Q.
Proof.
  repeat split. eexists. split; [vm_compute; reflexivity|].
  split; [reflexivity|]. intros H. vm_compute in H. discriminate.
Qed.

(** C5, the claim refuted.  The first corner of the broken square has a
    height that is not a number.  The quad and the triangle both use it,
    and the vertex built for it is the same both times; it is entered
    twice, at 0 and at 4, and the quad refers to 0, the triangle to 4. *)
Lemma dedup_not_bit_for_bit :
  Floats.splitObjectByMaterials Examples.set_iter Floats.positions Floats.broken
  = Ok [Floats.broken_partition]
  /\ Floats.faceOccurrences Floats.broken Floats.broken_mesh 0
       (mkTessFace 0 [0; 1; 2; 3] 0)
     = Ok [Floats.lost_corner; Floats.corner 5 0 1 0; Floats.corner 5 (-2) 1 (-1);
           Floats.corner 3 (-2) 0 (-1)]
  /\ Floats.faceOccurrences Floats.broken Floats.broken_mesh 0
       (mkTessFace 1 [0; 2; 3] 0)
     = Ok [Floats.lost_corner; Floats.corner 5 (-2) 1 (-1); Floats.corner 3 (-2) 0 (-1)]
  /\ Floats.vertices Floats.broken_partition !! 0 = Some Floats.lost_corner
  /\ Floats.vertices Floats.broken_partition !! 4 = Some Floats.lost_corner
  /\ Floats.indices Floats.broken_partition = [1; 2; 0; 2; 3; 0; 2; 3; 4].
Proof.
  repeat split; vm_compute; reflexivity.
Qed.

(** C8, the claim refuted.  For the one vertex (2000000000, 0, 0) the
    least and the greatest x are both 2000000000 and every half extent is
    0; the centre written has x = 2999999999/2 and the radius written is
    1000000001. *)
Lemma writeBoundingSphere_beyond_sentinel :
  exists (center : Vec3) (radius : Q),
    writeBoundingSphere [Examples.far_vertex] Examples.start
    = Ok (mkState [TVector3 center; TFloat (VFloat radius)] [])
    /\ (midpoint (axisMin x3 [Examples.far_vertex]) (axisMax x3 [Examples.far_vertex])
        == 2000000000)%Q
    /\ (x3 center == 2999999999 / 2)%Q
    /\ ~ (x3 center
          == midpoint (axisMin x3 [Examples.far_vertex])
               (axisMax x3 [Examples.far_vertex]))%Q
    /\ (radius == 1000000001)%Q
    /\ ~ (radius ==
          2 * Qmax (Qmax (halfExtent (axisMin x3 [Examples.far_vertex])
                            (axisMax x3 [Examples.far_vertex]))
                      (halfExtent (axisMin y3 [Examples.far_vertex])
                         (axisMax y3 [Examples.far_vertex])))
                (halfExtent (axisMin z3 [Examples.far_vertex])
                   (axisMax z3 [Examples.far_vertex])))%Q.
Proof.
  do 2 eexists. split; [vm_compute; reflexivity|].
  repeat split; try reflexivity; intros H; vm_compute in H; discriminate.
Qed.

(** C7, at an input where the code fails.  The square uses the material
    ["Paint"], for which the materials writer has no position: the export
    of the mesh ends with [KeyError], nothing is written and no warning is
    recorded. *)
Lemma writeMeshNode_without_position :
  materialPositions Examples.without_paint !! "Paint"%string = None
  /\ writeMeshNode Examples.convertMatrix Examples.inverted Examples.re_compile
       Examples.re_escape Examples.set_iter Examples.without_paint Examples.square
       Examples.start
     = Raise (KeyError "Paint").
Proof.
  split; vm_compute; reflexivity.
Qed.

(** The warning of [writeMesh] is for a mesh whose material id is
    [None]: the id written is then 0. *)
Lemma writeMesh_without_id (object : Object) (mesh : Mesh)
    (nodeProperties : NodeProperties) (st : State) :
  materialId mesh = VNone ->
  length (vertices mesh) <= 2 ^ 16 ->
  exists st',
    writeMesh object mesh nodeProperties st = Ok st'
    /\ warnings st' = warnings st ++ [NoMaterialToMesh (name object)]
    /\ In (TUInt (VInt 0)) (file st').
Proof.
  intros Hid Hlen. rewrite (writeMesh_record _ _ _ _ Hlen), Hid. eexists.
  split; [reflexivity|]. split; [reflexivity|]. cbn [file is_None].
  unfold MeshNode_record. rewrite Hid. cbn [is_None].
  apply in_or_app. right. right. right. left. reflexivity.
Qed.

(** The settings of the wheel: the second rule gives the distance, the
    first one the layer, and the null of the second rule changes
    nothing. *)
Example nodeSettings_wheel :
  nodeSettingsLoop
    (nodeSettings Examples.re_compile Examples.re_escape Examples.with_wheel)
    (NodeProperties_init Examples.wheel)
  = Ok (mkNodeProperties "Wheel_LF" (VFloat 10) (VFloat 0) (VInt 1) (VBool true)
          (VBool true) (VBool false) (VBool true)).
Proof. vm_compute. reflexivity. Qed.

(** * Further properties *)

(** ** The splitter once more *)

Lemma concat_singletons {A} (l : list A) : concat (map (fun a => [a]) l) = l.
Proof. induction l as [|a l IH]; [reflexivity|]. simpl. rewrite IH. reflexivity. Qed.

(** X1.  The splitter leaves its own results as they are: what it returns
    for a list of meshes it returns again for that result. *)
Theorem splitMeshesForVertexLimit_idempotent (dividedMeshes newMeshes : list Mesh) :
  splitMeshesForVertexLimit dividedMeshes = Ok newMeshes ->
  splitMeshesForVertexLimit newMeshes = Ok newMeshes.
Proof.
  intros H. apply splitMeshesLoop_parts in H as (parts & Hparts & ->).
  rewrite app_nil_l.
  assert (Hbound : Forall (fun mesh => length (vertices mesh) <= limit) (concat parts)).
  { apply Forall_concat.
    induction Hparts as [|mesh part ms parts Hpart _ IH]; constructor; [|exact IH].
    exact (splitMesh_bound _ _ _ limit_gt_3 Hpart). }
  apply splitMeshesLoop_parts. exists (map (fun mesh => [mesh]) (concat parts)).
  split; [|rewrite concat_singletons; reflexivity].
  induction Hbound as [|mesh ms Hmesh _ IH]; constructor; [|exact IH].
  apply splitMesh_small, Hmesh.
Qed.

Lemma indexOf_firstSeen_lt (seg : list nat) (i : nat) :
  In i seg -> indexOf Nat.eqb (firstSeen Nat.eqb seg) i < length (firstSeen Nat.eqb seg).
Proof.
  intros Hin.
  destruct (firstSeen_index Nat.eqb Nat.eqb_refl seg i Hin) as (y & Hy & _).
  eapply lookup_lt_Some, Hy.
Qed.

Lemma isChunkOf_valid (mesh : Mesh) (seg : list nat) (chunk : Mesh) :
  isChunkOf mesh seg chunk ->
  Forall (fun i => i < length (vertices chunk)) (indices chunk).
Proof.
  intros H. rewrite (isChunkOf_length _ _ _ H). destruct H as (_ & _ & ->).
  apply List.Forall_forall. intros j Hj. apply in_map_iff in Hj as (i & <- & Hi).
  apply indexOf_firstSeen_lt, Hi.
Qed.

Lemma isChunkOf_indices_length (mesh : Mesh) (seg : list nat) (chunk : Mesh) :
  isChunkOf mesh seg chunk -> length (indices chunk) = length seg.
Proof. intros (_ & _ & ->). apply length_map. Qed.

Lemma cutting_triangles (lim : nat) (segs : list (list nat)) :
  cutting lim segs -> length (concat segs) mod 3 = 0 ->
  Forall (fun seg => length seg mod 3 = 0) segs.
Proof.
  induction 1 as [|seg segs Hne Hopen Hclose Hcut IH]; intros Hlen; [constructor|].
  cbn [concat] in Hlen. rewrite length_app in Hlen.
  destruct segs as [|seg' segs'].
  - cbn [concat length] in Hlen. rewrite Nat.add_0_r in Hlen. repeat constructor.
    exact Hlen.
  - destruct Hclose as [Hmod _]; [discriminate|].
    constructor; [exact Hmod|]. apply IH.
    rewrite <- Nat.Div0.add_mod_idemp_l, Hmod in Hlen. exact Hlen.
Qed.

(** What the splitter makes of one mesh keeps the validity of the indices,
    the number of indices and the triangles. *)
Lemma splitMesh_invariants (mesh : Mesh) (part : list Mesh) :
  splitMesh limit mesh = Ok part ->
  (Forall (fun i => i < length (vertices mesh)) (indices mesh) ->
   Forall (fun chunk => Forall (fun i => i < length (vertices chunk)) (indices chunk))
     part)
  /\ length (concat (map indices part)) = length (indices mesh)
  /\ (length (indices mesh) mod 3 = 0 ->
      Forall (fun chunk => length (indices chunk) mod 3 = 0) part).
Proof.
  intros H. destruct (Nat.le_gt_cases (length (vertices mesh)) limit) as [Hle|Hgt].
  - rewrite (splitMesh_small _ _ Hle) in H. injection H as <-.
    split; [|split].
    + intros Hvalid. repeat constructor. exact Hvalid.
    + simpl. rewrite app_nil_r. reflexivity.
    + intros Hmod. repeat constructor. exact Hmod.
  - apply (splitMesh_large _ _ _ limit_gt_3 Hgt) in H as (segs & Hconcat & Hcut & Hchunks).
    split; [|split].
    + intros _. clear - Hchunks.
      induction Hchunks as [|seg chunk segs chunks H _ IH]; constructor; [|exact IH].
      exact (isChunkOf_valid _ _ _ H).
    + rewrite <- Hconcat. clear - Hchunks.
      induction Hchunks as [|seg chunk segs chunks H _ IH]; [reflexivity|].
      simpl. rewrite !length_app, IH, (isChunkOf_indices_length _ _ _ H). reflexivity.
    + intros Hmod. rewrite <- Hconcat in Hmod.
      pose proof (cutting_triangles _ _ Hcut Hmod) as Hsegs. clear - Hchunks Hsegs.
      induction Hchunks as [|seg chunk segs chunks H _ IH]; [constructor|].
      inversion Hsegs; subst. constructor; [|apply IH; assumption].
      rewrite (isChunkOf_indices_length _ _ _ H). assumption.
Qed.

(** X2.  The splitter keeps the invariants of mesh partitions: when every
    index of every mesh is a position of its vertex list, the same holds
    of the meshes returned; the number of indices is the same before and
    after; and when every index list is a list of triangles (a multiple of
    three long) so is every index list returned. *)
Theorem splitMeshesForVertexLimit_invariants (dividedMeshes newMeshes : list Mesh) :
  splitMeshesForVertexLimit dividedMeshes = Ok newMeshes ->
  (Forall (fun mesh => Forall (fun i => i < length (vertices mesh)) (indices mesh))
     dividedMeshes ->
   Forall (fun mesh => Forall (fun i => i < length (vertices mesh)) (indices mesh))
     newMeshes)
  /\ length (concat (map indices newMeshes)) = length (concat (map indices dividedMeshes))
  /\ (Forall (fun mesh => length (indices mesh) mod 3 = 0) dividedMeshes ->
      Forall (fun mesh => length (indices mesh) mod 3 = 0) newMeshes).
Proof.
  intros H. apply splitMeshesLoop_parts in H as (parts & Hparts & ->).
  rewrite app_nil_l.
  induction Hparts as [|mesh part ms parts Hpart _ (IH1 & IH2 & IH3)].
  - repeat split; intros; constructor.
  - destruct (splitMesh_invariants _ _ Hpart) as (H1 & H2 & H3).
    cbn [concat map]. split; [|split].
    + intros Hvalid. inversion Hvalid; subst. apply Forall_app. auto.
    + rewrite map_app, concat_app, !length_app, H2, IH2. reflexivity.
    + intros Hmod. inversion Hmod; subst. apply Forall_app. auto.
Qed.

Lemma comprehension_getitem_raises {A} (vs : list A) (keys : list (nat * nat)) (e : PyExc) :
  comprehension (fun '(v, _) => getitem vs v) keys = Raise e -> e = IndexError.
Proof.
  induction keys as [|[v i] keys IH]; simpl; [discriminate|].
  unfold getitem at 1. destruct (vs !! v); simpl; [|congruence].
  destruct (comprehension _ keys); simpl; try discriminate.
  intros H. injection H as <-. apply IH. reflexivity.
Qed.

Lemma whileLoop_raises (lim : nat) (mesh : Mesh) (fuel : nat) :
  forall (rest : list nat) (e : PyExc),
  whileLoop fuel lim mesh rest = Raise e -> e = IndexError.
Proof.
  induction fuel as [|fuel IH]; intros rest e H.
  - destruct rest; discriminate.
  - destruct rest as [|r0 rest0] eqn:Erest; [discriminate|].
    rewrite <- Erest in *. assert (Hne : rest <> []) by (subst; discriminate).
    rewrite (whileLoop_unfold _ _ _ _ Hne) in H.
    destruct (forLoop lim rest [] []) as [[m' n'] rest'].
    destruct (comprehension _ _) as [cv|e'|] eqn:Ec; simpl in H; [| |discriminate].
    + destruct (whileLoop fuel lim mesh rest') as [more|e'|] eqn:Ew; simpl in H;
        try discriminate.
      injection H as <-. eapply IH, Ew.
    + injection H as <-. eapply comprehension_getitem_raises, Ec.
Qed.

Lemma firstSeenFrom_In (l acc : list nat) (x : nat) :
  In x l -> In x (firstSeenFrom Nat.eqb acc l).
Proof.
  intros Hin. pose proof (firstSeenFrom_seen Nat.eqb l acc x Nat.eqb_refl Hin) as H.
  unfold seen in H. apply existsb_exists in H as (y & Hy & Heq).
  apply Nat.eqb_eq in Heq. subst y. exact Hy.
Qed.

(** The vertices of a chunk exist only when the indices of its segment
    refer to vertices of the mesh. *)
Lemma isChunkOf_segment_valid (mesh : Mesh) (seg : list nat) (chunk : Mesh) :
  isChunkOf mesh seg chunk -> Forall (fun i => i < length (vertices mesh)) seg.
Proof.
  intros (_ & Hv & _). apply List.Forall_forall. intros i Hi.
  apply (firstSeenFrom_In seg []) in Hi. apply In_nth_error in Hi as [j Hj].
  change (firstSeenFrom Nat.eqb [] seg) with (firstSeen Nat.eqb seg) in Hj.
  apply (f_equal (fun l => nth_error l j)) in Hv.
  rewrite !nth_error_map, Hj in Hv. simpl in Hv.
  destruct (nth_error (vertices chunk) j); [|discriminate]. simpl in Hv.
  injection Hv as Hv. symmetry in Hv. eapply lookup_lt_Some, Hv.
Qed.

Lemma splitMesh_IndexError (mesh : Mesh) :
  limit < length (vertices mesh) ->
  Exists (fun i => length (vertices mesh) <= i) (indices mesh) ->
  splitMesh limit mesh = Raise IndexError.
Proof.
  intros Hgt Hbad. unfold splitMesh. apply Nat.ltb_lt in Hgt. rewrite Hgt.
  pose proof (whileLoop_fuel limit mesh _ (indices mesh) (Nat.le_refl _)) as Hfuel.
  destruct (whileLoop _ limit mesh (indices mesh)) as [chunks|e|] eqn:E;
    [|f_equal; eapply whileLoop_raises, E|congruence].
  exfalso. apply (whileLoop_chunks _ _ _ limit_gt_3) in E as (segs & Hconcat & Hchunks & _).
  assert (Hvalid : Forall (fun i => i < length (vertices mesh)) (concat segs)).
  { clear - Hchunks. induction Hchunks as [|seg chunk segs chunks H _ IH];
      [constructor|]. simpl. apply Forall_app. split; [|exact IH].
    exact (isChunkOf_segment_valid _ _ _ H). }
  rewrite Hconcat in Hvalid. apply List.Exists_exists in Hbad as (i & Hi & Hle).
  rewrite List.Forall_forall in Hvalid. specialize (Hvalid i Hi). lia.
Qed.

Lemma splitMesh_outcome (mesh : Mesh) :
  match splitMesh limit mesh with
  | Ok _ => True
  | Raise e => e = IndexError
  | OutOfFuel => False
  end.
Proof.
  unfold splitMesh. destruct (limit <? length (vertices mesh)); [|exact I].
  pose proof (whileLoop_fuel limit mesh _ (indices mesh) (Nat.le_refl _)) as Hfuel.
  destruct (whileLoop _ limit mesh (indices mesh)) as [chunks|e|] eqn:E;
    [exact I | eapply whileLoop_raises, E | congruence].
Qed.

Lemma splitMeshesLoop_outcome (dividedMeshes : list Mesh) :
  forall newMeshes,
  match splitMeshesLoop limit dividedMeshes newMeshes with
  | Ok _ => True
  | Raise e => e = IndexError
  | OutOfFuel => False
  end.
Proof.
  induction dividedMeshes as [|mesh ms IH]; intros acc; [exact I|]. simpl.
  pose proof (splitMesh_outcome mesh) as H.
  destruct (splitMesh limit mesh); simpl; [apply IH | exact H | exact H].
Qed.

(** X3.  The splitter checks indices only where it splits.  Meshes within
    the limit are returned as they are, whatever their indices; a mesh over
    the limit with an index that is no position of its vertex list makes
    the whole call raise [IndexError]. *)
Theorem splitMeshesForVertexLimit_IndexError :
  (forall dividedMeshes,
     Forall (fun mesh => length (vertices mesh) <= 2 ^ 16) dividedMeshes ->
     splitMeshesForVertexLimit dividedMeshes = Ok dividedMeshes)
  /\ (forall dividedMeshes,
        Exists (fun mesh => 2 ^ 16 < length (vertices mesh)
                            /\ Exists (fun i => length (vertices mesh) <= i)
                                 (indices mesh)) dividedMeshes ->
        splitMeshesForVertexLimit dividedMeshes = Raise IndexError).
Proof.
  split; intros dividedMeshes H.
  - apply splitMeshesLoop_parts. exists (map (fun mesh => [mesh]) dividedMeshes).
    split; [|rewrite concat_singletons; reflexivity].
    induction H as [|mesh ms Hmesh _ IH]; constructor; [|exact IH].
    apply (splitMesh_small limit), Hmesh.
  - unfold splitMeshesForVertexLimit.
    pose proof (splitMeshesLoop_outcome dividedMeshes []) as Hout.
    destruct (splitMeshesLoop limit dividedMeshes []) as [r|e|] eqn:E;
      [|congruence|contradiction].
    exfalso. apply splitMeshesLoop_parts in E as (parts & Hparts & _).
    apply List.Exists_exists in H as (mesh & Hin & Hgt & Hbad).
    pose proof (splitMesh_IndexError mesh Hgt Hbad) as Hraise.
    clear - Hparts Hin Hraise.
    induction Hparts as [|m part ms parts Hpart _ IH]; [destruct Hin|].
    destruct Hin as [->|Hin]; [congruence | exact (IH Hin)].
Qed.

(** ** The partitioner once more *)

Lemma winding_length (fi : list nat) :
  3 <= length fi -> length (winding fi) = if length fi =? 4 then 6 else 3.
Proof.
  destruct fi as [|a [|b [|c [|e [|e' more]]]]]; simpl; intros H; try lia; reflexivity.
Qed.

Lemma faceBody_length (object : Object) (meshCopy : BlenderMesh) (materialIndex : nat)
    (face : TessFace) (d : list (UvVertex * nat)) (ind : list nat) d' ind' :
  faceBody object meshCopy materialIndex face d ind = Ok (d', ind') ->
  3 <= length (face_vertices face)
  /\ length ind' = length ind + (if length (face_vertices face) =? 4 then 6 else 3).
Proof.
  intros H. apply faceBody_indices in H as (fi & Hloop & Hlen & ->).
  apply vertexLoop_lookup in Hloop as (occ & new & ext & Hocc & -> & _ & Hall).
  apply occurrencesFrom_length in Hocc. apply Forall2_length in Hall.
  cbn [app] in *. rewrite length_app, (winding_length _ Hlen).
  rewrite <- Hocc, Hall. split; [lia | reflexivity].
Qed.

Lemma tessfaceLoop_length (object : Object) (meshCopy : BlenderMesh) (materialIndex : nat)
    (faces : list TessFace) :
  forall (d : list (UvVertex * nat)) (ind : list nat) d' ind',
  tessfaceLoop object meshCopy materialIndex faces d ind = Ok (d', ind') ->
  let mine := List.filter (fun face => materialIndex =? material_index face) faces in
  Forall (fun face => 3 <= length (face_vertices face)) mine
  /\ length ind' = length ind + 3 * length mine
       + 3 * length (List.filter (fun face => length (face_vertices face) =? 4) mine).
Proof.
  induction faces as [|face faces IH]; intros d ind d' ind' H.
  - injection H as <- <-. split; [constructor | simpl; lia].
  - simpl in H. simpl List.filter.
    destruct (materialIndex =? material_index face); simpl in H.
    + apply bind_Ok in H as ([d1 ind1] & Hface & H).
      apply faceBody_length in Hface as [H3 Hlen1].
      apply IH in H as [Hall Hlen]. split; [constructor; assumption|].
      cbn [List.filter length]. rewrite Hlen, Hlen1.
      destruct (length (face_vertices face) =? 4); simpl length; lia.
    + apply IH in H. exact H.
Qed.

Lemma occurrences_lengths (object : Object) (meshCopy : BlenderMesh) (materialIndex : nat)
    (faces : list TessFace) (occs : list (list UvVertex)) :
  Forall2 (fun face occ => faceOccurrences object meshCopy materialIndex face = Ok occ)
    faces occs ->
  length (concat occs) = length (flat_map face_vertices faces).
Proof.
  induction 1 as [|face occ faces occs H _ IH]; [reflexivity|].
  simpl. rewrite !length_app, IH. f_equal. eapply occurrencesFrom_length, H.
Qed.

Lemma materialBody_counts (self : NodeWriter) (object : Object) (meshCopy : BlenderMesh)
    (materialIndex : nat) (mesh : Mesh) :
  materialBody self object meshCopy materialIndex = Ok mesh ->
  Forall (fun face => 3 <= length (face_vertices face)) (facesOf meshCopy materialIndex)
  /\ length (indices mesh)
     = 3 * length (facesOf meshCopy materialIndex)
       + 3 * length (List.filter (fun face => length (face_vertices face) =? 4)
                       (facesOf meshCopy materialIndex))
  /\ length (vertices mesh)
     <= length (flat_map face_vertices (facesOf meshCopy materialIndex)).
Proof.
  intros Hmesh.
  pose proof (materialBody_spec _ _ _ _ _ Hmesh) as (occs & Hoccs & Hv & _).
  unfold materialBody in Hmesh. apply bind_Ok in Hmesh as (slot & _ & Hmesh).
  destruct slot as [material|]; [|discriminate].
  destruct (startswith (mat_name material) "__"); [discriminate|].
  apply bind_Ok in Hmesh as ([d ind] & Hloop & Hmesh).
  apply bind_Ok in Hmesh as (id & _ & Hmesh). injection Hmesh as <-.
  apply tessfaceLoop_length in Hloop as [Hall Hlen]. cbn zeta in *.
  split; [exact Hall|]. split; [exact Hlen|]. cbn [vertices] in *.
  rewrite <- (occurrences_lengths _ _ _ _ _ Hoccs), Hv. unfold firstSeen.
  destruct (firstSeenFrom_extends UvVertex_eq (concat occs) []) as (ext & -> & Hext).
  exact Hext.
Qed.

(** X4.  The number of indices and of vertices of a partition.  In each
    partition returned every face of the material has at least three
    vertices; the partition has three indices for each of its faces and
    three more for each face of four vertices; and it has at most as many
    vertices as its faces have corners. *)
Theorem splitObjectByMaterials_counts (set_iter : list nat -> list nat)
    (self : NodeWriter) (object : Object) (meshes : list Mesh) :
  splitObjectByMaterials set_iter self object = Ok meshes ->
  Forall2 (fun materialIndex mesh =>
    let faces := facesOf (to_mesh (data object)) materialIndex in
    Forall (fun face => 3 <= length (face_vertices face)) faces
    /\ length (indices mesh)
       = 3 * length faces
         + 3 * length (List.filter (fun face => length (face_vertices face) =? 4) faces)
    /\ length (vertices mesh) <= length (flat_map face_vertices faces))
    (set_iter (map material_index (tessfaces (to_mesh (data object))))) meshes.
Proof.
  unfold splitObjectByMaterials. intros H.
  destruct (length (materials (to_mesh (data object))) =? 0); [discriminate|].
  apply comprehension_Forall2 in H. eapply Forall2_impl; [exact H|].
  intros materialIndex mesh Hmesh. exact (materialBody_counts _ _ _ _ _ Hmesh).
Qed.

(** X5.  The material of a partition.  For each partition returned the
    slot of its material index holds a material, the name of the material
    does not start with two underscores, and the material id of the
    partition is what [materialPositions] has for that name. *)
Theorem splitObjectByMaterials_material (set_iter : list nat -> list nat)
    (self : NodeWriter) (object : Object) (meshes : list Mesh) :
  splitObjectByMaterials set_iter self object = Ok meshes ->
  materials (to_mesh (data object)) <> []
  /\ Forall2 (fun materialIndex mesh =>
       exists material,
         materials (to_mesh (data object)) !! materialIndex = Some (Some material)
         /\ startswith (mat_name material) "__" = false
         /\ materialPositions self !! mat_name material = Some (materialId mesh))
       (set_iter (map material_index (tessfaces (to_mesh (data object))))) meshes.
Proof.
  unfold splitObjectByMaterials. intros H.
  destruct (materials (to_mesh (data object))) as [|slot0 slots] eqn:Eslots;
    [discriminate|].
  split; [discriminate|]. cbn [length Nat.eqb] in H. rewrite <- Eslots in *.
  apply comprehension_Forall2 in H. eapply Forall2_impl; [exact H|].
  intros materialIndex mesh Hmesh. cbv beta in Hmesh.
  unfold materialBody in Hmesh. apply bind_Ok in Hmesh as (slot & Hslot & Hmesh).
  apply getitem_Ok in Hslot. destruct slot as [material|]; [|discriminate].
  destruct (startswith (mat_name material) "__") eqn:Ename; [discriminate|].
  apply bind_Ok in Hmesh as ([d ind] & _ & Hmesh).
  apply bind_Ok in Hmesh as (id & Hid & Hmesh). injection Hmesh as <-.
  exists material. split; [exact Hslot|]. split; [exact Ename|].
  destruct (materialPositions self !! mat_name material); [|discriminate].
  injection Hid as ->. reflexivity.
Qed.

(** ** Division by a dimension of zero *)

Lemma div_outcome (a b : Q) :
  div a b = (if Qeq_bool b 0 then Raise ZeroDivisionError else Ok (a / b)%Q).
Proof. reflexivity. Qed.

(** X6.  Without uv layer the vertex of a face cannot be built for an
    object without extent along x or along y: [faceVertex] raises
    [ZeroDivisionError] exactly when the mesh has no uv layer, the vertex
    index is a position of the vertex list and the x or the y dimension of
    the object is zero. *)
Theorem faceVertex_ZeroDivisionError (object : Object) (meshCopy : BlenderMesh)
    (materialIndex : nat) (face : TessFace) (vertexIndexForFace vIndex : nat) :
  faceVertex object meshCopy materialIndex face vertexIndexForFace vIndex
  = Raise ZeroDivisionError
  <-> (tessface_uv_active meshCopy = None
       /\ vIndex < length (mesh_vertices meshCopy)
       /\ ((x3 (dimensions (data object)) == 0)%Q
           \/ (y3 (dimensions (data object)) == 0)%Q)).
Proof.
  unfold faceVertex, calculateUvs, getitem at 1.
  destruct (mesh_vertices meshCopy !! vIndex) as [v|] eqn:Ev.
  2:{ apply lookup_ge_None in Ev. cbn [bind]. split; [discriminate|].
      intros (_ & Hlt & _). lia. }
  apply lookup_lt_Some in Ev. cbn [bind].
  destruct (tessface_uv_active meshCopy) as [layer_data|].
  { split; [|intros [? _]; discriminate]. unfold getitem.
    destruct (layer_data !! face_index face) as [face_uv|]; cbn [bind]; [|discriminate].
    destruct (face_uv !! vertexIndexForFace); cbn [bind]; discriminate. }
  rewrite !div_outcome.
  destruct (Qeq_bool (x3 (dimensions (data object))) 0) eqn:Ex; cbn [bind].
  { apply Qeq_bool_iff in Ex. split; [intros _|reflexivity]. auto. }
  destruct (Qeq_bool (y3 (dimensions (data object))) 0) eqn:Ey; cbn [bind].
  { apply Qeq_bool_iff in Ey. split; [intros _|reflexivity]. auto. }
  split.
  - unfold getitem. destruct (materials meshCopy !! materialIndex) as [[material|]|];
      cbn [bind]; try discriminate.
    destruct (getActiveMaterialTextureSlot material); discriminate.
  - intros (_ & _ & [H|H]); apply Qeq_bool_iff in H; congruence.
Qed.

(** ** The bounding sphere once more *)

Section AxisBounds.
Variable axis : Vec3 -> Q.

Lemma fold_Qmax_ge (vs : list UvVertex) (a : Q) :
  (a <= fold_left (fun m v => Qmax m (axis (co v))) vs a)%Q
  /\ forall v, In v vs ->
       (axis (co v) <= fold_left (fun m v => Qmax m (axis (co v))) vs a)%Q.
Proof.
  revert a. induction vs as [|w vs IH]; intros a.
  - split; [apply Qle_refl | intros v []].
  - destruct (IH (Qmax a (axis (co w)))) as [Hinit Helem]. simpl. split.
    + eapply Qle_trans; [apply Q.le_max_l | exact Hinit].
    + intros v [->|Hv]; [|exact (Helem v Hv)].
      eapply Qle_trans; [apply Q.le_max_r | exact Hinit].
Qed.

Lemma fold_Qmin_le (vs : list UvVertex) (a : Q) :
  (fold_left (fun m v => Qmin m (axis (co v))) vs a <= a)%Q
  /\ forall v, In v vs ->
       (fold_left (fun m v => Qmin m (axis (co v))) vs a <= axis (co v))%Q.
Proof.
  revert a. induction vs as [|w vs IH]; intros a.
  - split; [apply Qle_refl | intros v []].
  - destruct (IH (Qmin a (axis (co w)))) as [Hinit Helem]. simpl. split.
    + eapply Qle_trans; [exact Hinit | apply Q.le_min_l].
    + intros v [->|Hv]; [|exact (Helem v Hv)].
      eapply Qle_trans; [exact Hinit | apply Q.le_min_r].
Qed.

(** The coordinates of the vertices lie between [axisMin] and [axisMax]. *)
Lemma axis_bounds (vs : list UvVertex) (v : UvVertex) :
  In v vs -> (axisMin axis vs <= axis (co v) <= axisMax axis vs)%Q.
Proof.
  destruct vs as [|w vs]; [intros []|]. unfold axisMin, axisMax.
  destruct (fold_Qmax_ge vs (axis (co w))) as [HM HMe].
  destruct (fold_Qmin_le vs (axis (co w))) as [Hm Hme].
  intros [->|Hv]; split; auto.
Qed.
End AxisBounds.

(** Within the sentinels the extrema of the loop are the least and the
    greatest coordinates. *)
Lemma extremaLoop_in_range (vs : list UvVertex) :
  vs <> [] ->
  (-999999999 <= axisMax x3 vs /\ axisMin x3 vs <= 999999999
   /\ -999999999 <= axisMax y3 vs /\ axisMin y3 vs <= 999999999
   /\ -999999999 <= axisMax z3 vs /\ axisMin z3 vs <= 999999999)%Q ->
  (maxX (extremaLoop vs Extrema_init) == axisMax x3 vs
   /\ maxY (extremaLoop vs Extrema_init) == axisMax y3 vs
   /\ maxZ (extremaLoop vs Extrema_init) == axisMax z3 vs
   /\ minX (extremaLoop vs Extrema_init) == axisMin x3 vs
   /\ minY (extremaLoop vs Extrema_init) == axisMin y3 vs
   /\ minZ (extremaLoop vs Extrema_init) == axisMin z3 vs)%Q.
Proof.
  intros Hne (HMx & Hmx & HMy & Hmy & HMz & Hmz).
  destruct (extremaLoop_folds vs Extrema_init) as (EMx & EMy & EMz & Emx & Emy & Emz).
  rewrite EMx, EMy, EMz, Emx, Emy, Emz.
  repeat split;
    first [ apply running_max_axisMax; assumption
          | apply running_min_axisMin; assumption ].
Qed.

Lemma within_half_extent (a b x : Q) :
  (a <= x <= b)%Q ->
  ((x - (a + (b - a) / 2)) * (x - (a + (b - a) / 2))
   <= ((b - a) / 2) * ((b - a) / 2))%Q.
Proof.
  intros [H1 H2].
  assert (H : (0 <= (x - a) * (b - x))%Q) by (apply Qmult_le_0_compat; lra).
  assert (E : ((x - (a + (b - a) / 2)) * (x - (a + (b - a) / 2))
               == (b - a) / 2 * ((b - a) / 2) - (x - a) * (b - x))%Q) by field.
  rewrite E. lra.
Qed.

Lemma square_le (h r : Q) : (0 <= h <= r)%Q -> (h * h <= r * r)%Q.
Proof.
  intros [H1 H2].
  assert (H : (0 <= (r - h) * (r + h))%Q) by (apply Qmult_le_0_compat; lra).
  assert (E : (r * r == h * h + (r - h) * (r + h))%Q) by ring.
  rewrite E. lra.
Qed.

Lemma half_nonneg (a b : Q) : (a <= b)%Q -> (0 <= (b - a) / 2)%Q.
Proof.
  intros H. unfold Qdiv. apply Qmult_le_0_compat; [lra|].
  apply Qinv_le_0_compat. lra.
Qed.

Lemma max3_ge (a b c : Q) : (a <= max3 a b c /\ b <= max3 a b c /\ c <= max3 a b c)%Q.
Proof.
  rewrite max3_Qmax. repeat split.
  - eapply Qle_trans; [apply Q.le_max_l | apply Q.le_max_l].
  - eapply Qle_trans; [apply Q.le_max_r | apply Q.le_max_l].
  - apply Q.le_max_r.
Qed.

(** X7.  The sphere holds the vertices.  For a non-empty vertex list whose
    coordinates reach the range of the sentinels along each axis, the
    radius written is not negative and no vertex is farther from the
    centre written than the radius (the squares of the distance and of the
    radius are compared). *)
Theorem writeBoundingSphere_contains (vertices : list UvVertex) (st : State) :
  vertices <> [] ->
  (-999999999 <= axisMax x3 vertices /\ axisMin x3 vertices <= 999999999
   /\ -999999999 <= axisMax y3 vertices /\ axisMin y3 vertices <= 999999999
   /\ -999999999 <= axisMax z3 vertices /\ axisMin z3 vertices <= 999999999)%Q ->
  exists (center : Vec3) (radius : Q),
    writeBoundingSphere vertices st
    = Ok (mkState (file st ++ [TVector3 center; TFloat (VFloat radius)]) (warnings st))
    /\ (0 <= radius)%Q
    /\ forall v, In v vertices ->
         ((x3 (co v) - x3 center) * (x3 (co v) - x3 center)
          + (y3 (co v) - y3 center) * (y3 (co v) - y3 center)
          + (z3 (co v) - z3 center) * (z3 (co v) - z3 center)
          <= radius * radius)%Q.
Proof.
  intros Hne Hrange.
  exists (sphereCenter (extremaLoop vertices Extrema_init)),
    (sphereRadius (extremaLoop vertices Extrema_init)).
  split.
  { unfold writeBoundingSphere, writeVector3, writeFloat, emit.
    cbn [bind file warnings]. rewrite <- app_assoc. reflexivity. }
  destruct (extremaLoop_in_range vertices Hne Hrange)
    as (AMx & AMy & AMz & Amx & Amy & Amz).
  set (e := extremaLoop vertices Extrema_init) in *.
  assert (Hin : forall v, In v vertices ->
            (minX e <= x3 (co v) <= maxX e /\ minY e <= y3 (co v) <= maxY e
             /\ minZ e <= z3 (co v) <= maxZ e)%Q).
  { intros v Hv. rewrite AMx, AMy, AMz, Amx, Amy, Amz.
    repeat split; apply axis_bounds; exact Hv. }
  unfold sphereCenter, sphereRadius. cbn [x3 y3 z3 fst snd].
  destruct (max3_ge ((maxX e - minX e) / 2) ((maxY e - minY e) / 2)
              ((maxZ e - minZ e) / 2)) as (Rx & Ry & Rz).
  set (r := max3 ((maxX e - minX e) / 2) ((maxY e - minY e) / 2)
              ((maxZ e - minZ e) / 2)) in *.
  clearbody r. clearbody e.
  assert (Hr : (0 <= r)%Q).
  { destruct vertices as [|v0 vs']; [congruence|].
    destruct (Hin v0 (or_introl eq_refl)) as ([? ?] & _).
    eapply Qle_trans; [apply half_nonneg | exact Rx]. lra. }
  split; [lra|]. intros v Hv. destruct (Hin v Hv) as (Hx & Hy & Hz).
  pose proof (within_half_extent _ _ _ Hx) as Ex.
  pose proof (within_half_extent _ _ _ Hy) as Ey.
  pose proof (within_half_extent _ _ _ Hz) as Ez.
  assert (Sx : ((maxX e - minX e) / 2 * ((maxX e - minX e) / 2) <= r * r)%Q)
    by (apply square_le; destruct Hx; split; [apply half_nonneg; lra | exact Rx]).
  assert (Sy : ((maxY e - minY e) / 2 * ((maxY e - minY e) / 2) <= r * r)%Q)
    by (apply square_le; destruct Hy; split; [apply half_nonneg; lra | exact Ry]).
  assert (Sz : ((maxZ e - minZ e) / 2 * ((maxZ e - minZ e) / 2) <= r * r)%Q)
    by (apply square_le; destruct Hz; split; [apply half_nonneg; lra | exact Rz]).
  assert (Hrr : (0 <= r * r)%Q) by (apply Qmult_le_0_compat; exact Hr).
  assert (E : (r * 2 * (r * 2) == 4 * (r * r))%Q) by ring.
  rewrite E. lra.
Qed.

(** ** Trees of objects *)

Lemma Object_induction (P : Object -> Prop) :
  (forall d children, Forall P children -> P (mkObject d children)) ->
  forall object, P object.
Proof.
  intros H. fix IH 1. intros [d c]. apply H.
  induction c as [|child c IHc]; constructor; [apply IH | exact IHc].
Qed.

Lemma descendants_unfold (object : Object) :
  descendants object = flat_map (fun child => child :: descendants child) (children object).
Proof.
  destruct object as [d c]. cbn [descendants children].
  induction c as [|child c IH]; [reflexivity|].
  cbn [flat_map]. rewrite <- IH. reflexivity.
Qed.

Lemma anyChildIsMesh_unfold (object : Object) :
  anyChildIsMesh object
  = existsb (fun child => isMesh child || anyChildIsMesh child) (children object).
Proof.
  destruct object as [d c]. cbn [anyChildIsMesh children].
  induction c as [|child c IH]; [reflexivity|].
  cbn [existsb]. rewrite <- IH. unfold isMesh.
  destruct (String.eqb (ob_type (data child)) "MESH" || anyChildIsMesh child);
    reflexivity.
Qed.

(** X8.  [anyChildIsMesh] looks at every depth: it holds of an object
    exactly when one of the objects below it, at any depth, is a mesh. *)
Theorem anyChildIsMesh_descendants (object : Object) :
  anyChildIsMesh object = existsb isMesh (descendants object).
Proof.
  induction object as [d c IH] using Object_induction.
  rewrite anyChildIsMesh_unfold, descendants_unfold. cbn [children].
  induction IH as [|child c Hchild _ IHc]; [reflexivity|].
  cbn [existsb flat_map]. rewrite existsb_app. cbn [existsb].
  rewrite Hchild, IHc. reflexivity.
Qed.

(** ** The records of the file *)

Lemma writeBaseNodeData_record (nodeData : NodeData) (st : State) :
  writeBaseNodeData nodeData st
  = Ok (mkState (file st ++ BaseNode_record nodeData) (warnings st)).
Proof.
  unfold writeBaseNodeData. rewrite writeNodeClass_Node.
  unfold writeString, writeUInt, writeBool, writeMatrix, emit.
  cbn [bind file warnings]. unfold BaseNode_record.
  rewrite <- !app_assoc. reflexivity.
Qed.

Lemma filter_length_bool {A} (P : A -> Prop) `{forall x, Decision (P x)}
    (b : A -> bool) (l : list A) :
  (forall x, P x <-> b x = true) ->
  length (filter P l) = length (List.filter b l).
Proof.
  intros Hb. induction l as [|a l IH]; [reflexivity|].
  rewrite filter_cons. cbn [List.filter].
  destruct (decide (P a)) as [Ha|Ha], (b a) eqn:Eb; cbn [length].
  - rewrite IH. reflexivity.
  - apply Hb in Ha. congruence.
  - exfalso. apply Ha, Hb, Eb.
  - exact IH.
Qed.

Lemma forest_app (n m : nat) (a b : list Token) :
  forest n a -> forest m b -> forest (n + m) (a ++ b).
Proof.
  induction 1 as [|nodeData below after n Hbelow _ Hafter IH
                  |object mesh props after n Hafter IH]; intros Hb.
  - exact Hb.
  - rewrite <- !app_assoc. apply forest_node; [exact Hbelow | exact (IH Hb)].
  - rewrite <- app_assoc. apply forest_mesh. exact (IH Hb).
Qed.

(** The meshes of a node, written one after the other. *)
Lemma for_each_writeMesh (object : Object) (nodeProperties : NodeProperties)
    (meshes : list Mesh) :
  Forall (fun mesh => length (vertices mesh) <= 2 ^ 16) meshes ->
  forall st, exists tokens ws,
    for_each (fun mesh => writeMesh object mesh nodeProperties) meshes st
    = Ok (mkState (file st ++ tokens) (warnings st ++ ws))
    /\ forest (length meshes) tokens.
Proof.
  induction 1 as [|mesh meshes Hmesh _ IH]; intros st.
  - exists [], []. rewrite !app_nil_r. destruct st. split; [reflexivity | constructor].
  - cbn [for_each]. rewrite (writeMesh_record _ _ _ _ Hmesh). cbn [bind].
    destruct (IH (mkState (file st ++ MeshNode_record object mesh nodeProperties)
                    (warnings st ++ if is_None (materialId mesh)
                                    then [NoMaterialToMesh (name object)] else [])))
      as (tokens & ws & -> & Hforest).
    cbn [file warnings]. rewrite <- !app_assoc. do 2 eexists.
    split; [reflexivity|]. cbn [length]. apply forest_mesh. exact Hforest.
Qed.

(** A partition of a material is split into at least one mesh. *)
Lemma partition_chunks (self : NodeWriter) (object : Object) (meshCopy : BlenderMesh)
    (materialIndex : nat) (mesh : Mesh) (part : list Mesh) :
  materialBody self object meshCopy materialIndex = Ok mesh ->
  splitMesh limit mesh = Ok part ->
  part <> [].
Proof.
  intros Hmesh Hpart.
  destruct (Nat.le_gt_cases (length (vertices mesh)) limit) as [Hle|Hgt].
  - rewrite (splitMesh_small _ _ Hle) in Hpart. injection Hpart as <-. discriminate.
  - apply materialBody_counts in Hmesh as (_ & Hind & Hv).
    apply (splitMesh_large _ _ _ limit_gt_3 Hgt) in Hpart as (segs & Hconcat & _ & Hch).
    intros ->. inversion Hch; subst. cbn [concat] in Hconcat.
    destruct (facesOf meshCopy materialIndex) as [|face faces].
    + cbn [flat_map length] in Hv. lia.
    + rewrite <- Hconcat in Hind. cbn [length] in Hind. lia.
Qed.

Lemma splitMeshesLoop_nonempty (self : NodeWriter) (object : Object)
    (meshCopy : BlenderMesh) (materialIndices : list nat) (dividedMeshes : list Mesh)
    (newMeshes : list Mesh) :
  Forall2 (fun materialIndex mesh =>
             materialBody self object meshCopy materialIndex = Ok mesh)
    materialIndices dividedMeshes ->
  splitMeshesForVertexLimit dividedMeshes = Ok newMeshes ->
  materialIndices <> [] -> newMeshes <> [].
Proof.
  intros Hbody Hsplit Hne.
  apply splitMeshesLoop_parts in Hsplit as (parts & Hparts & ->). rewrite app_nil_l.
  destruct Hbody as [|materialIndex mesh mis ms Hmesh _]; [congruence|].
  inversion Hparts as [|? part ? parts' Hpart _]; subst.
  pose proof (partition_chunks _ _ _ _ _ _ Hmesh Hpart) as Hpart'.
  cbn [concat]. destruct part; [congruence | discriminate].
Qed.

(** ** The tree of nodes in the file *)

Lemma splitMeshesForVertexLimit_within (dividedMeshes newMeshes : list Mesh) :
  splitMeshesForVertexLimit dividedMeshes = Ok newMeshes ->
  Forall (fun mesh => length (vertices mesh) <= 2 ^ 16) newMeshes.
Proof.
  intros H. apply splitMeshesLoop_parts in H as (parts & Hparts & ->).
  rewrite app_nil_l. apply Forall_concat.
  induction Hparts as [|mesh part ms parts Hpart _ IH]; constructor; [|exact IH].
  exact (splitMesh_bound _ _ _ limit_gt_3 Hpart).
Qed.

(** The trees written by a loop, when each step writes one tree or none. *)
Lemma for_each_forest {A} (counted : A -> bool) (body : A -> State -> Result State)
    (l : list A) :
  Forall (fun a => forall st st', body a st = Ok st' ->
            exists tokens, file st' = file st ++ tokens
                           /\ forest (if counted a then 1 else 0) tokens) l ->
  forall st st', for_each body l st = Ok st' ->
    exists tokens, file st' = file st ++ tokens
                   /\ forest (length (List.filter counted l)) tokens.
Proof.
  induction 1 as [|a l Ha _ IH]; intros st st' Hloop.
  - injection Hloop as <-. exists []. rewrite app_nil_r. split; [reflexivity | constructor].
  - cbn [for_each] in Hloop. apply bind_Ok in Hloop as (st1 & Hstep & Hloop).
    apply Ha in Hstep as (tokens1 & E1 & Hforest1).
    apply IH in Hloop as (tokens2 & E2 & Hforest2).
    exists (tokens1 ++ tokens2). rewrite E2, E1, <- app_assoc. split; [reflexivity|].
    cbn [List.filter]. destruct (counted a); cbn [length].
    + exact (forest_app 1 _ _ _ Hforest1 Hforest2).
    + exact (forest_app 0 _ _ _ Hforest1 Hforest2).
Qed.

Section BaseNode.
Variable convertMatrix : Matrix -> Matrix.
Variable re_compile : string -> bool -> Regex.
Variable self : NodeWriter.

(** The node of an object without geometry, with the number of the
    children that are written. *)
Lemma writeBaseNode_record (object : Object) (nodeName : string) (st : State) :
  writeBaseNode convertMatrix re_compile self (Some object) nodeName st
  = Ok (mkState
          (file st
           ++ BaseNode_record
                (mkNodeData nodeName
                   (length (List.filter (fun o => negb (isHidden o)) (children object)))
                   true (convertMatrix (matrix_local (data object)))))
          (warnings st
           ++ if negb (isAcObject re_compile self (name object))
                 && negb (anyChildIsMesh object)
              then [UnknownLogicalObject (name object)] else [])).
Proof.
  unfold writeBaseNode.
  rewrite (filter_length_bool _ (fun o => negb (isHidden o)))
    by (intros o; unfold isHidden; destruct (startswith (name o) "__");
        cbn [negb]; split; intros; congruence).
  destruct (negb _ && negb _); unfold warn; cbn [bind];
    rewrite writeBaseNodeData_record; cbn [file warnings];
    [|rewrite app_nil_r]; reflexivity.
Qed.

(** The root node, with the number of the objects that are written below
    it. *)
Lemma writeBaseNode_root (nodeName : string) (st : State) :
  writeBaseNode convertMatrix re_compile self None nodeName st
  = Ok (mkState
          (file st
           ++ BaseNode_record
                (mkNodeData nodeName
                   (length (List.filter
                              (fun o => bool_decide (parent (data o) = None)
                                        && negb (isHidden o))
                              (objects self)))
                   true Matrix_identity))
          (warnings st)).
Proof.
  unfold writeBaseNode.
  rewrite (filter_length_bool _ (fun o => bool_decide (parent (data o) = None)
                                          && negb (isHidden o))).
  - cbn [bind]. apply writeBaseNodeData_record.
  - intros o. unfold isHidden. rewrite andb_true_iff, bool_decide_eq_true.
    destruct (startswith (name o) "__"); cbn [negb]; intuition congruence.
Qed.

End BaseNode.

Section Forest.
Variable convertMatrix : Matrix -> Matrix.
Variable inverted : Matrix -> Matrix.
Variable re_compile : string -> bool -> Regex.
Variable re_escape : string -> string.
Variable set_iter : list nat -> list nat.
Variable self : NodeWriter.

Local Abbreviation writeObject' :=
  (writeObject convertMatrix inverted re_compile re_escape set_iter self).

Hypothesis set_iter_nonempty : forall l, l <> [] -> set_iter l <> [].

Lemma writeMeshNode_forest (object : Object) (st st' : State) :
  (hasParent object = false -> tessfaces (to_mesh (data object)) <> []) ->
  writeMeshNode convertMatrix inverted re_compile re_escape set_iter self object st
  = Ok st' ->
  exists tokens, file st' = file st ++ tokens /\ forest 1 tokens.
Proof.
  intros Hfaces H. unfold writeMeshNode in H.
  apply bind_Ok in H as (partitions & Hpartitions & H).
  apply bind_Ok in H as (dividedMeshes & Hsplit & H).
  apply bind_Ok in H as (st1 & Hnode & H).
  apply bind_Ok in H as (nodeProperties & _ & H).
  destruct (for_each_writeMesh object nodeProperties dividedMeshes
              (splitMeshesForVertexLimit_within _ _ Hsplit) st1)
    as (tokens & ws & Hloop & Hforest).
  rewrite Hloop in H. injection H as <-. cbn [file].
  destruct (bool_decide (parent (data object) <> None)) eqn:Eparent.
  - cbn [orb] in Hnode. rewrite writeBaseNodeData_record in Hnode.
    injection Hnode as <-. cbn [file]. rewrite <- app_assoc. eexists.
    split; [reflexivity|]. rewrite <- (app_nil_r tokens).
    apply forest_node; [exact Hforest | constructor].
  - cbn [orb] in Hnode. apply bool_decide_eq_false in Eparent.
    assert (Hnone : hasParent object = false).
    { unfold hasParent. destruct (parent (data object)); [|reflexivity].
      exfalso. apply Eparent. discriminate. }
    assert (Hne : dividedMeshes <> []).
    { unfold splitObjectByMaterials in Hpartitions.
      destruct (length (materials (to_mesh (data object))) =? 0); [discriminate|].
      apply comprehension_Forall2 in Hpartitions.
      apply (splitMeshesLoop_nonempty _ _ _ _ _ _ Hpartitions Hsplit).
      apply set_iter_nonempty. specialize (Hfaces Hnone).
      destruct (tessfaces (to_mesh (data object))); [congruence | discriminate]. }
    destruct (1 <? length dividedMeshes) eqn:Elen.
    + rewrite writeBaseNodeData_record in Hnode.
      injection Hnode as <-. cbn [file]. rewrite <- app_assoc. eexists.
      split; [reflexivity|]. rewrite <- (app_nil_r tokens).
      apply forest_node; [exact Hforest | constructor].
    + injection Hnode as <-. exists tokens. split; [reflexivity|].
      apply Nat.ltb_ge in Elen.
      destruct dividedMeshes as [|mesh [|mesh' rest]];
        [congruence | exact Hforest | cbn [length] in Elen; lia].
Qed.

Lemma writeObject_forest (object : Object) :
  (forall o, In o (subobjects object) -> isMesh o = true -> hasParent o = false ->
             tessfaces (to_mesh (data o)) <> []) ->
  forall st st', writeObject' object st = Ok st' ->
    exists tokens, file st' = file st ++ tokens
                   /\ forest (if negb (isHidden object) then 1 else 0) tokens.
Proof.
  induction object as [d c IH] using Object_induction. intros Hfaces st st' H.
  rewrite writeObject_unfold in H. unfold isHidden.
  destruct (negb (startswith (name (mkObject d c)) "__")).
  2:{ injection H as <-. exists []. rewrite app_nil_r. split; [reflexivity|constructor]. }
  apply bind_Ok in H as (st1 & Hnode & Hloop). cbn [children] in *.
  assert (Hbelow : exists tokens, file st' = file st1 ++ tokens
            /\ forest (length (List.filter (fun o => negb (isHidden o)) c)) tokens).
  { apply (for_each_forest (fun o => negb (isHidden o)) writeObject' c); [|exact Hloop].
    apply List.Forall_forall. intros child Hin.
    rewrite List.Forall_forall in IH. apply (IH child Hin).
    intros o Ho. apply Hfaces. right. rewrite descendants_unfold. cbn [children].
    apply in_flat_map. exists child. split; [exact Hin | exact Ho]. }
  destruct Hbelow as (below & Ebelow & Hbelow).
  destruct (String.eqb (ob_type (data (mkObject d c))) "MESH") eqn:Etype.
  - destruct c as [|child c]; [|discriminate]. cbn [length Nat.eqb negb] in Hnode.
    apply writeMeshNode_forest in Hnode as (tokens & E & Hforest).
    + injection Hloop as <-. exists tokens. split; [exact E | exact Hforest].
    + apply Hfaces; [left; reflexivity | exact Etype].
  - rewrite writeBaseNode_record in Hnode. injection Hnode as <-. cbn [file children] in Ebelow.
    rewrite Ebelow, <- app_assoc. eexists. split; [reflexivity|].
    rewrite <- (app_nil_r below). apply forest_node; [exact Hbelow | constructor].
Qed.

(** X9.  The file is one tree of nodes.  When the set of the material
    indices of a non-empty list is not empty and every mesh object that has
    no parent has a face, the fields that [write] adds to the file are the
    record of the root node followed by as many trees as its child count
    says, and so on below: every child count in the file is the number of
    the nodes that follow as children. *)
Theorem write_forest (st st' : State) :
  (forall object o, In object (objects self) -> In o (subobjects object) ->
     isMesh o = true -> hasParent o = false ->
     tessfaces (to_mesh (data o)) <> []) ->
  write convertMatrix inverted re_compile re_escape set_iter self st = Ok st' ->
  exists tokens, file st' = file st ++ tokens /\ forest 1 tokens.
Proof.
  intros Hfaces H. unfold write in H. rewrite writeBaseNode_root in H.
  cbn [bind] in H.
  apply (for_each_forest (fun o => bool_decide (parent (data o) = None)
                                   && negb (isHidden o))) in H.
  - destruct H as (below & E & Hbelow). cbn [file] in E.
    rewrite E, <- app_assoc. eexists. split; [reflexivity|].
    rewrite <- (app_nil_r below). apply forest_node; [|constructor].
    cbn [nd_childCount]. rewrite sorted_filter in Hbelow.
    rewrite (Permutation_length (sorted_perm _ _)) in Hbelow. exact Hbelow.
  - apply List.Forall_forall. intros object Hin st1 st2 Hstep.
    apply (Permutation_in _ (sorted_perm _ _)) in Hin.
    destruct (bool_decide (parent (data object) = None)); cbn [andb].
    + apply writeObject_forest in Hstep; [exact Hstep|].
      intros o Ho. exact (Hfaces object o Hin Ho).
    + injection Hstep as <-. exists []. rewrite app_nil_r.
      split; [reflexivity | constructor].
Qed.

End Forest.

(** ** The exceptions of an export *)

Lemma raisesOnly_bind {A B} (allowed : PyExc -> Prop) (r : Result A)
    (k : A -> Result B) :
  raisesOnly allowed r ->
  (forall a, r = Ok a -> raisesOnly allowed (k a)) ->
  raisesOnly allowed (bind r k).
Proof.
  intros Hr Hk. destruct r as [a|e|]; cbn [bind];
    [apply Hk; reflexivity | exact Hr | exact Hr].
Qed.

Lemma raisesOnly_impl {A} (P Q : PyExc -> Prop) (r : Result A) :
  (forall e, P e -> Q e) -> raisesOnly P r -> raisesOnly Q r.
Proof. intros HPQ. destruct r as [a|e|]; cbn [raisesOnly]; auto. Qed.

Lemma getitem_raises {A} (l : list A) (i : nat) : raisesOnly geometric (getitem l i).
Proof. unfold getitem. destruct (l !! i); [exact I | left; reflexivity]. Qed.

Lemma comprehension_raises {A B} (allowed : PyExc -> Prop) (f : A -> Result B)
    (l : list A) :
  (forall a, raisesOnly allowed (f a)) -> raisesOnly allowed (comprehension f l).
Proof.
  intros Hf. induction l as [|a l IH]; [exact I|]. cbn [comprehension].
  apply raisesOnly_bind; [apply Hf|]. intros b _.
  apply raisesOnly_bind; [exact IH|]. intros bs _. exact I.
Qed.

Lemma for_each_raises {A} (allowed : PyExc -> Prop) (body : A -> State -> Result State)
    (l : list A) :
  Forall (fun a => forall st, raisesOnly allowed (body a st)) l ->
  forall st, raisesOnly allowed (for_each body l st).
Proof.
  induction 1 as [|a l Ha _ IH]; intros st; [exact I|]. cbn [for_each].
  apply raisesOnly_bind; [apply Ha|]. intros st1 _. apply IH.
Qed.

Lemma geometric_expected (self : NodeWriter) (e : PyExc) : geometric e -> expected self e.
Proof. intros [-> | ->]; exact I. Qed.

(** With a material in the slot, the vertex of a face raises nothing but
    the exceptions of the geometry. *)
Lemma faceVertex_raises (object : Object) (meshCopy : BlenderMesh) (materialIndex : nat)
    (material : Material) (face : TessFace) (vertexIndexForFace vIndex : nat) :
  materials meshCopy !! materialIndex = Some (Some material) ->
  raisesOnly geometric
    (faceVertex object meshCopy materialIndex face vertexIndexForFace vIndex).
Proof.
  intros Hslot. unfold faceVertex.
  apply raisesOnly_bind; [apply getitem_raises|]. intros v _.
  apply raisesOnly_bind; [|intros uv _; exact I].
  destruct (tessface_uv_active meshCopy) as [layer_data|].
  - apply raisesOnly_bind; [apply getitem_raises|]. intros face_uv _.
    apply raisesOnly_bind; [apply getitem_raises|]. intros uv _. exact I.
  - unfold calculateUvs, getitem. rewrite Hslot, !div_outcome.
    destruct (Qeq_bool (x3 (dimensions (data object))) 0); cbn [bind];
      [right; reflexivity|].
    destruct (Qeq_bool (y3 (dimensions (data object))) 0); cbn [bind];
      [right; reflexivity|].
    destruct (getActiveMaterialTextureSlot material); exact I.
Qed.

Lemma vertexLoop_raises (object : Object) (meshCopy : BlenderMesh) (materialIndex : nat)
    (material : Material) (face : TessFace) (vIndices : list nat) :
  materials meshCopy !! materialIndex = Some (Some material) ->
  forall k d fi,
    raisesOnly geometric (vertexLoop object meshCopy materialIndex face vIndices k d fi).
Proof.
  intros Hslot. induction vIndices as [|vIndex vIndices IH]; intros k d fi; [exact I|].
  rewrite vertexLoop_cons.
  apply raisesOnly_bind; [exact (faceVertex_raises _ _ _ _ _ _ _ Hslot)|].
  intros vertex _. destruct (dict_get UvVertex_eq d vertex); apply IH.
Qed.

Lemma faceBody_raises (object : Object) (meshCopy : BlenderMesh) (materialIndex : nat)
    (material : Material) (face : TessFace) (d : list (UvVertex * nat))
    (ind : list nat) :
  materials meshCopy !! materialIndex = Some (Some material) ->
  raisesOnly geometric (faceBody object meshCopy materialIndex face d ind).
Proof.
  intros Hslot. unfold faceBody.
  apply raisesOnly_bind; [exact (vertexLoop_raises _ _ _ _ _ _ Hslot _ _ _)|].
  intros [d' faceIndices] _.
  repeat (apply raisesOnly_bind; [apply getitem_raises|]; intros ? _).
  destruct (length faceIndices =? 4); [|exact I].
  repeat (apply raisesOnly_bind; [apply getitem_raises|]; intros ? _). exact I.
Qed.

Lemma tessfaceLoop_raises (object : Object) (meshCopy : BlenderMesh)
    (materialIndex : nat) (material : Material) (faces : list TessFace) :
  materials meshCopy !! materialIndex = Some (Some material) ->
  forall d ind,
    raisesOnly geometric (tessfaceLoop object meshCopy materialIndex faces d ind).
Proof.
  intros Hslot. induction faces as [|face faces IH]; intros d ind; [exact I|].
  cbn [tessfaceLoop]. destruct (negb (materialIndex =? material_index face)); [apply IH|].
  apply raisesOnly_bind; [exact (faceBody_raises _ _ _ _ _ _ _ Hslot)|].
  intros [d' ind'] _. apply IH.
Qed.

Lemma materialBody_raises (self : NodeWriter) (object : Object) (meshCopy : BlenderMesh)
    (materialIndex : nat) :
  raisesOnly (expected self) (materialBody self object meshCopy materialIndex).
Proof.
  unfold materialBody, getitem.
  destruct (materials meshCopy !! materialIndex) as [[material|]|] eqn:Hslot;
    cbn [bind]; [|exact I..].
  destruct (startswith (mat_name material) "__"); [exact I|].
  apply raisesOnly_bind.
  - eapply raisesOnly_impl; [apply geometric_expected|].
    exact (tessfaceLoop_raises _ _ _ _ _ Hslot _ _).
  - intros [d ind] _.
    destruct (materialPositions self !! mat_name material) eqn:Hposition;
      cbn [bind]; [exact I | exact Hposition].
Qed.

Lemma splitMeshesForVertexLimit_raises (dividedMeshes : list Mesh) :
  raisesOnly geometric (splitMeshesForVertexLimit dividedMeshes).
Proof.
  unfold splitMeshesForVertexLimit.
  pose proof (splitMeshesLoop_outcome dividedMeshes []) as H.
  destruct (splitMeshesLoop limit dividedMeshes []); [exact I | left; exact H | exact H].
Qed.

Section Raises.
Variable convertMatrix : Matrix -> Matrix.
Variable inverted : Matrix -> Matrix.
Variable re_compile : string -> bool -> Regex.
Variable re_escape : string -> string.
Variable set_iter : list nat -> list nat.
Variable self : NodeWriter.

Local Abbreviation writeObject' :=
  (writeObject convertMatrix inverted re_compile re_escape set_iter self).

Lemma writeMeshNode_raises (object : Object) (st : State) :
  raisesOnly (expected self)
    (writeMeshNode convertMatrix inverted re_compile re_escape set_iter self object st).
Proof.
  unfold writeMeshNode. apply raisesOnly_bind.
  { unfold splitObjectByMaterials.
    destruct (length (materials (to_mesh (data object))) =? 0); [exact I|].
    apply comprehension_raises. intros materialIndex. apply materialBody_raises. }
  intros partitions _. apply raisesOnly_bind.
  { eapply raisesOnly_impl; [apply geometric_expected|].
    apply splitMeshesForVertexLimit_raises. }
  intros dividedMeshes Hsplit. apply raisesOnly_bind.
  { destruct (_ || _); [rewrite writeBaseNodeData_record|]; exact I. }
  intros st1 _. apply raisesOnly_bind.
  { destruct (nodeSettingsLoop_spec _ (nodeSettings_config re_compile re_escape self)
                (NodeProperties_init object)) as (node' & -> & _). exact I. }
  intros nodeProperties _.
  destruct (for_each_writeMesh object nodeProperties dividedMeshes
              (splitMeshesForVertexLimit_within _ _ Hsplit) st1)
    as (tokens & ws & -> & _).
  exact I.
Qed.

Lemma writeObject_raises (object : Object) :
  forall st, raisesOnly (expected self) (writeObject' object st).
Proof.
  induction object as [d c IH] using Object_induction. intros st.
  rewrite writeObject_unfold. destruct (negb _); [|exact I].
  apply raisesOnly_bind.
  - destruct (String.eqb _ _).
    + destruct (negb _); [exact I | apply writeMeshNode_raises].
    + rewrite writeBaseNode_record. exact I.
  - intros st1 _. apply for_each_raises. exact IH.
Qed.

(** X10.  The exceptions of an export.  Whatever the scene, [write]
    returns or raises; it never fails on the vertex limit of [writeMesh],
    since the meshes have been split before they are written, nor on a
    missing attribute, and it raises [KeyError] only for the name of a
    material that has no position in [materialPositions]. *)
Theorem write_raises (st : State) :
  raisesOnly (expected self)
    (write convertMatrix inverted re_compile re_escape set_iter self st).
Proof.
  unfold write. rewrite writeBaseNode_root. cbn [bind].
  apply for_each_raises. apply List.Forall_forall. intros object _ st1.
  destruct (bool_decide _); [apply writeObject_raises | exact I].
Qed.

End Raises.

(** ** The warnings of an export *)

Lemma written_unfold (object : Object) :
  written object
  = if isHidden object then [] else object :: flat_map written (children object).
Proof.
  destruct object as [d c]. cbn [written children].
  destruct (isHidden (mkObject d c)); reflexivity.
Qed.

Lemma splitMesh_materialId (mesh : Mesh) (part : list Mesh) :
  splitMesh limit mesh = Ok part ->
  Forall (fun chunk => materialId chunk = materialId mesh) part.
Proof.
  intros H. destruct (Nat.le_gt_cases (length (vertices mesh)) limit) as [Hle|Hgt].
  - rewrite (splitMesh_small _ _ Hle) in H. injection H as <-. repeat constructor.
  - apply (splitMesh_large _ _ _ limit_gt_3 Hgt) in H as (segs & _ & _ & Hchunks).
    induction Hchunks as [|seg chunk segs chunks [Hid _] _ IH]; constructor;
      [exact Hid | exact IH].
Qed.

Lemma splitMeshesForVertexLimit_materialId (P : Value -> Prop)
    (dividedMeshes newMeshes : list Mesh) :
  splitMeshesForVertexLimit dividedMeshes = Ok newMeshes ->
  Forall (fun mesh => P (materialId mesh)) dividedMeshes ->
  Forall (fun mesh => P (materialId mesh)) newMeshes.
Proof.
  intros H. apply splitMeshesLoop_parts in H as (parts & Hparts & ->).
  rewrite app_nil_l. intros HP. apply Forall_concat.
  induction Hparts as [|mesh part ms parts Hpart _ IH]; [constructor|].
  inversion HP as [|? ? Hmesh Hms]; subst. constructor; [|exact (IH Hms)].
  apply splitMesh_materialId in Hpart. eapply Forall_impl; [exact Hpart|].
  intros chunk Hchunk. cbv beta in Hchunk. rewrite Hchunk. exact Hmesh.
Qed.

(** Meshes with a material id are written without warning. *)
Lemma for_each_writeMesh_quiet (object : Object) (nodeProperties : NodeProperties)
    (meshes : list Mesh) :
  Forall (fun mesh => length (vertices mesh) <= 2 ^ 16) meshes ->
  Forall (fun mesh => is_None (materialId mesh) = false) meshes ->
  forall st st',
    for_each (fun mesh => writeMesh object mesh nodeProperties) meshes st = Ok st' ->
    warnings st' = warnings st.
Proof.
  induction 1 as [|mesh meshes Hmesh _ IH]; intros Hids st st' H.
  - injection H as <-. reflexivity.
  - inversion Hids as [|? ? Hid Hids']; subst. cbn [for_each] in H.
    rewrite (writeMesh_record _ _ _ _ Hmesh), Hid, app_nil_r in H. cbn [bind] in H.
    apply (IH Hids') in H. exact H.
Qed.

Lemma for_each_warnings {A} (ws : A -> list Warning) (body : A -> State -> Result State)
    (l : list A) :
  Forall (fun a => forall st st', body a st = Ok st' ->
                     warnings st' = warnings st ++ ws a) l ->
  forall st st', for_each body l st = Ok st' ->
    warnings st' = warnings st ++ flat_map ws l.
Proof.
  induction 1 as [|a l Ha _ IH]; intros st st' H.
  - injection H as <-. cbn [flat_map]. rewrite app_nil_r. reflexivity.
  - cbn [for_each] in H. apply bind_Ok in H as (st1 & Hstep & H).
    apply IH in H. apply Ha in Hstep. rewrite H, Hstep, <- app_assoc. reflexivity.
Qed.

Lemma for_each_appends {A} (body : A -> State -> Result State) (l : list A) :
  Forall (fun a => forall st st', body a st = Ok st' ->
                     exists tokens, file st' = file st ++ tokens) l ->
  forall st st', for_each body l st = Ok st' ->
    exists tokens, file st' = file st ++ tokens.
Proof.
  induction 1 as [|a l Ha _ IH]; intros st st' H.
  - injection H as <-. exists []. rewrite app_nil_r. reflexivity.
  - cbn [for_each] in H. apply bind_Ok in H as (st1 & Hstep & H).
    apply IH in H as [tokens2 E2]. apply Ha in Hstep as [tokens1 E1].
    exists (tokens1 ++ tokens2). rewrite E2, E1, <- app_assoc. reflexivity.
Qed.

Section Warnings.
Variable convertMatrix : Matrix -> Matrix.
Variable inverted : Matrix -> Matrix.
Variable re_compile : string -> bool -> Regex.
Variable re_escape : string -> string.
Variable set_iter : list nat -> list nat.
Variable self : NodeWriter.

Local Abbreviation writeObject' :=
  (writeObject convertMatrix inverted re_compile re_escape set_iter self).

Local Abbreviation unknown :=
  (fun o => negb (isMesh o) && negb (isAcObject re_compile self (name o))
            && negb (anyChildIsMesh o)).

Local Abbreviation unknownLogicalObjects :=
  (fun objects : list Object =>
     map (fun o => UnknownLogicalObject (name o)) (List.filter unknown objects)).

Lemma unknownLogicalObjects_flat_map (l : list Object) :
  unknownLogicalObjects (flat_map written l)
  = flat_map (fun o => unknownLogicalObjects (written o)) l.
Proof.
  induction l as [|o l IH]; [reflexivity|].
  cbn [flat_map]. rewrite List.filter_app, map_app, IH. reflexivity.
Qed.

(** What an object adds to the file comes after what the file holds. *)
Lemma writeObject_appends (object : Object) :
  forall st st', writeObject' object st = Ok st' ->
    exists tokens, file st' = file st ++ tokens.
Proof.
  induction object as [d c IH] using Object_induction. intros st st' H.
  rewrite writeObject_unfold in H. destruct (negb _).
  2:{ injection H as <-. exists []. rewrite app_nil_r. reflexivity. }
  apply bind_Ok in H as (st1 & Hnode & Hloop). cbn [children] in *.
  apply (for_each_appends _ _ IH) in Hloop as [below Ebelow].
  assert (Hnode' : exists tokens, file st1 = file st ++ tokens).
  { destruct (String.eqb _ _).
    - destruct (negb _); [discriminate|]. unfold writeMeshNode in Hnode.
      apply bind_Ok in Hnode as (partitions & _ & Hnode).
      apply bind_Ok in Hnode as (dividedMeshes & Hsplit & Hnode).
      apply bind_Ok in Hnode as (st2 & Hbase & Hnode).
      apply bind_Ok in Hnode as (nodeProperties & _ & Hnode).
      destruct (for_each_writeMesh (mkObject d c) nodeProperties dividedMeshes
                  (splitMeshesForVertexLimit_within _ _ Hsplit) st2)
        as (tokens & ws & Hloop & _).
      rewrite Hloop in Hnode. injection Hnode as <-. cbn [file].
      destruct (_ || _).
      + rewrite writeBaseNodeData_record in Hbase. injection Hbase as <-.
        cbn [file]. rewrite <- app_assoc. eexists. reflexivity.
      + injection Hbase as <-. eexists. reflexivity.
    - rewrite writeBaseNode_record in Hnode. injection Hnode as <-.
      cbn [file]. eexists. reflexivity. }
  destruct Hnode' as [tokens Etokens]. exists (tokens ++ below).
  rewrite Ebelow, Etokens, <- app_assoc. reflexivity.
Qed.

(** X11.  A mesh without faces and without parent leaves no trace.  For a
    mesh object that has no parent, no children, no faces and at least one
    material slot, and whose name does not have the reserved prefix,
    [writeObject] returns with the file and the warnings as they were;
    yet when the object is one of the objects of the file, the child count
    of the root node that [write] writes is the number of the objects
    without parent and without the reserved prefix, this object among
    them. *)
Theorem writeObject_faceless (object : Object) (st : State) :
  set_iter [] = [] ->
  isMesh object = true ->
  isHidden object = false ->
  children object = [] ->
  parent (data object) = None ->
  tessfaces (to_mesh (data object)) = [] ->
  materials (to_mesh (data object)) <> [] ->
  writeObject' object st = Ok st
  /\ (In object (objects self) ->
      forall st0 st',
        write convertMatrix inverted re_compile re_escape set_iter self st0 = Ok st' ->
        exists rest,
          file st'
          = file st0
            ++ BaseNode_record
                 (mkNodeData "BlenderFile"
                    (length (List.filter
                               (fun o => bool_decide (parent (data o) = None)
                                         && negb (isHidden o))
                               (objects self)))
                    true Matrix_identity)
            ++ rest
          /\ In object
               (List.filter (fun o => bool_decide (parent (data o) = None)
                                      && negb (isHidden o))
                  (objects self))).
Proof.
  intros Hset Hmesh Hhidden Hchildren Hparent Hfaces Hmaterials. split.
  - rewrite writeObject_unfold. unfold isMesh, isHidden in *.
    rewrite Hhidden, Hmesh, Hchildren. cbn [negb length Nat.eqb for_each].
    unfold writeMeshNode, splitObjectByMaterials. rewrite Hfaces, Hparent.
    destruct (materials (to_mesh (data object))); [congruence|].
    cbn [length Nat.eqb map]. rewrite Hset. cbn [comprehension bind].
    unfold splitMeshesForVertexLimit. cbn [splitMeshesLoop bind length].
    replace (bool_decide (None <> None) || (1 <? 0)) with false
      by (rewrite bool_decide_eq_false_2 by congruence; reflexivity).
    cbn [bind].
    destruct (nodeSettingsLoop_spec _ (nodeSettings_config re_compile re_escape self)
                (NodeProperties_init object)) as (node' & -> & _).
    reflexivity.
  - intros Hin st0 st' H. unfold write in H. rewrite writeBaseNode_root in H.
    cbn [bind] in H. apply for_each_appends in H as [rest Erest].
    + exists rest. cbn [file] in Erest. rewrite Erest, <- app_assoc.
      split; [reflexivity|]. apply filter_In. split; [exact Hin|].
      rewrite Hhidden, bool_decide_eq_true_2 by exact Hparent. reflexivity.
    + apply List.Forall_forall. intros o _ st1 st2 Hstep.
      destruct (bool_decide _); [exact (writeObject_appends _ _ _ Hstep)|].
      injection Hstep as <-. exists []. rewrite app_nil_r. reflexivity.
Qed.

Lemma writeMeshNode_quiet (object : Object) (st st' : State) :
  (forall key v, materialPositions self !! key = Some v -> is_None v = false) ->
  writeMeshNode convertMatrix inverted re_compile re_escape set_iter self object st
  = Ok st' ->
  warnings st' = warnings st.
Proof.
  intros Hpositions H. unfold writeMeshNode in H.
  apply bind_Ok in H as (partitions & Hpartitions & H).
  apply bind_Ok in H as (dividedMeshes & Hsplit & H).
  apply bind_Ok in H as (st1 & Hnode & H).
  apply bind_Ok in H as (nodeProperties & _ & H).
  assert (Hids : Forall (fun mesh => is_None (materialId mesh) = false) partitions).
  { unfold splitObjectByMaterials in Hpartitions.
    destruct (length (materials (to_mesh (data object))) =? 0); [discriminate|].
    apply comprehension_Forall2 in Hpartitions. clear Hsplit.
    induction Hpartitions as [|materialIndex mesh mis ms Hmesh _ IH];
      constructor; [|exact IH].
    unfold materialBody in Hmesh. apply bind_Ok in Hmesh as (slot & _ & Hmesh).
    destruct slot as [material|]; [|discriminate].
    destruct (startswith (mat_name material) "__"); [discriminate|].
    apply bind_Ok in Hmesh as ([d ind] & _ & Hmesh).
    destruct (materialPositions self !! mat_name material) as [id|] eqn:Hid;
      [|discriminate].
    cbn [bind] in Hmesh. injection Hmesh as <-. exact (Hpositions _ _ Hid). }
  apply (splitMeshesForVertexLimit_materialId (fun id => is_None id = false) _ _ Hsplit)
    in Hids.
  apply (for_each_writeMesh_quiet _ _ _ (splitMeshesForVertexLimit_within _ _ Hsplit)
           Hids) in H.
  rewrite H. destruct (_ || _).
  - rewrite writeBaseNodeData_record in Hnode. injection Hnode as <-. reflexivity.
  - injection Hnode as <-. reflexivity.
Qed.

Lemma writeObject_warnings (object : Object) :
  (forall key v, materialPositions self !! key = Some v -> is_None v = false) ->
  forall st st', writeObject' object st = Ok st' ->
    warnings st' = warnings st ++ unknownLogicalObjects (written object).
Proof.
  intros Hpositions. induction object as [d c IH] using Object_induction.
  intros st st' H. rewrite writeObject_unfold in H. rewrite written_unfold.
  unfold isHidden. destruct (startswith (name (mkObject d c)) "__"); cbn [negb] in H.
  { injection H as <-. cbn [List.filter map]. rewrite app_nil_r. reflexivity. }
  apply bind_Ok in H as (st1 & Hnode & Hloop). cbn [children] in *.
  apply (for_each_warnings (fun o => unknownLogicalObjects (written o))) in Hloop;
    [|exact IH].
  rewrite <- unknownLogicalObjects_flat_map in Hloop.
  cbn [List.filter]. unfold isMesh at 1.
  destruct (String.eqb (ob_type (data (mkObject d c))) "MESH").
  - destruct c as [|child c]; [|discriminate]. cbn [length Nat.eqb negb] in Hnode.
    apply (writeMeshNode_quiet _ _ _ Hpositions) in Hnode.
    cbn [negb andb]. rewrite Hloop, Hnode. reflexivity.
  - rewrite writeBaseNode_record in Hnode. injection Hnode as <-.
    cbn [warnings] in Hloop. rewrite Hloop, <- app_assoc. f_equal.
    cbn [negb andb]. destruct (negb _ && negb _); reflexivity.
Qed.

(** X12.  The warnings of an export.  When no material has [None] for
    position, [write] warns about the objects that are no meshes, have no
    name of an Assetto Corsa object and have no mesh below them, once for
    each in the order of the traversal (the objects without parent by
    number of children, every object before its children, objects with the
    reserved prefix left out with all below them), and about nothing else:
    the warning of [writeMesh] for a mesh without material is never
    given. *)
Theorem write_warnings (st st' : State) :
  (forall key v, materialPositions self !! key = Some v -> is_None v = false) ->
  write convertMatrix inverted re_compile re_escape set_iter self st = Ok st' ->
  warnings st'
  = warnings st
    ++ map (fun o => UnknownLogicalObject (name o))
         (List.filter
            (fun o => negb (isMesh o) && negb (isAcObject re_compile self (name o))
                      && negb (anyChildIsMesh o))
            (flat_map written
               (List.filter (fun o => bool_decide (parent (data o) = None))
                  (sorted (fun k => length (children k)) (objects self))))).
Proof.
  intros Hpositions H. unfold write in H. rewrite writeBaseNode_root in H.
  cbn [bind] in H.
  rewrite (for_each_filter (fun o => bool_decide (parent (data o) = None))) in H.
  apply (for_each_warnings (fun o => unknownLogicalObjects (written o))) in H.
  - rewrite unknownLogicalObjects_flat_map. exact H.
  - apply List.Forall_forall. intros object _. apply writeObject_warnings, Hpositions.
Qed.

End Warnings.

(** ** The further properties at closed inputs *)

(** What the splitter returns for the two meshes, split again (X1). *)
Lemma splitMeshesForVertexLimit_idempotent_witness :
  splitMeshesForVertexLimit [Examples.big_mesh_chunk; Examples.small_mesh]
  = Ok [Examples.big_mesh_chunk; Examples.small_mesh].
Proof.
  apply (splitMeshesForVertexLimit_idempotent [Examples.big_mesh; Examples.small_mesh]).
  vm_compute. reflexivity.
Defined.

(** The invariants on the two meshes (X2). *)
Lemma splitMeshesForVertexLimit_invariants_witness :
  Forall (fun mesh => Forall (fun i => i < length (vertices mesh)) (indices mesh))
    [Examples.big_mesh_chunk; Examples.small_mesh]
  /\ length (concat (map indices [Examples.big_mesh_chunk; Examples.small_mesh])) = 9
  /\ Forall (fun mesh => length (indices mesh) mod 3 = 0)
       [Examples.big_mesh_chunk; Examples.small_mesh].
Proof.
  destruct (splitMeshesForVertexLimit_invariants
              [Examples.big_mesh; Examples.small_mesh]
              [Examples.big_mesh_chunk; Examples.small_mesh])
    as (Hvalid & Hlength & Htriangles).
  - vm_compute. reflexivity.
  - split; [|split].
    + apply Hvalid. apply valid_indices_check. vm_compute. reflexivity.
    + rewrite Hlength. reflexivity.
    + apply Htriangles. repeat constructor.
Defined.

(** The counts of the partition of the square: two faces, one of them a
    quad, over seven corners (X4). *)
Lemma splitObjectByMaterials_counts_witness :
  length (indices Examples.square_partition) = 3 * 2 + 3 * 1
  /\ length (vertices Examples.square_partition) <= 7.
Proof.
  assert (H : splitObjectByMaterials Examples.set_iter Examples.with_paint Examples.square
              = Ok [Examples.square_partition]) by (vm_compute; reflexivity).
  pose proof (splitObjectByMaterials_counts _ _ _ _ H) as Hcounts.
  inversion Hcounts as [|materialIndex mesh ? ? (_ & Hindices & Hvertices) _ E1 E2].
  assert (materialIndex = 0) as -> by (vm_compute in E1; congruence).
  split; [exact Hindices | exact Hvertices].
Defined.

(** The material of the partition of the square (X5). *)
Lemma splitObjectByMaterials_material_witness :
  exists material,
    materials Examples.square_mesh !! 0 = Some (Some material)
    /\ startswith (mat_name material) "__" = false
    /\ materialPositions Examples.with_paint !! mat_name material
       = Some (materialId Examples.square_partition).
Proof.
  assert (H : splitObjectByMaterials Examples.set_iter Examples.with_paint Examples.square
              = Ok [Examples.square_partition]) by (vm_compute; reflexivity).
  destruct (splitObjectByMaterials_material _ _ _ _ H) as [_ Hmaterial].
  inversion Hmaterial as [|materialIndex mesh ? ? Hslot _ E1 E2].
  assert (materialIndex = 0) as -> by (vm_compute in E1; congruence).
  exact Hslot.
Defined.

(** The sphere of the unit cube (X7). *)
Lemma writeBoundingSphere_contains_witness :
  exists (center : Vec3) (radius : Q),
    writeBoundingSphere Examples.unit_cube Examples.start
    = Ok (mkState [TVector3 center; TFloat (VFloat radius)] [])
    /\ (0 <= radius)%Q
    /\ forall v, In v Examples.unit_cube ->
         ((x3 (co v) - x3 center) * (x3 (co v) - x3 center)
          + (y3 (co v) - y3 center) * (y3 (co v) - y3 center)
          + (z3 (co v) - z3 center) * (z3 (co v) - z3 center)
          <= radius * radius)%Q.
Proof.
  apply (writeBoundingSphere_contains Examples.unit_cube Examples.start).
  - discriminate.
  - repeat split; apply Qle_bool_imp_le; vm_compute; reflexivity.
Defined.

Lemma set_iter_nonempty (l : list nat) : l <> [] -> Examples.set_iter l <> [].
Proof.
  intros Hne Hset. destruct l as [|i l]; [congruence|].
  assert (Hin : i ∈ remove_dups (i :: l)) by (apply elem_of_remove_dups; left).
  pose proof (sorted_perm id (remove_dups (i :: l))) as Hperm.
  unfold Examples.set_iter in Hset. rewrite Hset in Hperm.
  apply Permutation_nil in Hperm. rewrite Hperm in Hin. inversion Hin.
Qed.

(** The faces of the meshes without parent checked by computation. *)
Lemma faces_check (objects : list Object) :
  forallb (fun o => implb (isMesh o && negb (hasParent o))
                      (negb (length (tessfaces (to_mesh (data o))) =? 0)))
    (flat_map subobjects objects) = true ->
  forall object o, In object objects -> In o (subobjects object) ->
    isMesh o = true -> hasParent o = false ->
    tessfaces (to_mesh (data o)) <> [].
Proof.
  intros H object o Hobject Ho Hmesh Hparent Hfaces.
  rewrite forallb_forall in H. specialize (H o).
  rewrite Hmesh, Hparent, Hfaces in H. cbn in H.
  assert (false = true); [|discriminate].
  apply H, in_flat_map. exists object. split; [exact Hobject | exact Ho].
Qed.

(** The file of the track is one tree (X9). *)
Lemma write_forest_witness :
  exists st' tokens,
    write Examples.convertMatrix Examples.inverted Examples.re_compile
      Examples.re_escape Examples.set_iter Scenes.track Examples.start = Ok st'
    /\ file st' = file Examples.start ++ tokens
    /\ forest 1 tokens.
Proof.
  destruct (write Examples.convertMatrix Examples.inverted Examples.re_compile
              Examples.re_escape Examples.set_iter Scenes.track Examples.start)
    as [st'| |] eqn:E; [|vm_compute in E; discriminate..].
  destruct (write_forest _ _ _ _ _ _ set_iter_nonempty _ _
              (faces_check (objects Scenes.track) eq_refl) E)
    as (tokens & Hfile & Hforest).
  exists st', tokens. split; [reflexivity|]. split; [exact Hfile | exact Hforest].
Defined.

(** The ghost leaves no trace, and the root of the haunted track counts
    five children (X11). *)
Lemma writeObject_faceless_witness :
  writeObject Examples.convertMatrix Examples.inverted Examples.re_compile
    Examples.re_escape Examples.set_iter Scenes.haunted Scenes.ghost Examples.start
  = Ok Examples.start
  /\ exists st' rest,
       write Examples.convertMatrix Examples.inverted Examples.re_compile
         Examples.re_escape Examples.set_iter Scenes.haunted Examples.start = Ok st'
       /\ file st'
          = BaseNode_record (mkNodeData "BlenderFile" 5 true Matrix_identity) ++ rest
       /\ In Scenes.ghost
            (List.filter (fun o => bool_decide (parent (data o) = None)
                                   && negb (isHidden o))
               (objects Scenes.haunted)).
Proof.
  destruct (writeObject_faceless Examples.convertMatrix Examples.inverted
              Examples.re_compile Examples.re_escape Examples.set_iter Scenes.haunted
              Scenes.ghost Examples.start)
    as [Hnothing Hcounted]; try reflexivity; [discriminate|].
  split; [exact Hnothing|].
  destruct (write Examples.convertMatrix Examples.inverted Examples.re_compile
              Examples.re_escape Examples.set_iter Scenes.haunted Examples.start)
    as [st'| |] eqn:E; [|vm_compute in E; discriminate..].
  destruct (Hcounted ltac:(vm_compute; tauto) _ _ E) as (rest & Hfile & Hin).
  exists st', rest. split; [reflexivity|]. split; [exact Hfile | exact Hin].
Defined.

Lemma track_positions (key : string) (v : Value) :
  materialPositions Scenes.track !! key = Some v -> is_None v = false.
Proof.
  unfold Scenes.track. cbn [materialPositions]. intros H.
  apply lookup_singleton_Some in H as [_ <-]. reflexivity.
Qed.

(** The warnings of the track: the marker, and neither the garage, which
    holds a mesh, nor the finish line (X12). *)
Lemma write_warnings_witness :
  exists st',
    write Examples.convertMatrix Examples.inverted Examples.re_compile
      Examples.re_escape Examples.set_iter Scenes.track Examples.start = Ok st'
    /\ warnings st' = [UnknownLogicalObject "Marker"].
Proof.
  destruct (write Examples.convertMatrix Examples.inverted Examples.re_compile
              Examples.re_escape Examples.set_iter Scenes.track Examples.start)
    as [st'| |] eqn:E; [|vm_compute in E; discriminate..].
  exists st'. split; [reflexivity|].
  rewrite (write_warnings _ _ _ _ _ _ _ _ track_positions E).
  vm_compute. reflexivity.
Defined.
